(** * Voice allocation and envelope scheduling of the polyphonic synth engine

    A shallow embedding of [services/AudioEngine.ts] (class [AudioEngine])
    together with the parameter types of [types.ts].

    Conventions of the embedding.
    - A JavaScript [number] that carries a time, a level or a frequency is a
      rational [Q]; the arithmetic is exact, so rounding of IEEE doubles and
      the values NaN and Infinity are outside the model.  MIDI note numbers
      are integers [Z].
    - The Web Audio backend is external.  An [AudioParam] is the trace of the
      automation calls made on it, in call order.  A node is the record of
      what the engine configured on it.  Graph edges are not tracked: a
      component stored on a voice is wired to that voice's filter, and a
      component dropped from the voice has been disconnected.
    - [Math.pow] and the backend's reading of [param.value] are parameters of
      the development (Section [Synth]).
    - [window.setTimeout] is the list of pending timers of the engine state;
      a timer firing is an event of its own ([fireTimeout]).  The clock is
      a field of the context; it moves between calls, not during one.
    - The two noise buffers hold random samples; a buffer source records
      which of the two it plays.
    - [connectLFOToVoice] and [disconnectLFOFromVoice] only add and remove
      edges from the LFO taps, so they leave the model where it is; the LFO
      nodes themselves are the three optional fields of the engine. *)

From Stdlib Require Import QArith Qminmax Qround ZArith String List DecimalString Lqa.
From stdpp Require Import base list strings.

Open Scope Q_scope.

(** ** Parameter types ([types.ts]) *)

Inductive Waveform := SINE | SQUARE | SAWTOOTH | TRIANGLE.

Scheme Equality for Waveform.

(** The string value of each enum member. *)
Definition Waveform_value (w : Waveform) : string :=
  match w with
  | SINE => "sine"
  | SQUARE => "square"
  | SAWTOOTH => "sawtooth"
  | TRIANGLE => "triangle"
  end.

Inductive BiquadFilterType :=
  lowpass | highpass | bandpass | lowshelf | highshelf | peaking | notch | allpass.

Scheme Equality for BiquadFilterType.

Inductive NoiseType := white | pink.

Module OscP.
Record OscillatorParams := {
  id : string;
  waveform : Waveform;
  octave : Q;
  tune : Q;
  level : Q;
  enabled : bool }.
End OscP.
Abbreviation OscillatorParams := OscP.OscillatorParams.

Module EnvP.
Record EnvelopeParams := {
  attack : Q;
  decay : Q;
  sustain : Q;
  release : Q }.
End EnvP.
Abbreviation EnvelopeParams := EnvP.EnvelopeParams.

Module FilterP.
Record FilterParams := {
  cutoff : Q;
  resonance : Q;
  envelopeAmount : Q;
  keyboardTracking : Q;
  type : BiquadFilterType }.
End FilterP.
Abbreviation FilterParams := FilterP.FilterParams.

Module NoiseP.
Record NoiseParams := {
  type : NoiseType;
  level : Q;
  enabled : bool }.
End NoiseP.
Abbreviation NoiseParams := NoiseP.NoiseParams.

Module LfoP.
Record LFOParams := {
  waveform : Waveform;
  rate : Q;
  pitchAmount : Q;
  filterAmount : Q;
  enabled : bool }.
End LfoP.
Abbreviation LFOParams := LfoP.LFOParams.

Module Params.
Record SynthParams := {
  masterVolume : Q;
  glide : Q;
  oscillators : list OscillatorParams;
  noise : NoiseParams;
  filter : FilterParams;
  ampEnvelope : EnvelopeParams;
  filterEnvelope : EnvelopeParams;
  lfo : LFOParams }.
End Params.
Abbreviation SynthParams := Params.SynthParams.

(** ** The audio backend as the engine sees it *)

(** One call on an [AudioParam]: [SetValue v] is the assignment
    [param.value = v], the others are the methods of the same name. *)
Inductive AutomationCall :=
| SetValue (value : Q)
| CancelScheduledValues (cancelTime : Q)
| SetValueAtTime (value : Q) (startTime : Q)
| LinearRampToValueAtTime (value : Q) (endTime : Q).

Definition AudioParam := list AutomationCall.

Definition call (c : AutomationCall) (p : AudioParam) : AudioParam := p ++ [c].

Module OscNode.
Record OscillatorNode := {
  type : Waveform;
  frequency : AudioParam;
  startCalls : list Q;
  stopCalls : list Q }.
Definition stop (when : Q) (n : OscillatorNode) : OscillatorNode :=
  Build_OscillatorNode (type n) (frequency n) (startCalls n) (stopCalls n ++ [when]).
Definition set_frequency (p : AudioParam) (n : OscillatorNode) : OscillatorNode :=
  Build_OscillatorNode (type n) p (startCalls n) (stopCalls n).
End OscNode.
Abbreviation OscillatorNode := OscNode.OscillatorNode.

Module Gain.
Record GainNode := { gain : AudioParam }.
End Gain.
Abbreviation GainNode := Gain.GainNode.

Module BufSrc.
Record AudioBufferSourceNode := {
  buffer : NoiseType;
  loop : bool;
  startCalls : list Q;
  stopCalls : list Q }.
Definition stop (when : Q) (n : AudioBufferSourceNode) : AudioBufferSourceNode :=
  Build_AudioBufferSourceNode (buffer n) (loop n) (startCalls n) (stopCalls n ++ [when]).
End BufSrc.
Abbreviation AudioBufferSourceNode := BufSrc.AudioBufferSourceNode.

Module Biquad.
Record BiquadFilterNode := {
  type : BiquadFilterType;
  frequency : AudioParam;
  Q : AudioParam }.
End Biquad.
Abbreviation BiquadFilterNode := Biquad.BiquadFilterNode.

Inductive AudioContextState := suspended | running | closed.

Module Ctx.
Record AudioContext := {
  currentTime : Q;
  sampleRate : Q;
  state : AudioContextState;
  resumeCalled : bool;
  closeCalled : bool }.
Definition resume (c : AudioContext) : AudioContext :=
  Build_AudioContext (currentTime c) (sampleRate c) (state c) true (closeCalled c).
Definition close (c : AudioContext) : AudioContext :=
  Build_AudioContext (currentTime c) (sampleRate c) (state c) (resumeCalled c) true.
End Ctx.
Abbreviation AudioContext := Ctx.AudioContext.

(** ** Voices ([interface PolyVoice]) *)

Module Comp.
Record OscComp := {
  oscNode : OscillatorNode;
  gainNode : GainNode }.
End Comp.
Abbreviation OscComp := Comp.OscComp.

Module Voice.
Record PolyVoice := {
  id : nat;
  note : option Z;
  velocity : Q;
  isActive : bool;
  isReleasing : bool;
  startTime : Q;
  oscillators : list OscComp;
  noiseNode : option AudioBufferSourceNode;
  noiseGainNode : option GainNode;
  filterNode : BiquadFilterNode;
  vcaNode : GainNode;
  scheduledStopTimeouts : list nat }.
End Voice.
Abbreviation PolyVoice := Voice.PolyVoice.

(** A pending [window.setTimeout] of [noteOff]: the closure captures the voice
    (its slot in the pool) and the note; [delay] is in milliseconds. *)
Module Timer.
Record Timeout := {
  id : nat;
  voice : nat;
  note : Z;
  delay : Q }.
End Timer.
Abbreviation Timeout := Timer.Timeout.

Definition MAX_POLYPHONY : nat := 8.

Module Engine.
Record AudioEngine := {
  audioContext : AudioContext;
  masterGain : GainNode;
  masterConnected : bool;
  lfoOscNode : option OscillatorNode;
  lfoGainPitchNode : option GainNode;
  lfoGainFilterNode : option GainNode;
  voices : list PolyVoice;
  currentParams : SynthParams;
  pitchBendMultiplier : Q;
  timeouts : list Timeout;
  nextTimeoutId : nat }.
Definition set_voices (vs : list PolyVoice) (e : AudioEngine) : AudioEngine :=
  Build_AudioEngine (audioContext e) (masterGain e) (masterConnected e)
    (lfoOscNode e) (lfoGainPitchNode e) (lfoGainFilterNode e) vs (currentParams e)
    (pitchBendMultiplier e) (timeouts e) (nextTimeoutId e).
Definition set_timeouts (ts : list Timeout) (e : AudioEngine) : AudioEngine :=
  Build_AudioEngine (audioContext e) (masterGain e) (masterConnected e)
    (lfoOscNode e) (lfoGainPitchNode e) (lfoGainFilterNode e) (voices e)
    (currentParams e) (pitchBendMultiplier e) ts (nextTimeoutId e).
Definition set_audioContext (c : AudioContext) (e : AudioEngine) : AudioEngine :=
  Build_AudioEngine c (masterGain e) (masterConnected e)
    (lfoOscNode e) (lfoGainPitchNode e) (lfoGainFilterNode e) (voices e)
    (currentParams e) (pitchBendMultiplier e) (timeouts e) (nextTimeoutId e).
Definition set_masterGain (g : GainNode) (e : AudioEngine) : AudioEngine :=
  Build_AudioEngine (audioContext e) g (masterConnected e)
    (lfoOscNode e) (lfoGainPitchNode e) (lfoGainFilterNode e) (voices e)
    (currentParams e) (pitchBendMultiplier e) (timeouts e) (nextTimeoutId e).
Definition set_lfo (osc : option OscillatorNode) (pitch filter : option GainNode)
    (e : AudioEngine) : AudioEngine :=
  Build_AudioEngine (audioContext e) (masterGain e) (masterConnected e)
    osc pitch filter (voices e)
    (currentParams e) (pitchBendMultiplier e) (timeouts e) (nextTimeoutId e).
Definition set_currentParams (p : SynthParams) (e : AudioEngine) : AudioEngine :=
  Build_AudioEngine (audioContext e) (masterGain e) (masterConnected e)
    (lfoOscNode e) (lfoGainPitchNode e) (lfoGainFilterNode e) (voices e)
    p (pitchBendMultiplier e) (timeouts e) (nextTimeoutId e).
Definition now (e : AudioEngine) : Q := Ctx.currentTime (audioContext e).
Definition nyquist (e : AudioEngine) : Q := Ctx.sampleRate (audioContext e) / 2.
End Engine.
Abbreviation AudioEngine := Engine.AudioEngine.

(** ** Platform functions *)

(** [Array.prototype.sort(compare)]: a stable sort; [compare a b <= 0] keeps
    [a] before [b]. *)
Fixpoint sort_insert {A : Type} (compare : A → A → Q) (x : A) (l : list A)
  : list A :=
  match l with
  | [] => [x]
  | y :: l' =>
      if Qle_bool (compare x y) 0 then x :: y :: l'
      else y :: sort_insert compare x l'
  end.

Definition Array_sort {A : Type} (compare : A → A → Q) (l : list A) : list A :=
  foldr (sort_insert compare) [] l.

(** An array element together with its position, which stands for the
    identity of the object the array holds. *)
Definition indexed {A : Type} (l : list A) : list (nat * A) :=
  imap (λ i x, (i, x)) l.

(** String conversion of the integers that [setPitchBend] concatenates. *)
Definition Z_toString (z : Z) : string := NilZero.string_of_int (Z.to_int z).
Definition nat_toString (n : nat) : string := NilZero.string_of_uint (Nat.to_uint n).

(** [n] is truthy: neither [null] nor [0]. *)
Definition truthy_note (n : option Z) : bool :=
  match n with
  | Some z => negb (z =? 0)%Z
  | None => false
  end.

(** [v.note === note]. *)
Definition note_is (note : Z) (n : option Z) : bool :=
  match n with
  | Some z => (z =? note)%Z
  | None => false
  end.

(** [clearTimeout] on every handle of [ids]. *)
Definition clearTimeouts (ids : list nat) (e : AudioEngine) : AudioEngine :=
  Engine.set_timeouts
    (filter (λ t, Timer.id t ∉ ids) (Engine.timeouts e)) e.

(** [Math.max(20, Math.min(sampleRate / 2, x))]. *)
Definition clampCutoff (e : AudioEngine) (x : Q) : Q :=
  Qmax 20 (Qmin (Engine.nyquist e) x).

(** The cutoff shifted by keyboard tracking, as [noteOn] computes it for the
    note being played. *)
Definition trackedCutoff (e : AudioEngine) (note : Z) : Q :=
  let filter := Params.filter (Engine.currentParams e) in
  let filterBaseCutoff := FilterP.cutoff filter in
  if Qlt_le_dec 0 (FilterP.keyboardTracking filter) then
    let noteDelta := inject_Z note - 60 in
    let filterBaseCutoff :=
      filterBaseCutoff + noteDelta * (FilterP.keyboardTracking filter * 20) in
    clampCutoff e filterBaseCutoff
  else filterBaseCutoff.

(** The same computation behind the test [voice.note && tracking > 0] of
    [noteOff] and [stopVoice]. *)
Definition trackedCutoffOfVoice (e : AudioEngine) (note : option Z) : Q :=
  match note with
  | Some n =>
      if truthy_note note then trackedCutoff e n
      else FilterP.cutoff (Params.filter (Engine.currentParams e))
  | None => FilterP.cutoff (Params.filter (Engine.currentParams e))
  end.

(** ** MIDI input ([services/MidiService.ts]) and its handlers in [App.tsx] *)

(** The constants of [constants.ts]. *)
Definition MIDI_NOTE_ON : Z := 0x90.
Definition MIDI_NOTE_OFF : Z := 0x80.
Definition MIDI_PITCH_BEND : Z := 0xE0.
Definition MIDI_CC : Z := 0xB0.

(** A byte taken out of [event.data] by destructuring is [undefined], here
    [None], when the message is shorter.  [ToInt32] is what a bit operation
    makes of it; the bytes of a [Uint8Array] are their own 32-bit value. *)
Definition ToInt32 (byte : option Z) : Z := default 0%Z byte.

Module Midi.
Record MidiMessage := {
  command : Z;
  note : option Z;
  velocity : option Z }.
End Midi.
Abbreviation MidiMessage := Midi.MidiMessage.

(** The callback [handleMidiMessage] invokes, with its arguments; a bend of
    [None] is the NaN that arithmetic on [undefined] gives. *)
Inductive MidiCallback :=
| onNoteEvent (message : MidiMessage)
| onPitchBendEvent (bendValue : option Q)
| onCcEvent (control value : option Z).

(** [handleMidiMessage(event)] on the bytes of [event.data]: the callback it
    invokes, [None] for the [default] branch. *)
Definition handleMidiMessage (data : list Z) : option MidiCallback :=
  let commandWithChannel := data !! 0%nat in
  let noteOrControl := data !! 1%nat in
  let velocityOrValue := data !! 2%nat in
  let command := Z.land (ToInt32 commandWithChannel) 0xF0 in
  if (command =? MIDI_NOTE_ON)%Z then
    if match velocityOrValue with Some v => (0 <? v)%Z | None => false end
    then Some (onNoteEvent {| Midi.command := command;
                              Midi.note := noteOrControl;
                              Midi.velocity := velocityOrValue |})
    else Some (onNoteEvent {| Midi.command := MIDI_NOTE_OFF;
                              Midi.note := noteOrControl;
                              Midi.velocity := Some 0%Z |})
  else if (command =? MIDI_NOTE_OFF)%Z then
    Some (onNoteEvent {| Midi.command := command;
                         Midi.note := noteOrControl;
                         Midi.velocity := velocityOrValue |})
  else if (command =? MIDI_PITCH_BEND)%Z then
    Some (onPitchBendEvent
            (match noteOrControl with
             | Some lsb =>
                 Some (inject_Z (Z.shiftl (ToInt32 velocityOrValue) 7 + lsb - 8192) / 8192)
             | None => None
             end))
  else if (command =? MIDI_CC)%Z then
    Some (onCcEvent noteOrControl velocityOrValue)
  else None.

(** The state of [App] that the note and pitch-bend handlers read and write. *)
Module App.
Record AppState := {
  audioEngine : option AudioEngine;
  lastPlayedNote : string }.
End App.
Abbreviation AppState := App.AppState.

(** ** The noise buffers ([preloadNoiseBuffers]) *)

(** The seven running values of the pink filter. *)
Module Pink.
Record PinkState := { b0 : Q; b1 : Q; b2 : Q; b3 : Q; b4 : Q; b5 : Q; b6 : Q }.
End Pink.
Abbreviation PinkState := Pink.PinkState.

(** One turn of the second loop: the running values after it and the sample
    it stores, for the white sample [white]. *)
Definition pinkStep (s : PinkState) (white : Q) : PinkState * Q :=
  let b0 := 0.99886 * Pink.b0 s + white * 0.0555179 in
  let b1 := 0.99332 * Pink.b1 s + white * 0.0750759 in
  let b2 := 0.96900 * Pink.b2 s + white * 0.1538520 in
  let b3 := 0.86650 * Pink.b3 s + white * 0.3104856 in
  let b4 := 0.55000 * Pink.b4 s + white * 0.5329522 in
  let b5 := -0.7616 * Pink.b5 s - white * 0.0168980 in
  let sample := b0 + b1 + b2 + b3 + b4 + b5 + Pink.b6 s + white * 0.5362 in
  let sample := sample * 0.11 in
  ({| Pink.b0 := b0; Pink.b1 := b1; Pink.b2 := b2; Pink.b3 := b3;
      Pink.b4 := b4; Pink.b5 := b5; Pink.b6 := white * 0.115926 |}, sample).

Fixpoint pinkLoop (s : PinkState) (whites : list Q) : list Q :=
  match whites with
  | [] => []
  | w :: rest => let (s', sample) := pinkStep s w in sample :: pinkLoop s' rest
  end.

(** [preloadNoiseBuffers()] for a buffer of [bufferSize] samples: the white
    and the pink buffer.  [Math_random k] is the result of the [k]-th call of
    [Math.random()]; samples are kept exact, not rounded to 32 bits. *)
Definition preloadNoiseBuffers (bufferSize : nat) (Math_random : nat → Q)
  : list Q * list Q :=
  let whiteOutput := (λ i : nat, Math_random i * 2 - 1) <$> seq 0 bufferSize in
  let pinkOutput :=
    pinkLoop {| Pink.b0 := 0; Pink.b1 := 0; Pink.b2 := 0; Pink.b3 := 0;
                Pink.b4 := 0; Pink.b5 := 0; Pink.b6 := 0 |}
      ((λ i, Math_random (bufferSize + i)%nat * 2 - 1) <$> seq 0 bufferSize) in
  (whiteOutput, pinkOutput).

(** The bound the pink filter keeps on its samples. *)
Definition pinkBound : Q :=
  0.11 * (0.0555179 / (1 - 0.99886) + 0.0750759 / (1 - 0.99332)
          + 0.1538520 / (1 - 0.96900) + 0.3104856 / (1 - 0.86650)
          + 0.5329522 / (1 - 0.55000) + 0.0168980 / (1 - 0.7616)
          + 0.115926 + 0.5362).

(** The bounds the pink filter keeps on its running values. *)
Definition pinkWithin (s : PinkState) : Prop :=
  (- (0.0555179 / (1 - 0.99886)) <= Pink.b0 s <= 0.0555179 / (1 - 0.99886))
  ∧ (- (0.0750759 / (1 - 0.99332)) <= Pink.b1 s <= 0.0750759 / (1 - 0.99332))
  ∧ (- (0.1538520 / (1 - 0.96900)) <= Pink.b2 s <= 0.1538520 / (1 - 0.96900))
  ∧ (- (0.3104856 / (1 - 0.86650)) <= Pink.b3 s <= 0.3104856 / (1 - 0.86650))
  ∧ (- (0.5329522 / (1 - 0.55000)) <= Pink.b4 s <= 0.5329522 / (1 - 0.55000))
  ∧ (- (0.0168980 / (1 - 0.7616)) <= Pink.b5 s <= 0.0168980 / (1 - 0.7616))
  ∧ (- 0.115926 <= Pink.b6 s <= 0.115926).

(** ** The engine ([class AudioEngine]) *)

Section Synth.

(** [Math.pow]. *)
Variable Math_pow : Q → Q → Q.

(** [param.value], read by the engine at the given clock time. *)
Variable param_value : AudioParam → Q → Q.

Definition midiNoteToFrequency (note : Q) : Q :=
  440 * Math_pow 2 ((note - 69) / 12).

(** [applyEnvelope]: the trace of [param] after the call. *)
Definition applyEnvelope (e : AudioEngine) (param : AudioParam)
    (envelope : EnvelopeParams) (baseValue peakValue sustainLevelProportion : Q)
  : AudioParam :=
  let now := Engine.now e in
  let param := call (CancelScheduledValues now) param in
  let param := call (SetValueAtTime baseValue now) param in
  let param :=
    call (LinearRampToValueAtTime peakValue
            (now + Qmax 0.001 (EnvP.attack envelope))) param in
  call (LinearRampToValueAtTime (sustainLevelProportion * peakValue)
          (now + Qmax 0.001 (EnvP.attack envelope)
               + Qmax 0.001 (EnvP.decay envelope))) param.

(** [releaseEnvelope]. *)
Definition releaseEnvelope (e : AudioEngine) (param : AudioParam)
    (releaseTime targetValue : Q) : AudioParam :=
  let now := Engine.now e in
  let value := param_value param now in
  let param := call (CancelScheduledValues now) param in
  let param := call (SetValueAtTime value now) param in
  call (LinearRampToValueAtTime targetValue (now + Qmax 0.001 releaseTime)) param.

(** What [stopVoice] leaves of the voice itself. *)
Definition stopVoice_voice (e : AudioEngine) (hardStop : bool)
    (voice : PolyVoice) : PolyVoice :=
  let now := Engine.now e in
  let vcaNode :=
    if hardStop then
      {| Gain.gain :=
           call (SetValueAtTime 0 now)
             (call (CancelScheduledValues now) (Gain.gain (Voice.vcaNode voice))) |}
    else Voice.vcaNode voice in
  let filterNode :=
    if hardStop then
      let baseFilterCutoff := trackedCutoffOfVoice e (Voice.note voice) in
      {| Biquad.type := Biquad.type (Voice.filterNode voice);
         Biquad.frequency :=
           call (SetValueAtTime baseFilterCutoff now)
             (call (CancelScheduledValues now)
                (Biquad.frequency (Voice.filterNode voice)));
         Biquad.Q := Biquad.Q (Voice.filterNode voice) |}
    else Voice.filterNode voice in
  let fullStop :=
    negb hardStop
    || (hardStop && match Voice.note voice with None => true | Some _ => false end) in
  {| Voice.id := Voice.id voice;
     Voice.note := if fullStop then None else Voice.note voice;
     Voice.velocity := if fullStop then 0 else Voice.velocity voice;
     Voice.isActive := false;
     Voice.isReleasing := false;
     Voice.startTime := if fullStop then 0 else Voice.startTime voice;
     Voice.oscillators := [];
     Voice.noiseNode := None;
     Voice.noiseGainNode := None;
     Voice.filterNode := filterNode;
     Voice.vcaNode := vcaNode;
     Voice.scheduledStopTimeouts := [] |}.

(** [stopVoice(voice, hardStop)], the voice given by its slot. *)
Definition stopVoice (e : AudioEngine) (slot : nat) (hardStop : bool)
  : AudioEngine :=
  match Engine.voices e !! slot with
  | None => e
  | Some voice =>
      let e := clearTimeouts (Voice.scheduledStopTimeouts voice) e in
      Engine.set_voices
        (<[slot := stopVoice_voice e hardStop voice]> (Engine.voices e)) e
  end.

(** The three tests of [findVoiceForNoteOn] and the voice "in use". *)
Definition sounding (v : PolyVoice) : bool :=
  Voice.isActive v || Voice.isReleasing v.

Definition holdsNote (note : Z) (v : PolyVoice) : bool :=
  note_is note (Voice.note v) && sounding v.

Definition isFree (v : PolyVoice) : bool :=
  negb (Voice.isActive v) && negb (Voice.isReleasing v).

Definition onlyReleasing (v : PolyVoice) : bool :=
  Voice.isReleasing v && negb (Voice.isActive v).

Definition onlyActive (v : PolyVoice) : bool :=
  Voice.isActive v && negb (Voice.isReleasing v).

(** [(a, b) => a.startTime - b.startTime]. *)
Definition byStartTime (a b : nat * PolyVoice) : Q :=
  Voice.startTime a.2 - Voice.startTime b.2.

(** [filter(test)] then [sort] then element [0], as a slot. *)
Definition oldest (test : PolyVoice → bool) (voices : list PolyVoice)
  : option nat :=
  let candidatesForStealing := filter (λ iv, test iv.2) (indexed voices) in
  match Array_sort byStartTime candidatesForStealing with
  | [] => None
  | voiceToSteal :: _ => Some voiceToSteal.1
  end.

(** [findVoiceForNoteOn]: the engine after the call and the slot of the
    voice returned, [None] for [null]. *)
Definition findVoiceForNoteOn (e : AudioEngine) (note : Z)
  : AudioEngine * option nat :=
  let voices := Engine.voices e in
  if decide (length voices = 0%nat) then (e, None) else
  match list_find (λ v, holdsNote note v) voices with
  | Some (retriggerVoice, _) =>
      (stopVoice e retriggerVoice true, Some retriggerVoice)
  | None =>
  match list_find (λ v, isFree v) voices with
  | Some (freeVoice, _) => (e, Some freeVoice)
  | None =>
  match oldest onlyReleasing voices with
  | Some voiceToSteal => (stopVoice e voiceToSteal true, Some voiceToSteal)
  | None =>
  match oldest onlyActive voices with
  | Some voiceToSteal => (stopVoice e voiceToSteal true, Some voiceToSteal)
  | None =>
  if decide (0 < length voices)%nat then
    match oldest sounding voices with
    | Some voiceToSteal => (stopVoice e voiceToSteal true, Some voiceToSteal)
    | None => (e, None)
    end
  else (e, None)
  end end end end.

(** The oscillator component [noteOn] builds from one descriptor. *)
Definition buildOscillator (e : AudioEngine) (note : Z)
    (oscParam : OscillatorParams) : OscComp :=
  let now := Engine.now e in
  let baseFrequency :=
    midiNoteToFrequency (inject_Z note + OscP.octave oscParam * 12) in
  let tunedFrequency :=
    baseFrequency * Math_pow 2 (OscP.tune oscParam / 1200) in
  {| Comp.oscNode :=
       {| OscNode.type := OscP.waveform oscParam;
          OscNode.frequency :=
            [SetValueAtTime (tunedFrequency * Engine.pitchBendMultiplier e) now];
          OscNode.startCalls := [now];
          OscNode.stopCalls := [] |};
     Comp.gainNode :=
       {| Gain.gain := [SetValueAtTime (OscP.level oscParam) now] |} |}.

(** The descriptors [noteOn] does not skip. *)
Definition audible (oscParam : OscillatorParams) : bool :=
  OscP.enabled oscParam && negb (Qeq_bool (OscP.level oscParam) 0).

(** The body of [noteOn] after a voice was found: what it writes on it. *)
Definition noteOn_voice (e : AudioEngine) (note : Z) (velocity : Q)
    (voice : PolyVoice) : PolyVoice :=
  let now := Engine.now e in
  let params := Engine.currentParams e in
  let oscillators :=
    buildOscillator e note <$> filter (λ p, audible p) (Params.oscillators params) in
  let noiseOn :=
    NoiseP.enabled (Params.noise params)
    && (if Qlt_le_dec 0 (NoiseP.level (Params.noise params)) then true else false) in
  let noiseGainNode :=
    if noiseOn then
      Some {| Gain.gain := [SetValueAtTime (NoiseP.level (Params.noise params)) now] |}
    else
      (λ g, {| Gain.gain := call (SetValueAtTime 0 now) (Gain.gain g) |})
        <$> Voice.noiseGainNode voice in
  let noiseNode :=
    if noiseOn then
      Some {| BufSrc.buffer := NoiseP.type (Params.noise params);
              BufSrc.loop := true;
              BufSrc.startCalls := [now];
              BufSrc.stopCalls := [] |}
    else None in
  let filterBaseCutoff := trackedCutoff e note in
  let ampEnvPeak := 1.0 * (velocity / 127) in
  let vcaNode :=
    {| Gain.gain :=
         applyEnvelope e (Gain.gain (Voice.vcaNode voice))
           (Params.ampEnvelope params) 0 ampEnvPeak
           (EnvP.sustain (Params.ampEnvelope params)) |} in
  let filterEnv := Params.filterEnvelope params in
  let filterEnvModAmount := FilterP.envelopeAmount (Params.filter params) * 5000 in
  let filterAttackTarget := clampCutoff e (filterBaseCutoff + filterEnvModAmount) in
  let filterSustainTarget :=
    clampCutoff e (filterBaseCutoff + EnvP.sustain filterEnv * filterEnvModAmount) in
  let frequency := Biquad.frequency (Voice.filterNode voice) in
  let frequency := call (CancelScheduledValues now) frequency in
  let frequency := call (SetValueAtTime filterBaseCutoff now) frequency in
  let frequency :=
    call (LinearRampToValueAtTime filterAttackTarget
            (now + Qmax 0.001 (EnvP.attack filterEnv))) frequency in
  let frequency :=
    call (LinearRampToValueAtTime filterSustainTarget
            (now + Qmax 0.001 (EnvP.attack filterEnv)
                 + Qmax 0.001 (EnvP.decay filterEnv))) frequency in
  {| Voice.id := Voice.id voice;
     Voice.note := Some note;
     Voice.velocity := velocity;
     Voice.isActive := true;
     Voice.isReleasing := false;
     Voice.startTime := now;
     Voice.oscillators := oscillators;
     Voice.noiseNode := noiseNode;
     Voice.noiseGainNode := noiseGainNode;
     Voice.filterNode :=
       {| Biquad.type := FilterP.type (Params.filter params);
          Biquad.frequency := frequency;
          Biquad.Q :=
            call (SetValueAtTime (FilterP.resonance (Params.filter params)) now)
              (Biquad.Q (Voice.filterNode voice)) |};
     Voice.vcaNode := vcaNode;
     Voice.scheduledStopTimeouts := [] |}.

(** The first statement of [noteOn]. *)
Definition resumeIfSuspended (e : AudioEngine) : AudioEngine :=
  match Ctx.state (Engine.audioContext e) with
  | suspended => Engine.set_audioContext (Ctx.resume (Engine.audioContext e)) e
  | _ => e
  end.

(** [noteOn(note, velocity)]. *)
Definition noteOn (e : AudioEngine) (note : Z) (velocity : Q) : AudioEngine :=
  let e := resumeIfSuspended e in
  match findVoiceForNoteOn e note with
  | (e, None) => e
  | (e, Some slot) =>
      match Engine.voices e !! slot with
      | None => e
      | Some voice =>
          let e := clearTimeouts (Voice.scheduledStopTimeouts voice) e in
          Engine.set_voices
            (<[slot := noteOn_voice e note velocity voice]> (Engine.voices e)) e
      end
  end.

(** [window.setTimeout(callback, delay)] for the cleanup of [noteOff]: the
    engine with the timer pending, and the handle. *)
Definition setTimeout (e : AudioEngine) (slot : nat) (note : Z) (delay : Q)
  : AudioEngine * nat :=
  let handle := Engine.nextTimeoutId e in
  ({| Engine.audioContext := Engine.audioContext e;
      Engine.masterGain := Engine.masterGain e;
      Engine.masterConnected := Engine.masterConnected e;
      Engine.lfoOscNode := Engine.lfoOscNode e;
      Engine.lfoGainPitchNode := Engine.lfoGainPitchNode e;
      Engine.lfoGainFilterNode := Engine.lfoGainFilterNode e;
      Engine.voices := Engine.voices e;
      Engine.currentParams := Engine.currentParams e;
      Engine.pitchBendMultiplier := Engine.pitchBendMultiplier e;
      Engine.timeouts :=
        Engine.timeouts e
        ++ [{| Timer.id := handle; Timer.voice := slot; Timer.note := note;
               Timer.delay := delay |}];
      Engine.nextTimeoutId := S handle |}, handle).

(** One iteration of the [forEach] of [noteOff], on the voice in [slot]. *)
Definition noteOff_voice (note : Z) (e : AudioEngine) (slot : nat) : AudioEngine :=
  match Engine.voices e !! slot with
  | None => e
  | Some voice =>
      if negb (Voice.isActive voice) && Voice.isReleasing voice
         && negb (note_is note (Voice.note voice))
      then e
      else
        let now := Engine.now e in
        let params := Engine.currentParams e in
        let vcaNode :=
          {| Gain.gain :=
               releaseEnvelope e (Gain.gain (Voice.vcaNode voice))
                 (EnvP.release (Params.ampEnvelope params)) 0 |} in
        let filterReleaseTarget := trackedCutoffOfVoice e (Voice.note voice) in
        let filterNode :=
          {| Biquad.type := Biquad.type (Voice.filterNode voice);
             Biquad.frequency :=
               releaseEnvelope e (Biquad.frequency (Voice.filterNode voice))
                 (EnvP.release (Params.filterEnvelope params)) filterReleaseTarget;
             Biquad.Q := Biquad.Q (Voice.filterNode voice) |} in
        let totalReleaseTime :=
          Qmax (EnvP.release (Params.ampEnvelope params))
               (EnvP.release (Params.filterEnvelope params)) in
        let stopTime := now + totalReleaseTime + 0.05 in
        let (e, cleanupTimeoutId) :=
          setTimeout e slot note ((totalReleaseTime + 0.1) * 1000) in
        Engine.set_voices
          (<[slot :=
               {| Voice.id := Voice.id voice;
                  Voice.note := Voice.note voice;
                  Voice.velocity := Voice.velocity voice;
                  Voice.isActive := false;
                  Voice.isReleasing := true;
                  Voice.startTime := Voice.startTime voice;
                  Voice.oscillators :=
                    (λ osc, {| Comp.oscNode := OscNode.stop stopTime (Comp.oscNode osc);
                               Comp.gainNode := Comp.gainNode osc |})
                      <$> Voice.oscillators voice;
                  Voice.noiseNode := BufSrc.stop stopTime <$> Voice.noiseNode voice;
                  Voice.noiseGainNode := Voice.noiseGainNode voice;
                  Voice.filterNode := filterNode;
                  Voice.vcaNode := vcaNode;
                  Voice.scheduledStopTimeouts :=
                    Voice.scheduledStopTimeouts voice ++ [cleanupTimeoutId] |}]>
             (Engine.voices e)) e
  end.

(** [noteOff(note)]. *)
Definition noteOff (e : AudioEngine) (note : Z) : AudioEngine :=
  let voicesToEnd :=
    filter (λ iv, holdsNote note iv.2) (indexed (Engine.voices e)) in
  foldl (noteOff_voice note) e (fst <$> voicesToEnd).

(** The engine with the timer [handle] no longer pending. *)
Definition withoutTimeout (handle : nat) (e : AudioEngine) : AudioEngine :=
  Engine.set_timeouts (filter (λ t, Timer.id t ≠ handle) (Engine.timeouts e)) e.

(** The cleanup callback of [noteOff] runs: the timer [handle] fires. *)
Definition fireTimeout (e : AudioEngine) (handle : nat) : AudioEngine :=
  match list_find (λ t, Timer.id t = handle) (Engine.timeouts e) with
  | None => e
  | Some (_, timer) =>
      let e := withoutTimeout handle e in
      match Engine.voices e !! Timer.voice timer with
      | None => e
      | Some voice =>
          if Voice.isReleasing voice && note_is (Timer.note timer) (Voice.note voice)
          then stopVoice e (Timer.voice timer) false
          else e
      end
  end.

(** The descriptor [setPitchBend] resolves for the oscillator at [index] of a
    voice: [find(p => p.id === type + note + index) || oscillators[index]]. *)
Definition resolveOscParam (params : SynthParams) (oscComp : OscComp)
    (note : Z) (index : nat) : option OscillatorParams :=
  let key :=
    (Waveform_value (OscNode.type (Comp.oscNode oscComp))
       +:+ Z_toString note +:+ nat_toString index)%string in
  match list_find (λ p, OscP.id p = key) (Params.oscillators params) with
  | Some (_, p) => Some p
  | None => Params.oscillators params !! index
  end.

(** The inner [forEach] of [setPitchBend], for one oscillator component;
    [multiplier] is the value just stored in [pitchBendMultiplier]. *)
Definition bendOscillator (e : AudioEngine) (multiplier : Q) (note : Z)
    (index : nat) (oscComp : OscComp) : OscComp :=
  match resolveOscParam (Engine.currentParams e) oscComp note index with
  | Some oscParam =>
      if OscP.enabled oscParam then
        let baseFrequency :=
          midiNoteToFrequency (inject_Z note + OscP.octave oscParam * 12) in
        let tunedFrequency :=
          baseFrequency * Math_pow 2 (OscP.tune oscParam / 1200) in
        let newFrequency := tunedFrequency * multiplier in
        {| Comp.oscNode :=
             OscNode.set_frequency
               (call (LinearRampToValueAtTime newFrequency (Engine.now e + 0.01))
                  (OscNode.frequency (Comp.oscNode oscComp)))
               (Comp.oscNode oscComp);
           Comp.gainNode := Comp.gainNode oscComp |}
      else oscComp
  | None => oscComp
  end.

Definition bendVoice (e : AudioEngine) (multiplier : Q) (voice : PolyVoice)
  : PolyVoice :=
  match Voice.note voice with
  | Some note =>
      if sounding voice then
        {| Voice.id := Voice.id voice;
           Voice.note := Voice.note voice;
           Voice.velocity := Voice.velocity voice;
           Voice.isActive := Voice.isActive voice;
           Voice.isReleasing := Voice.isReleasing voice;
           Voice.startTime := Voice.startTime voice;
           Voice.oscillators :=
             imap (bendOscillator e multiplier note) (Voice.oscillators voice);
           Voice.noiseNode := Voice.noiseNode voice;
           Voice.noiseGainNode := Voice.noiseGainNode voice;
           Voice.filterNode := Voice.filterNode voice;
           Voice.vcaNode := Voice.vcaNode voice;
           Voice.scheduledStopTimeouts := Voice.scheduledStopTimeouts voice |}
      else voice
  | None => voice
  end.

(** [setPitchBend(bendValue)]. *)
Definition setPitchBend (e : AudioEngine) (bendValue : Q) : AudioEngine :=
  let multiplier := Math_pow 2 ((bendValue * 2) / 12) in
  {| Engine.audioContext := Engine.audioContext e;
     Engine.masterGain := Engine.masterGain e;
     Engine.masterConnected := Engine.masterConnected e;
     Engine.lfoOscNode := Engine.lfoOscNode e;
     Engine.lfoGainPitchNode := Engine.lfoGainPitchNode e;
     Engine.lfoGainFilterNode := Engine.lfoGainFilterNode e;
     Engine.voices := bendVoice e multiplier <$> Engine.voices e;
     Engine.currentParams := Engine.currentParams e;
     Engine.pitchBendMultiplier := multiplier;
     Engine.timeouts := Engine.timeouts e;
     Engine.nextTimeoutId := Engine.nextTimeoutId e |}.

(** [teardownLFO]: the three LFO nodes are stopped, disconnected and dropped. *)
Definition teardownLFO (e : AudioEngine) : AudioEngine :=
  Engine.set_lfo None None None e.

(** [setupLFO(lfoParams)]: [start()] without argument starts at time 0. *)
Definition setupLFO (e : AudioEngine) (lfoParams : LFOParams) : AudioEngine :=
  let e := teardownLFO e in
  if negb (LfoP.enabled lfoParams) then e
  else
    let now := Engine.now e in
    Engine.set_lfo
      (Some {| OscNode.type := LfoP.waveform lfoParams;
               OscNode.frequency := [SetValueAtTime (LfoP.rate lfoParams) now];
               OscNode.startCalls := [0];
               OscNode.stopCalls := [] |})
      (Some {| Gain.gain := [SetValueAtTime (LfoP.pitchAmount lfoParams * 100) now] |})
      (Some {| Gain.gain := [SetValueAtTime (LfoP.filterAmount lfoParams * 1000) now] |})
      e.

(** The test [!lfoOscNode || type !== waveform || frequency.value !== rate]. *)
Definition lfoOutdated (e : AudioEngine) (lfoParams : LFOParams) : bool :=
  match Engine.lfoOscNode e with
  | None => true
  | Some node =>
      negb (Waveform_beq (OscNode.type node) (LfoP.waveform lfoParams))
      || negb (Qeq_bool (param_value (OscNode.frequency node) (Engine.now e))
                        (LfoP.rate lfoParams))
  end.

(** [applyParamsToEngineGlobally(params)]. *)
Definition applyParamsToEngineGlobally (e : AudioEngine) (params : SynthParams)
  : AudioEngine :=
  let now := Engine.now e in
  let e :=
    Engine.set_masterGain
      {| Gain.gain :=
           call (SetValueAtTime (Params.masterVolume params) now)
             (Gain.gain (Engine.masterGain e)) |} e in
  if LfoP.enabled (Params.lfo params) then
    let e := if lfoOutdated e (Params.lfo params)
             then setupLFO e (Params.lfo params) else e in
    Engine.set_lfo
      (Engine.lfoOscNode e)
      ((λ g, {| Gain.gain :=
                  call (SetValueAtTime (LfoP.pitchAmount (Params.lfo params) * 100) now)
                    (Gain.gain g) |}) <$> Engine.lfoGainPitchNode e)
      ((λ g, {| Gain.gain :=
                  call (SetValueAtTime (LfoP.filterAmount (Params.lfo params) * 1000) now)
                    (Gain.gain g) |}) <$> Engine.lfoGainFilterNode e)
      e
  else
    match Engine.lfoOscNode e with
    | Some _ => teardownLFO e
    | None => e
    end.

(** The filter settings [updateParams] pushes to an active voice. *)
Definition retuneFilter (e : AudioEngine) (filter : FilterParams)
    (voice : PolyVoice) : PolyVoice :=
  if onlyActive voice then
    let node := Voice.filterNode voice in
    {| Voice.id := Voice.id voice;
       Voice.note := Voice.note voice;
       Voice.velocity := Voice.velocity voice;
       Voice.isActive := Voice.isActive voice;
       Voice.isReleasing := Voice.isReleasing voice;
       Voice.startTime := Voice.startTime voice;
       Voice.oscillators := Voice.oscillators voice;
       Voice.noiseNode := Voice.noiseNode voice;
       Voice.noiseGainNode := Voice.noiseGainNode voice;
       Voice.filterNode :=
         {| Biquad.type :=
              if BiquadFilterType_beq (Biquad.type node) (FilterP.type filter)
              then Biquad.type node else FilterP.type filter;
            Biquad.frequency := Biquad.frequency node;
            Biquad.Q :=
              if Qeq_bool (param_value (Biquad.Q node) (Engine.now e))
                   (FilterP.resonance filter)
              then Biquad.Q node
              else call (SetValueAtTime (FilterP.resonance filter) (Engine.now e))
                     (Biquad.Q node) |};
       Voice.vcaNode := Voice.vcaNode voice;
       Voice.scheduledStopTimeouts := Voice.scheduledStopTimeouts voice |}
  else voice.

(** [lfoConfigChanged] of [updateParams]. *)
Definition lfoConfigChanged (oldLfo newLfo : LFOParams) : bool :=
  negb (eqb (LfoP.enabled oldLfo) (LfoP.enabled newLfo))
  || negb (Waveform_beq (LfoP.waveform oldLfo) (LfoP.waveform newLfo))
  || negb (Qeq_bool (LfoP.rate oldLfo) (LfoP.rate newLfo))
  || negb (Qeq_bool (LfoP.pitchAmount oldLfo) (LfoP.pitchAmount newLfo))
  || negb (Qeq_bool (LfoP.filterAmount oldLfo) (LfoP.filterAmount newLfo)).

(** [updateParams(newParams)]. *)
Definition updateParams (e : AudioEngine) (newParams : SynthParams) : AudioEngine :=
  let oldParams := Engine.currentParams e in
  let e := Engine.set_currentParams newParams e in
  let e := applyParamsToEngineGlobally e (Engine.currentParams e) in
  let e :=
    if negb (BiquadFilterType_beq (FilterP.type (Params.filter oldParams))
                                  (FilterP.type (Params.filter newParams)))
       || negb (Qeq_bool (FilterP.resonance (Params.filter oldParams))
                         (FilterP.resonance (Params.filter newParams)))
    then
      Engine.set_voices
        (retuneFilter e (Params.filter newParams) <$> Engine.voices e) e
    else e in
  if lfoConfigChanged (Params.lfo oldParams) (Params.lfo newParams) then
    if LfoP.enabled (Params.lfo newParams)
    then setupLFO e (Params.lfo newParams)
    else teardownLFO e
  else e.

(** [dispose()]. *)
Definition dispose (e : AudioEngine) : AudioEngine :=
  let e :=
    foldl (λ e slot, stopVoice e slot true) e (seq 0 (length (Engine.voices e))) in
  let e := teardownLFO e in
  let audioContext :=
    match Ctx.state (Engine.audioContext e) with
    | closed => Engine.audioContext e
    | _ => Ctx.close (Engine.audioContext e)
    end in
  {| Engine.audioContext := audioContext;
     Engine.masterGain := Engine.masterGain e;
     Engine.masterConnected := false;
     Engine.lfoOscNode := Engine.lfoOscNode e;
     Engine.lfoGainPitchNode := Engine.lfoGainPitchNode e;
     Engine.lfoGainFilterNode := Engine.lfoGainFilterNode e;
     Engine.voices := Engine.voices e;
     Engine.currentParams := Engine.currentParams e;
     Engine.pitchBendMultiplier := Engine.pitchBendMultiplier e;
     Engine.timeouts := Engine.timeouts e;
     Engine.nextTimeoutId := Engine.nextTimeoutId e |}.

(** The voice the constructor pushes for slot [i]. *)
Definition newVoice (i : nat) : PolyVoice :=
  {| Voice.id := i;
     Voice.note := None;
     Voice.velocity := 0;
     Voice.isActive := false;
     Voice.isReleasing := false;
     Voice.startTime := 0;
     Voice.oscillators := [];
     Voice.noiseNode := None;
     Voice.noiseGainNode := None;
     Voice.filterNode :=
       {| Biquad.type := lowpass; Biquad.frequency := []; Biquad.Q := [] |};
     Voice.vcaNode := {| Gain.gain := [SetValue 0] |};
     Voice.scheduledStopTimeouts := [] |}.

(** The constructor with a pool of [polyphony] voices; [audioContext] is the
    context [new AudioContext()] returns and [nextTimeoutId] the next handle
    of the window. *)
Definition construct (polyphony : nat) (audioContext : AudioContext)
    (nextTimeoutId : nat) (initialParams : SynthParams) : AudioEngine :=
  applyParamsToEngineGlobally
    {| Engine.audioContext := audioContext;
       Engine.masterGain := {| Gain.gain := [] |};
       Engine.masterConnected := true;
       Engine.lfoOscNode := None;
       Engine.lfoGainPitchNode := None;
       Engine.lfoGainFilterNode := None;
       Engine.voices := newVoice <$> seq 0 polyphony;
       Engine.currentParams := initialParams;
       Engine.pitchBendMultiplier := 1.0;
       Engine.timeouts := [];
       Engine.nextTimeoutId := nextTimeoutId |}
    initialParams.

(** [new AudioEngine(initialParams)]. *)
Definition newAudioEngine := construct MAX_POLYPHONY.

(** ** Runs of the engine *)

(** What can happen to an engine: the public calls, a cleanup timer firing,
    the clock moving on and the backend changing the context state. *)
Inductive Event :=
| NoteOn (note : Z) (velocity : Q)
| NoteOff (note : Z)
| PitchBend (bendValue : Q)
| UpdateParams (newParams : SynthParams)
| Dispose
| TimeoutFires (handle : nat)
| ClockAdvances (dt : Q)
| ContextBecomes (state : AudioContextState).

Definition advanceClock (e : AudioEngine) (dt : Q) : AudioEngine :=
  let c := Engine.audioContext e in
  Engine.set_audioContext
    {| Ctx.currentTime := Ctx.currentTime c + Qmax 0 dt;
       Ctx.sampleRate := Ctx.sampleRate c;
       Ctx.state := Ctx.state c;
       Ctx.resumeCalled := Ctx.resumeCalled c;
       Ctx.closeCalled := Ctx.closeCalled c |} e.

Definition setContextState (e : AudioEngine) (state : AudioContextState)
  : AudioEngine :=
  let c := Engine.audioContext e in
  Engine.set_audioContext
    {| Ctx.currentTime := Ctx.currentTime c;
       Ctx.sampleRate := Ctx.sampleRate c;
       Ctx.state := state;
       Ctx.resumeCalled := Ctx.resumeCalled c;
       Ctx.closeCalled := Ctx.closeCalled c |} e.

Definition step (e : AudioEngine) (ev : Event) : AudioEngine :=
  match ev with
  | NoteOn note velocity => noteOn e note velocity
  | NoteOff note => noteOff e note
  | PitchBend bendValue => setPitchBend e bendValue
  | UpdateParams newParams => updateParams e newParams
  | Dispose => dispose e
  | TimeoutFires handle => fireTimeout e handle
  | ClockAdvances dt => advanceClock e dt
  | ContextBecomes state => setContextState e state
  end.

Definition run (e : AudioEngine) (events : list Event) : AudioEngine :=
  foldl step e events.

(** ** Statements about the engine *)

(** No voice of the pool passes [test]. *)
Definition noneOf (test : PolyVoice → bool) (voices : list PolyVoice) : Prop :=
  ∀ slot v, voices !! slot = Some v → ¬ test v.

(** [slot] holds a voice that passes [test] and no voice that passes [test]
    has a smaller [startTime]. *)
Definition oldestOf (test : PolyVoice → bool) (voices : list PolyVoice)
    (slot : nat) : Prop :=
  ∃ v, voices !! slot = Some v ∧ test v
       ∧ ∀ j w, voices !! j = Some w → test w →
                Voice.startTime v <= Voice.startTime w.

(** The branches of voice allocation for [note] in the engine [e], each with
    the condition under which it is taken and the result it gives, the hard
    stop left as the call of [stopVoice]. *)
Inductive Allocation (e : AudioEngine) (note : Z)
  : AudioEngine * option nat → Prop :=
| alloc_retrigger slot v :
    Engine.voices e !! slot = Some v → holdsNote note v →
    Allocation e note (stopVoice e slot true, Some slot)
| alloc_free slot v :
    noneOf (holdsNote note) (Engine.voices e) →
    Engine.voices e !! slot = Some v → isFree v →
    Allocation e note (e, Some slot)
| alloc_steal_releasing slot :
    noneOf (holdsNote note) (Engine.voices e) →
    noneOf isFree (Engine.voices e) →
    oldestOf onlyReleasing (Engine.voices e) slot →
    Allocation e note (stopVoice e slot true, Some slot)
| alloc_steal_active slot :
    noneOf (holdsNote note) (Engine.voices e) →
    noneOf isFree (Engine.voices e) →
    noneOf onlyReleasing (Engine.voices e) →
    oldestOf onlyActive (Engine.voices e) slot →
    Allocation e note (stopVoice e slot true, Some slot)
| alloc_fallback slot :
    noneOf (holdsNote note) (Engine.voices e) →
    noneOf isFree (Engine.voices e) →
    noneOf onlyReleasing (Engine.voices e) →
    noneOf onlyActive (Engine.voices e) →
    oldestOf sounding (Engine.voices e) slot →
    Allocation e note (stopVoice e slot true, Some slot).

(** The number of voices that hold [note] while active or releasing. *)
Definition soundingCount (note : Z) (voices : list PolyVoice) : nat :=
  length (filter (λ v, holdsNote note v) voices).

(** The condition in which the constructor leaves a voice. *)
Definition isReset (v : PolyVoice) : Prop :=
  Voice.isActive v = false ∧ Voice.isReleasing v = false
  ∧ Voice.oscillators v = [] ∧ Voice.noiseNode v = None
  ∧ Voice.noiseGainNode v = None ∧ Voice.scheduledStopTimeouts v = [].

(** No pending timer was scheduled for the voice in [slot]. *)
Definition noTimeoutFor (slot : nat) (e : AudioEngine) : Prop :=
  ∀ t, t ∈ Engine.timeouts e → Timer.voice t ≠ slot.

(** Handles of pending timers were all issued: the next one is fresh. *)
Definition handlesFresh (e : AudioEngine) : Prop :=
  ∀ t, t ∈ Engine.timeouts e → (Timer.id t < Engine.nextTimeoutId e)%nat.

(** [e'] is [e] apart from its voices and its pending timers. *)
Definition sameEngineBut (e e' : AudioEngine) : Prop :=
  Engine.audioContext e' = Engine.audioContext e
  ∧ Engine.masterGain e' = Engine.masterGain e
  ∧ Engine.masterConnected e' = Engine.masterConnected e
  ∧ Engine.lfoOscNode e' = Engine.lfoOscNode e
  ∧ Engine.lfoGainPitchNode e' = Engine.lfoGainPitchNode e
  ∧ Engine.lfoGainFilterNode e' = Engine.lfoGainFilterNode e
  ∧ Engine.currentParams e' = Engine.currentParams e
  ∧ Engine.pitchBendMultiplier e' = Engine.pitchBendMultiplier e
  ∧ Engine.nextTimeoutId e' = Engine.nextTimeoutId e.

(** What a hard stop of the voice in [slot] makes of the engine [e]: in [e']
    the voice is neither active nor releasing, has lost its oscillators, its
    noise source and its timer handles, its amplitude is held at 0 from [now]
    and its filter frequency at the base cutoff of its note; its note is
    kept; the timers it had scheduled are no longer pending; nothing else
    changed. *)
Definition HardStopped (e : AudioEngine) (slot : nat) (e' : AudioEngine) : Prop :=
  let now := Ctx.currentTime (Engine.audioContext e) in
  let filterParams := Params.filter (Engine.currentParams e) in
  ∃ v v',
    Engine.voices e !! slot = Some v
    ∧ Engine.voices e' !! slot = Some v'
    ∧ isReset v'
    ∧ Voice.id v' = Voice.id v
    ∧ Voice.note v' = Voice.note v
    ∧ (Voice.note v ≠ None →
       Voice.velocity v' = Voice.velocity v ∧ Voice.startTime v' = Voice.startTime v)
    ∧ Gain.gain (Voice.vcaNode v')
      = Gain.gain (Voice.vcaNode v)
        ++ [CancelScheduledValues now; SetValueAtTime 0 now]
    ∧ Biquad.frequency (Voice.filterNode v')
      = Biquad.frequency (Voice.filterNode v)
        ++ [ CancelScheduledValues now;
             SetValueAtTime
               (match Voice.note v with
                | Some n =>
                    if negb (n =? 0)%Z
                       && (if Qlt_le_dec 0 (FilterP.keyboardTracking filterParams)
                           then true else false)
                    then Qmax 20 (Qmin (Ctx.sampleRate (Engine.audioContext e) / 2)
                           (FilterP.cutoff filterParams
                            + (inject_Z n - 60) * (FilterP.keyboardTracking filterParams * 20)))
                    else FilterP.cutoff filterParams
                | None => FilterP.cutoff filterParams
                end) now ]
    ∧ Biquad.type (Voice.filterNode v') = Biquad.type (Voice.filterNode v)
    ∧ Biquad.Q (Voice.filterNode v') = Biquad.Q (Voice.filterNode v)
    ∧ (∀ j, j ≠ slot → Engine.voices e' !! j = Engine.voices e !! j)
    ∧ length (Engine.voices e') = length (Engine.voices e)
    ∧ Engine.timeouts e'
      = filter (λ t, Timer.id t ∉ Voice.scheduledStopTimeouts v) (Engine.timeouts e)
    ∧ sameEngineBut e e'.

(** The priority order of voice allocation with the hard stop spelled out:
    [Allocates e note (e', slot)] when allocation for [note] in [e] gives the
    voice of [slot] and leaves the engine [e']. *)
Inductive Allocates (e : AudioEngine) (note : Z)
  : AudioEngine * option nat → Prop :=
| allocates_retrigger slot v e' :
    Engine.voices e !! slot = Some v → holdsNote note v →
    (∀ j w, Engine.voices e !! j = Some w → holdsNote note w → (slot ≤ j)%nat) →
    HardStopped e slot e' →
    Allocates e note (e', Some slot)
| allocates_free slot v :
    noneOf (holdsNote note) (Engine.voices e) →
    Engine.voices e !! slot = Some v → isFree v →
    (∀ j w, Engine.voices e !! j = Some w → isFree w → (slot ≤ j)%nat) →
    Allocates e note (e, Some slot)
| allocates_steal_releasing slot e' :
    noneOf (holdsNote note) (Engine.voices e) →
    noneOf isFree (Engine.voices e) →
    oldestOf onlyReleasing (Engine.voices e) slot →
    HardStopped e slot e' →
    Allocates e note (e', Some slot)
| allocates_steal_active slot e' :
    noneOf (holdsNote note) (Engine.voices e) →
    noneOf isFree (Engine.voices e) →
    noneOf onlyReleasing (Engine.voices e) →
    oldestOf onlyActive (Engine.voices e) slot →
    HardStopped e slot e' →
    Allocates e note (e', Some slot)
| allocates_fallback slot e' :
    noneOf (holdsNote note) (Engine.voices e) →
    noneOf isFree (Engine.voices e) →
    noneOf onlyReleasing (Engine.voices e) →
    noneOf onlyActive (Engine.voices e) →
    oldestOf sounding (Engine.voices e) slot →
    HardStopped e slot e' →
    Allocates e note (e', Some slot).

(** What a soft stop of the voice in [slot] makes of the engine [e]: in [e']
    the voice has no note, velocity 0 and start time 0, is neither active nor
    releasing, has lost its oscillators, its noise source and its timer
    handles, while its amplitude and filter nodes are left as they were; the
    timers it had scheduled are no longer pending; nothing else changed. *)
Definition SoftStopped (e : AudioEngine) (slot : nat) (e' : AudioEngine) : Prop :=
  ∃ v v',
    Engine.voices e !! slot = Some v
    ∧ Engine.voices e' !! slot = Some v'
    ∧ isReset v'
    ∧ Voice.id v' = Voice.id v
    ∧ Voice.note v' = None ∧ Voice.velocity v' = 0 ∧ Voice.startTime v' = 0
    ∧ Voice.vcaNode v' = Voice.vcaNode v
    ∧ Voice.filterNode v' = Voice.filterNode v
    ∧ (∀ j, j ≠ slot → Engine.voices e' !! j = Engine.voices e !! j)
    ∧ length (Engine.voices e') = length (Engine.voices e)
    ∧ Engine.timeouts e'
      = filter (λ t, Timer.id t ∉ Voice.scheduledStopTimeouts v) (Engine.timeouts e)
    ∧ sameEngineBut e e'.

(** The timer [handle] has left the pending timers of [e], giving [e'], and
    nothing else changed. *)
Definition TimerGone (handle : nat) (e e' : AudioEngine) : Prop :=
  Engine.voices e' = Engine.voices e
  ∧ Engine.timeouts e' = filter (λ t, Timer.id t ≠ handle) (Engine.timeouts e)
  ∧ sameEngineBut e e'.

(** The base cutoff as the specification words it: the shift applies when
    tracking is positive, the clamp always. *)
Definition baseCutoff_clamped (e : AudioEngine) (note : Z) : Q :=
  let filter := Params.filter (Engine.currentParams e) in
  clampCutoff e
    (FilterP.cutoff filter
     + (if Qlt_le_dec 0 (FilterP.keyboardTracking filter)
        then (inject_Z note - 60) * FilterP.keyboardTracking filter * 20
        else 0)).

(** The unbent frequency of a descriptor at [note]. *)
Definition tunedFrequency (note : Z) (oscParam : OscillatorParams) : Q :=
  midiNoteToFrequency (inject_Z note + OscP.octave oscParam * 12)
  * Math_pow 2 (OscP.tune oscParam / 1200).

(** What holds of every engine a run can reach. *)
Record Invariant (e : AudioEngine) : Prop := {
  inv_free_reset :
    ∀ slot v, Engine.voices e !! slot = Some v → isFree v → isReset v;
  inv_timeout_owner :
    ∀ t, t ∈ Engine.timeouts e →
      ∃ v, Engine.voices e !! Timer.voice t = Some v
           ∧ Timer.id t ∈ Voice.scheduledStopTimeouts v;
  inv_one_per_note :
    ∀ note i j vi vj,
      Engine.voices e !! i = Some vi → Engine.voices e !! j = Some vj →
      holdsNote note vi → holdsNote note vj → i = j;
  inv_fresh : handlesFresh e }.


(** ** Sample inputs *)

(** [INITIAL_SYNTH_PARAMS] of [constants.ts]. *)
Definition INITIAL_SYNTH_PARAMS : SynthParams :=
  {| Params.masterVolume := 0.7;
     Params.glide := 0.05;
     Params.oscillators :=
       [ {| OscP.id := "osc1"; OscP.waveform := SAWTOOTH; OscP.octave := 0;
            OscP.tune := 0; OscP.level := 0.8; OscP.enabled := true |};
         {| OscP.id := "osc2"; OscP.waveform := SQUARE; OscP.octave := 0;
            OscP.tune := 0.01; OscP.level := 0.6; OscP.enabled := true |};
         {| OscP.id := "osc3"; OscP.waveform := SAWTOOTH; OscP.octave := -1;
            OscP.tune := 0; OscP.level := 0.0; OscP.enabled := false |} ];
     Params.noise :=
       {| NoiseP.type := white; NoiseP.level := 0.0; NoiseP.enabled := false |};
     Params.filter :=
       {| FilterP.cutoff := 5000; FilterP.resonance := 1;
          FilterP.envelopeAmount := 0.5; FilterP.keyboardTracking := 0.5;
          FilterP.type := lowpass |};
     Params.ampEnvelope :=
       {| EnvP.attack := 0.01; EnvP.decay := 0.3; EnvP.sustain := 0.8;
          EnvP.release := 0.5 |};
     Params.filterEnvelope :=
       {| EnvP.attack := 0.05; EnvP.decay := 0.2; EnvP.sustain := 0.5;
          EnvP.release := 0.4 |};
     Params.lfo :=
       {| LfoP.waveform := TRIANGLE; LfoP.rate := 5; LfoP.pitchAmount := 0;
          LfoP.filterAmount := 0; LfoP.enabled := false |} |}.

(** The initial parameters with other oscillators or another filter. *)
Definition withOscillators (oscillators : list OscillatorParams)
    (p : SynthParams) : SynthParams :=
  {| Params.masterVolume := Params.masterVolume p;
     Params.glide := Params.glide p;
     Params.oscillators := oscillators;
     Params.noise := Params.noise p;
     Params.filter := Params.filter p;
     Params.ampEnvelope := Params.ampEnvelope p;
     Params.filterEnvelope := Params.filterEnvelope p;
     Params.lfo := Params.lfo p |}.

Definition withFilter (filter : FilterParams) (p : SynthParams) : SynthParams :=
  {| Params.masterVolume := Params.masterVolume p;
     Params.glide := Params.glide p;
     Params.oscillators := Params.oscillators p;
     Params.noise := Params.noise p;
     Params.filter := filter;
     Params.ampEnvelope := Params.ampEnvelope p;
     Params.filterEnvelope := Params.filterEnvelope p;
     Params.lfo := Params.lfo p |}.

(** A context as a browser hands it out before any user gesture. *)
Definition sample_context : AudioContext :=
  {| Ctx.currentTime := 0; Ctx.sampleRate := 44100; Ctx.state := suspended;
     Ctx.resumeCalled := false; Ctx.closeCalled := false |}.

Definition sample_engine : AudioEngine :=
  newAudioEngine sample_context 1 INITIAL_SYNTH_PARAMS.

(** The first oscillator switched off, the second one an octave up. *)
Definition firstOscillatorOff : SynthParams :=
  withOscillators
    [ {| OscP.id := "osc1"; OscP.waveform := SAWTOOTH; OscP.octave := 0;
         OscP.tune := 0; OscP.level := 0.8; OscP.enabled := false |};
      {| OscP.id := "osc2"; OscP.waveform := SQUARE; OscP.octave := 1;
         OscP.tune := 0; OscP.level := 0.6; OscP.enabled := true |} ]
    INITIAL_SYNTH_PARAMS.

(** A cutoff below 20 Hz and no keyboard tracking. *)
Definition lowCutoff : SynthParams :=
  withFilter
    {| FilterP.cutoff := 10; FilterP.resonance := 1;
       FilterP.envelopeAmount := 0.5; FilterP.keyboardTracking := 0;
       FilterP.type := lowpass |}
    INITIAL_SYNTH_PARAMS.

(** The two oscillators that sound in the initial patch, without the third. *)
Definition twoOscillators : SynthParams :=
  withOscillators
    [ {| OscP.id := "osc1"; OscP.waveform := SAWTOOTH; OscP.octave := 0;
         OscP.tune := 0; OscP.level := 0.8; OscP.enabled := true |};
      {| OscP.id := "osc2"; OscP.waveform := SQUARE; OscP.octave := 0;
         OscP.tune := 0.01; OscP.level := 0.6; OscP.enabled := true |} ]
    INITIAL_SYNTH_PARAMS.

(** The initial patch with a high-pass filter. *)
Definition highpassFilter : SynthParams :=
  withFilter
    {| FilterP.cutoff := 5000; FilterP.resonance := 1;
       FilterP.envelopeAmount := 0.5; FilterP.keyboardTracking := 0.5;
       FilterP.type := highpass |}
    INITIAL_SYNTH_PARAMS.

(** The initial patch with the LFO switched on. *)
Definition lfoOn : SynthParams :=
  {| Params.masterVolume := Params.masterVolume INITIAL_SYNTH_PARAMS;
     Params.glide := Params.glide INITIAL_SYNTH_PARAMS;
     Params.oscillators := Params.oscillators INITIAL_SYNTH_PARAMS;
     Params.noise := Params.noise INITIAL_SYNTH_PARAMS;
     Params.filter := Params.filter INITIAL_SYNTH_PARAMS;
     Params.ampEnvelope := Params.ampEnvelope INITIAL_SYNTH_PARAMS;
     Params.filterEnvelope := Params.filterEnvelope INITIAL_SYNTH_PARAMS;
     Params.lfo :=
       {| LfoP.waveform := SINE; LfoP.rate := 5; LfoP.pitchAmount := 0.2;
          LfoP.filterAmount := 0; LfoP.enabled := true |} |}.

(** Stand-ins for the two backend functions, to run the engine on the sample
    inputs: a power that is exact on integer exponents, and a parameter that
    reads as the value of the last call made on it. *)
Definition sample_pow (base exponent : Q) : Q := Qpower base (Qfloor exponent).

Definition sample_value (param : AudioParam) (now : Q) : Q :=
  match last param with
  | Some (SetValue v) | Some (SetValueAtTime v _)
  | Some (LinearRampToValueAtTime v _) => v
  | _ => 0
  end.

(** ** Further statements about the engine *)

(** The pool has [polyphony] voices and each voice has its slot as [id]. *)
Definition poolOf (polyphony : nat) (e : AudioEngine) : Prop :=
  length (Engine.voices e) = polyphony
  ∧ ∀ slot v, Engine.voices e !! slot = Some v → Voice.id v = slot.

(** The LFO nodes agree with the current parameters: all three exist, with
    the configured waveform, when the LFO is enabled, and none exists when
    it is disabled. *)
Definition lfoAsConfigured (e : AudioEngine) : Prop :=
  let lfo := Params.lfo (Engine.currentParams e) in
  if LfoP.enabled lfo then
    ∃ osc pitch filter,
      Engine.lfoOscNode e = Some osc
      ∧ Engine.lfoGainPitchNode e = Some pitch
      ∧ Engine.lfoGainFilterNode e = Some filter
      ∧ OscNode.type osc = LfoP.waveform lfo
  else
    Engine.lfoOscNode e = None
    ∧ Engine.lfoGainPitchNode e = None
    ∧ Engine.lfoGainFilterNode e = None.

(** The component [noteOn] builds from the descriptor [p] for [note] in [e],
    written out, and the same component after a later [setPitchBend]. *)
Definition oscillatorOf (e : AudioEngine) (note : Z) (p : OscillatorParams)
  : OscComp :=
  {| Comp.oscNode :=
       {| OscNode.type := OscP.waveform p;
          OscNode.frequency :=
            [SetValueAtTime
               (440 * Math_pow 2 ((inject_Z note + OscP.octave p * 12 - 69) / 12)
                * Math_pow 2 (OscP.tune p / 1200)
                * Engine.pitchBendMultiplier e)
               (Ctx.currentTime (Engine.audioContext e))];
          OscNode.startCalls := [Ctx.currentTime (Engine.audioContext e)];
          OscNode.stopCalls := [] |};
     Comp.gainNode :=
       {| Gain.gain :=
            [SetValueAtTime (OscP.level p) (Ctx.currentTime (Engine.audioContext e))] |} |}.

(** No descriptor has an id of the form [setPitchBend] looks up. *)
Definition plainIds (params : SynthParams) : Prop :=
  ∀ p w note index,
    p ∈ Params.oscillators params →
    OscP.id p ≠ (Waveform_value w +:+ Z_toString note +:+ nat_toString index)%string.

(** ** The handlers of MIDI events in [App.tsx] *)

(** The text [handleNoteEvent] shows for a note-on. *)
Definition noteLabel (note velocity : Z) : string :=
  let names :=
    ["C"; "C#"; "D"; "D#"; "E"; "F"; "F#"; "G"; "G#"; "A"; "A#"; "B"]%string in
  let noteName :=
    if (Z.rem note 12 <? 0)%Z then "undefined"%string
    else default "undefined"%string (names !! Z.to_nat (Z.rem note 12)) in
  let octave := (note / 12 - 1)%Z in
  (noteName +:+ Z_toString octave +:+ " (Vel: " +:+ Z_toString velocity +:+ ")")%string.

(** [handleNoteEvent(message)].  [None]: the call leaves the model, which
    needs a note and a velocity for [noteOn]. *)
Definition handleNoteEvent (app : AppState) (message : MidiMessage)
  : option AppState :=
  match App.audioEngine app with
  | None => Some app
  | Some audioEngine =>
      let audioEngine := resumeIfSuspended audioEngine in
      if (Midi.command message =? MIDI_NOTE_ON)%Z then
        match Midi.note message, Midi.velocity message with
        | Some note, Some velocity =>
            Some {| App.audioEngine :=
                      Some (noteOn audioEngine note (inject_Z velocity));
                    App.lastPlayedNote := noteLabel note velocity |}
        | _, _ => None
        end
      else if (Midi.command message =? MIDI_NOTE_OFF)%Z then
        Some {| App.audioEngine :=
                  Some (match Midi.note message with
                        | Some note => noteOff audioEngine note
                        | None => audioEngine
                        end);
                App.lastPlayedNote := "--" |}
      else Some {| App.audioEngine := Some audioEngine;
                   App.lastPlayedNote := App.lastPlayedNote app |}
  end.

(** [handlePitchBendEvent(bendValue)].  [None]: a NaN bend leaves the model. *)
Definition handlePitchBendEvent (app : AppState) (bendValue : option Q)
  : option AppState :=
  match App.audioEngine app with
  | None => Some app
  | Some audioEngine =>
      match bendValue with
      | Some bendValue =>
          Some {| App.audioEngine := Some (setPitchBend audioEngine bendValue);
                  App.lastPlayedNote := App.lastPlayedNote app |}
      | None => None
      end
  end.

(** A MIDI message arrives at the selected input: [handleMidiMessage] with
    the handlers of [App] as its callbacks.  A control change goes to the
    parameter reducer, which is not part of this development: [None]. *)
Definition onmidimessage (app : AppState) (data : list Z) : option AppState :=
  match handleMidiMessage data with
  | None => Some app
  | Some (onNoteEvent message) => handleNoteEvent app message
  | Some (onPitchBendEvent bendValue) => handlePitchBendEvent app bendValue
  | Some (onCcEvent _ _) => None
  end.

(** Messages arriving one after the other. *)
Fixpoint deliver (app : AppState) (messages : list (list Z)) : option AppState :=
  match messages with
  | [] => Some app
  | data :: rest =>
      match onmidimessage app data with
      | Some app => deliver app rest
      | None => None
      end
  end.


(** ** The envelope scheduler *)

Lemma Qmax_floor_pos (x : Q) : 0 < Qmax 0.001 x.
Proof.
  apply Qlt_le_trans with (y := 0.001); [reflexivity | apply Q.le_max_l].
Qed.

Lemma later_by_floor (t x : Q) : t < t + Qmax 0.001 x.
Proof. pose proof (Qmax_floor_pos x). lra. Qed.

(** C5: [applyEnvelope] appends exactly four calls to the trace of the
    parameter, all anchored at the clock time [now]: cancel from [now], set
    [base] at [now], ramp to [peak] at [now + max(0.001, attack)], ramp to
    [sustainProportion * peak] at [now + max(0.001, attack) + max(0.001,
    decay)]; and both ramps end strictly later than they start. *)
Theorem applyEnvelope_schedule (e : AudioEngine) (param : AudioParam)
    (envelope : EnvelopeParams) (base peak sustainProportion : Q) :
  let now := Ctx.currentTime (Engine.audioContext e) in
  let attackEnd := now + Qmax 0.001 (EnvP.attack envelope) in
  let decayEnd := attackEnd + Qmax 0.001 (EnvP.decay envelope) in
  applyEnvelope e param envelope base peak sustainProportion
  = param ++ [ CancelScheduledValues now;
               SetValueAtTime base now;
               LinearRampToValueAtTime peak attackEnd;
               LinearRampToValueAtTime (sustainProportion * peak) decayEnd ]
  ∧ now < attackEnd ∧ attackEnd < decayEnd.
Proof.
  intros now attackEnd decayEnd. split; [| split].
  - unfold applyEnvelope, call. rewrite <- !app_assoc. reflexivity.
  - apply later_by_floor.
  - apply later_by_floor.
Qed.


(** ** Note-off without a sounding voice, note-on without a pool *)

Lemma filter_indexed_nil {A : Type} (test : A → bool) (l : list A) :
  (∀ i x, l !! i = Some x → ¬ test x) →
  filter (λ ix : nat * A, test ix.2) (indexed l) = [].
Proof.
  intros Hnone.
  destruct (filter (λ ix : nat * A, test ix.2) (indexed l)) as [|[i x] rest] eqn:Hf;
    [reflexivity | exfalso].
  assert (Hin : (i, x) ∈ filter (λ ix : nat * A, test ix.2) (indexed l))
    by (rewrite Hf; left).
  apply list_elem_of_filter in Hin as [Htest Hin]. simpl in Htest.
  unfold indexed in Hin. apply elem_of_lookup_imap in Hin as (j & y & Heq & Hj).
  inversion Heq; subst. exact (Hnone _ _ Hj Htest).
Qed.

(** C9: when no voice of the pool holds [note] while active or releasing,
    [noteOff note] returns the engine as it was: no voice field, no
    automation trace, no stop time and no timer changes. *)
Theorem noteOff_silent_note (e : AudioEngine) (note : Z) :
  (∀ slot v, Engine.voices e !! slot = Some v → ¬ holdsNote note v) →
  noteOff e note = e.
Proof.
  intros Hnone. unfold noteOff.
  rewrite (filter_indexed_nil (holdsNote note) _ Hnone). reflexivity.
Qed.

(** C8: with an empty pool, allocation returns no voice and leaves the engine
    alone, and [noteOn] returns the engine as it was except that [resume] was
    called on a suspended context; the pool, the timers, the parameters and
    the pitch bend are unchanged. *)
Theorem noteOn_empty_pool (e : AudioEngine) (note : Z) (velocity : Q) :
  Engine.voices e = [] →
  findVoiceForNoteOn e note = (e, None)
  ∧ noteOn e note velocity = resumeIfSuspended e
  ∧ Engine.voices (noteOn e note velocity) = []
  ∧ Engine.timeouts (noteOn e note velocity) = Engine.timeouts e
  ∧ Engine.nextTimeoutId (noteOn e note velocity) = Engine.nextTimeoutId e
  ∧ Engine.currentParams (noteOn e note velocity) = Engine.currentParams e
  ∧ Engine.pitchBendMultiplier (noteOn e note velocity) = Engine.pitchBendMultiplier e
  ∧ Engine.masterGain (noteOn e note velocity) = Engine.masterGain e
  ∧ Engine.masterConnected (noteOn e note velocity) = Engine.masterConnected e
  ∧ (Ctx.state (Engine.audioContext e) ≠ suspended → noteOn e note velocity = e).
Proof.
  intros Hempty.
  assert (Hfind : ∀ e', Engine.voices e' = [] → findVoiceForNoteOn e' note = (e', None)).
  { intros e' He'. unfold findVoiceForNoteOn. rewrite He'. reflexivity. }
  assert (Hres : Engine.voices (resumeIfSuspended e) = []).
  { unfold resumeIfSuspended. destruct (Ctx.state _); exact Hempty. }
  assert (Hon : noteOn e note velocity = resumeIfSuspended e).
  { unfold noteOn. rewrite (Hfind _ Hres). reflexivity. }
  split; [exact (Hfind e Hempty) |]. split; [exact Hon |]. rewrite Hon.
  unfold resumeIfSuspended.
  destruct (Ctx.state (Engine.audioContext e)); simpl; repeat split; congruence.
Qed.

(** ** Voice allocation *)

Lemma Array_sort_nil {A : Type} (compare : A → A → Q) (l : list A) :
  Array_sort compare l = [] → l = [].
Proof.
  destruct l as [|a l]; [reflexivity |]. simpl.
  destruct (Array_sort compare l) as [|m r]; simpl; [discriminate |].
  destruct (Qle_bool (compare a m) 0); discriminate.
Qed.

(** The first element after sorting by a key is an element of the array with
    the least key. *)
Lemma Array_sort_head {A : Type} (key : A → Q) (l : list A) (x : A) (rest : list A) :
  Array_sort (λ a b, key a - key b) l = x :: rest →
  x ∈ l ∧ ∀ y, y ∈ l → key x <= key y.
Proof.
  revert x rest. induction l as [|a l IH]; intros x rest Hsort; [discriminate |].
  simpl in Hsort.
  destruct (Array_sort (λ a b, key a - key b) l) as [|m r] eqn:Hl.
  - apply Array_sort_nil in Hl. subst l. simpl in Hsort.
    injection Hsort as <- _. split; [left |].
    intros y Hy. apply list_elem_of_singleton in Hy. subst y. apply Qle_refl.
  - destruct (IH m r eq_refl) as [Hm Hmin]. simpl in Hsort.
    destruct (Qle_bool (key a - key m) 0) eqn:Hcmp.
    + injection Hsort as <- _. apply Qle_bool_iff in Hcmp.
      split; [left |]. intros y Hy. apply elem_of_cons in Hy as [-> | Hy].
      * apply Qle_refl.
      * specialize (Hmin y Hy). lra.
    + injection Hsort as <- _.
      assert (Hlt : ¬ key a - key m <= 0)
        by (intros Hle; apply Qle_bool_iff in Hle; congruence).
      split; [right; exact Hm |]. intros y Hy.
      apply elem_of_cons in Hy as [-> | Hy]; [lra | exact (Hmin y Hy)].
Qed.

Lemma elem_of_filter_indexed {A : Type} (test : A → bool) (l : list A) i x :
  (i, x) ∈ filter (λ ix : nat * A, test ix.2) (indexed l)
  ↔ l !! i = Some x ∧ test x.
Proof.
  rewrite list_elem_of_filter. unfold indexed. simpl. split.
  - intros [Htest Hin]. apply elem_of_lookup_imap in Hin as (j & y & Heq & Hj).
    inversion Heq; subst. auto.
  - intros [Hi Htest]. split; [exact Htest |].
    apply elem_of_lookup_imap. exists i, x. auto.
Qed.

Lemma oldest_Some (test : PolyVoice → bool) (voices : list PolyVoice) slot :
  oldest test voices = Some slot → oldestOf test voices slot.
Proof.
  unfold oldest.
  destruct (Array_sort byStartTime _) as [|[i v] rest] eqn:Hsort; [discriminate |].
  intros [= <-].
  apply (Array_sort_head (λ iv : nat * PolyVoice, Voice.startTime iv.2)) in Hsort
    as [Hin Hmin].
  apply elem_of_filter_indexed in Hin as [Hi Htest].
  exists v. split; [exact Hi |]. split; [exact Htest |].
  intros j w Hj Hw. apply (Hmin (j, w)). apply elem_of_filter_indexed. auto.
Qed.

Lemma oldest_None (test : PolyVoice → bool) (voices : list PolyVoice) :
  oldest test voices = None → noneOf test voices.
Proof.
  unfold oldest.
  destruct (Array_sort byStartTime _) as [|[i v] rest] eqn:Hsort; [| discriminate].
  intros _ slot v Hv Htest. apply Array_sort_nil in Hsort.
  assert (Hin : (slot, v) ∈ filter (λ iv : nat * PolyVoice, test iv.2) (indexed voices))
    by (apply elem_of_filter_indexed; auto).
  rewrite Hsort in Hin. inversion Hin.
Qed.

Lemma list_find_noneOf (test : PolyVoice → bool) (voices : list PolyVoice) :
  list_find (λ v, test v) voices = None → noneOf test voices.
Proof.
  intros Hfind slot v Hv Htest.
  apply list_find_None in Hfind. rewrite Forall_forall in Hfind.
  apply (Hfind v); [| exact Htest]. apply list_elem_of_lookup. eauto.
Qed.

Lemma free_or_sounding (v : PolyVoice) : isFree v ∨ sounding v.
Proof.
  unfold isFree, sounding.
  destruct (Voice.isActive v), (Voice.isReleasing v); simpl; auto.
Qed.

Lemma findVoiceForNoteOn_alloc (e : AudioEngine) (note : Z) :
  Engine.voices e ≠ [] →
  Allocation e note (findVoiceForNoteOn e note).
Proof.
  intros Hpool. unfold findVoiceForNoteOn.
  destruct (decide (length (Engine.voices e) = 0%nat)) as [Hlen | Hlen].
  { destruct (Engine.voices e); [congruence | discriminate]. }
  destruct (list_find (λ v, holdsNote note v) (Engine.voices e))
    as [[slot v] |] eqn:Hretrigger.
  { apply list_find_Some in Hretrigger as (Hslot & Hholds & _).
    eapply alloc_retrigger; eauto. }
  apply list_find_noneOf in Hretrigger.
  destruct (list_find (λ v, isFree v) (Engine.voices e)) as [[slot v] |] eqn:Hfree.
  { apply list_find_Some in Hfree as (Hslot & Hisfree & _).
    eapply alloc_free; eauto. }
  apply list_find_noneOf in Hfree.
  destruct (oldest onlyReleasing (Engine.voices e)) as [slot |] eqn:Hrel.
  { apply oldest_Some in Hrel. apply alloc_steal_releasing; auto. }
  apply oldest_None in Hrel.
  destruct (oldest onlyActive (Engine.voices e)) as [slot |] eqn:Hact.
  { apply oldest_Some in Hact. apply alloc_steal_active; auto. }
  apply oldest_None in Hact.
  destruct (decide (0 < length (Engine.voices e))%nat) as [_ | Hzero]; [| lia].
  destruct (oldest sounding (Engine.voices e)) as [slot |] eqn:Hany.
  { apply oldest_Some in Hany. apply alloc_fallback; auto. }
  apply oldest_None in Hany. exfalso.
  destruct (Engine.voices e) as [|v rest] eqn:Hvoices; [congruence |].
  destruct (free_or_sounding v) as [Hv | Hv].
  - exact (Hfree 0%nat v eq_refl Hv).
  - exact (Hany 0%nat v eq_refl Hv).
Qed.

(** ** Stopping a voice *)

Lemma stopVoice_missing (e : AudioEngine) slot hardStop :
  Engine.voices e !! slot = None → stopVoice e slot hardStop = e.
Proof. intros H. unfold stopVoice. rewrite H. reflexivity. Qed.

Lemma stopVoice_voices (e : AudioEngine) slot hardStop v :
  Engine.voices e !! slot = Some v →
  Engine.voices (stopVoice e slot hardStop)
  = <[slot := stopVoice_voice (clearTimeouts (Voice.scheduledStopTimeouts v) e)
                hardStop v]> (Engine.voices e).
Proof. intros H. unfold stopVoice. rewrite H. reflexivity. Qed.

Lemma stopVoice_timeouts (e : AudioEngine) slot hardStop v :
  Engine.voices e !! slot = Some v →
  Engine.timeouts (stopVoice e slot hardStop)
  = filter (λ t, Timer.id t ∉ Voice.scheduledStopTimeouts v) (Engine.timeouts e).
Proof. intros H. unfold stopVoice. rewrite H. reflexivity. Qed.

Lemma stopVoice_frame (e : AudioEngine) slot hardStop :
  Engine.audioContext (stopVoice e slot hardStop) = Engine.audioContext e
  ∧ Engine.currentParams (stopVoice e slot hardStop) = Engine.currentParams e
  ∧ Engine.pitchBendMultiplier (stopVoice e slot hardStop) = Engine.pitchBendMultiplier e
  ∧ Engine.nextTimeoutId (stopVoice e slot hardStop) = Engine.nextTimeoutId e
  ∧ length (Engine.voices (stopVoice e slot hardStop)) = length (Engine.voices e).
Proof.
  unfold stopVoice. destruct (Engine.voices e !! slot); simpl; repeat split.
  apply length_insert.
Qed.

Lemma stopVoice_lookup (e : AudioEngine) slot hardStop v :
  Engine.voices e !! slot = Some v →
  Engine.voices (stopVoice e slot hardStop) !! slot
  = Some (stopVoice_voice (clearTimeouts (Voice.scheduledStopTimeouts v) e) hardStop v).
Proof.
  intros H. rewrite (stopVoice_voices _ _ _ _ H).
  apply list_lookup_insert_eq. eapply lookup_lt_Some; eauto.
Qed.

Lemma stopVoice_lookup_ne (e : AudioEngine) slot hardStop j :
  j ≠ slot →
  Engine.voices (stopVoice e slot hardStop) !! j = Engine.voices e !! j.
Proof.
  intros Hne. destruct (Engine.voices e !! slot) as [v |] eqn:H.
  - rewrite (stopVoice_voices _ _ _ _ H). apply list_lookup_insert_ne. congruence.
  - rewrite stopVoice_missing; auto.
Qed.

Lemma stopVoice_voice_reset (e : AudioEngine) hardStop v :
  isReset (stopVoice_voice e hardStop v).
Proof. unfold isReset, stopVoice_voice. simpl. repeat split. Qed.

Lemma stopVoice_voice_silent (e : AudioEngine) hardStop v :
  sounding (stopVoice_voice e hardStop v) = false.
Proof. reflexivity. Qed.

Lemma stopVoice_voice_free (e : AudioEngine) hardStop v :
  isFree (stopVoice_voice e hardStop v).
Proof. reflexivity. Qed.

Lemma holdsNote_sounding note v : holdsNote note v → sounding v.
Proof. unfold holdsNote. intros H. apply andb_prop_elim in H. tauto. Qed.

Lemma isFree_not_sounding v : isFree v → ¬ sounding v.
Proof.
  unfold isFree, sounding.
  destruct (Voice.isActive v), (Voice.isReleasing v); simpl; tauto.
Qed.

Lemma stopVoice_sameEngineBut (e : AudioEngine) slot hardStop :
  sameEngineBut e (stopVoice e slot hardStop).
Proof.
  unfold sameEngineBut, stopVoice.
  destruct (Engine.voices e !! slot); simpl; repeat split.
Qed.

(** A hard stop, written out. *)
Lemma stopVoice_HardStopped (e : AudioEngine) slot v :
  Engine.voices e !! slot = Some v → HardStopped e slot (stopVoice e slot true).
Proof.
  intros Hslot. exists v. eexists.
  split; [exact Hslot |].
  split; [apply stopVoice_lookup; exact Hslot |].
  split; [apply stopVoice_voice_reset |].
  split; [reflexivity |].
  split; [simpl; destruct (Voice.note v); reflexivity |].
  split.
  { intros Hnote. simpl. destruct (Voice.note v); [split; reflexivity | congruence]. }
  split; [simpl; unfold call; rewrite <- app_assoc; reflexivity |].
  split.
  { simpl. unfold call. rewrite <- app_assoc. simpl. do 3 f_equal.
    unfold trackedCutoffOfVoice, truthy_note, trackedCutoff, clampCutoff.
    destruct (Voice.note v) as [n |]; [| reflexivity].
    destruct (n =? 0)%Z; simpl; [reflexivity |].
    destruct (Qlt_le_dec 0 _); reflexivity. }
  split; [reflexivity |]. split; [reflexivity |].
  split; [intros j Hj; apply stopVoice_lookup_ne; exact Hj |].
  split; [apply stopVoice_frame |].
  split; [apply stopVoice_timeouts; exact Hslot |].
  apply stopVoice_sameEngineBut.
Qed.

(** A soft stop, written out. *)
Lemma stopVoice_SoftStopped (e : AudioEngine) slot v :
  Engine.voices e !! slot = Some v → SoftStopped e slot (stopVoice e slot false).
Proof.
  intros Hslot. exists v. eexists.
  split; [exact Hslot |].
  split; [apply stopVoice_lookup; exact Hslot |].
  split; [apply stopVoice_voice_reset |].
  do 6 (split; [reflexivity |]).
  split; [intros j Hj; apply stopVoice_lookup_ne; exact Hj |].
  split; [apply stopVoice_frame |].
  split; [apply stopVoice_timeouts; exact Hslot |].
  apply stopVoice_sameEngineBut.
Qed.

Lemma list_find_first (test : PolyVoice → bool) (voices : list PolyVoice) slot v :
  list_find (λ v, test v) voices = Some (slot, v) →
  voices !! slot = Some v ∧ test v
  ∧ ∀ j w, voices !! j = Some w → test w → (slot ≤ j)%nat.
Proof.
  intros Hfind. apply list_find_Some in Hfind as (Hslot & Htest & Hfirst).
  split; [exact Hslot |]. split; [exact Htest |].
  intros j w Hj Hw. destruct (decide (slot ≤ j)%nat) as [Hle | Hlt]; [exact Hle |].
  exfalso. apply (Hfirst j w Hj); [lia | exact Hw].
Qed.

Lemma oldestOf_lookup (test : PolyVoice → bool) (voices : list PolyVoice) slot :
  oldestOf test voices slot → ∃ v, voices !! slot = Some v.
Proof. intros (v & Hv & _). eauto. Qed.

Lemma findVoiceForNoteOn_allocates (e : AudioEngine) (note : Z) :
  Engine.voices e ≠ [] →
  Allocates e note (findVoiceForNoteOn e note).
Proof.
  intros Hpool. unfold findVoiceForNoteOn.
  destruct (decide (length (Engine.voices e) = 0%nat)) as [Hlen | Hlen].
  { destruct (Engine.voices e); [congruence | discriminate]. }
  destruct (list_find (λ v, holdsNote note v) (Engine.voices e))
    as [[slot v] |] eqn:Hretrigger.
  { apply list_find_first in Hretrigger as (Hslot & Hholds & Hfirst).
    eapply allocates_retrigger; eauto using stopVoice_HardStopped. }
  apply list_find_noneOf in Hretrigger.
  destruct (list_find (λ v, isFree v) (Engine.voices e)) as [[slot v] |] eqn:Hfree.
  { apply list_find_first in Hfree as (Hslot & Hisfree & Hfirst).
    eapply allocates_free; eauto. }
  apply list_find_noneOf in Hfree.
  destruct (oldest onlyReleasing (Engine.voices e)) as [slot |] eqn:Hrel.
  { apply oldest_Some in Hrel. destruct (oldestOf_lookup _ _ _ Hrel) as [v Hv].
    apply allocates_steal_releasing; eauto using stopVoice_HardStopped. }
  apply oldest_None in Hrel.
  destruct (oldest onlyActive (Engine.voices e)) as [slot |] eqn:Hact.
  { apply oldest_Some in Hact. destruct (oldestOf_lookup _ _ _ Hact) as [v Hv].
    apply allocates_steal_active; eauto using stopVoice_HardStopped. }
  apply oldest_None in Hact.
  destruct (decide (0 < length (Engine.voices e))%nat) as [_ | Hzero]; [| lia].
  destruct (oldest sounding (Engine.voices e)) as [slot |] eqn:Hany.
  { apply oldest_Some in Hany. destruct (oldestOf_lookup _ _ _ Hany) as [v Hv].
    apply allocates_fallback; eauto using stopVoice_HardStopped. }
  apply oldest_None in Hany. exfalso.
  destruct (Engine.voices e) as [|v rest] eqn:Hvoices; [congruence |].
  destruct (free_or_sounding v) as [Hv | Hv].
  - exact (Hfree 0%nat v eq_refl Hv).
  - exact (Hany 0%nat v eq_refl Hv).
Qed.

(** C1: on a pool that is not empty, [findVoiceForNoteOn] follows the
    priority order and returns the first match: the first slot that holds
    the note is hard-stopped and reused; else the first free slot is used,
    the engine left as it is; else the oldest voice (least [startTime]) that
    is only releasing, else the oldest that is only active, else the oldest
    of all voices in use, is hard-stopped and reused.  Hard-stopped: the
    voice is left neither active nor releasing, without oscillators, noise
    source or timer handles, its amplitude held at 0 and its filter at the
    base cutoff from [now], its timers no longer pending, and nothing else
    of the engine changed. *)
Theorem findVoiceForNoteOn_priority (e : AudioEngine) (note : Z) :
  Engine.voices e ≠ [] →
  Allocates e note (findVoiceForNoteOn e note).
Proof.
  intros Hpool. pose proof (findVoiceForNoteOn_allocates e note Hpool) as Hallocates.
  destruct (findVoiceForNoteOn e note) as [e' slot]. exact Hallocates.
Qed.

(** ** The invariant of reachable engines *)

Lemma Invariant_frame (e e' : AudioEngine) :
  Engine.voices e' = Engine.voices e →
  Engine.timeouts e' = Engine.timeouts e →
  Engine.nextTimeoutId e' = Engine.nextTimeoutId e →
  Invariant e → Invariant e'.
Proof.
  intros Hv Ht Hn [H1 H2 H3 H4].
  split; unfold handlesFresh; rewrite ?Hv, ?Ht, ?Hn; assumption.
Qed.

Lemma stopVoice_Invariant (e : AudioEngine) slot hardStop :
  Invariant e → Invariant (stopVoice e slot hardStop).
Proof.
  intros Hinv. destruct (Engine.voices e !! slot) as [v |] eqn:Hslot;
    [| rewrite stopVoice_missing; auto].
  destruct Hinv as [H1 H2 H3 H4]. split.
  - intros j w Hj Hfree. destruct (decide (j = slot)) as [-> | Hne].
    + rewrite (stopVoice_lookup _ _ _ _ Hslot) in Hj. injection Hj as <-.
      apply stopVoice_voice_reset.
    + rewrite stopVoice_lookup_ne in Hj by exact Hne. eauto.
  - intros t Ht. rewrite (stopVoice_timeouts _ _ _ _ Hslot) in Ht.
    apply list_elem_of_filter in Ht as [Hid Ht].
    destruct (H2 t Ht) as (w & Hw & Hin).
    destruct (decide (Timer.voice t = slot)) as [Heq | Hne].
    + rewrite Heq, Hslot in Hw. injection Hw as <-. contradiction.
    + exists w. rewrite stopVoice_lookup_ne by exact Hne. auto.
  - intros note i j vi vj Hi Hj Hvi Hvj.
    assert (Hold : ∀ k w, Engine.voices (stopVoice e slot hardStop) !! k = Some w →
                          holdsNote note w → Engine.voices e !! k = Some w).
    { intros k w Hk Hw. destruct (decide (k = slot)) as [-> | Hne].
      - rewrite (stopVoice_lookup _ _ _ _ Hslot) in Hk. injection Hk as <-.
        apply holdsNote_sounding in Hw. rewrite stopVoice_voice_silent in Hw.
        destruct Hw.
      - rewrite stopVoice_lookup_ne in Hk by exact Hne. exact Hk. }
    eapply H3; eauto.
  - intros t Ht. rewrite (stopVoice_timeouts _ _ _ _ Hslot) in Ht.
    apply list_elem_of_filter in Ht as [_ Ht].
    destruct (stopVoice_frame e slot hardStop) as (_ & _ & _ & -> & _). auto.
Qed.

Lemma resumeIfSuspended_frame (e : AudioEngine) :
  Engine.voices (resumeIfSuspended e) = Engine.voices e
  ∧ Engine.timeouts (resumeIfSuspended e) = Engine.timeouts e
  ∧ Engine.nextTimeoutId (resumeIfSuspended e) = Engine.nextTimeoutId e
  ∧ Engine.currentParams (resumeIfSuspended e) = Engine.currentParams e
  ∧ Engine.pitchBendMultiplier (resumeIfSuspended e) = Engine.pitchBendMultiplier e
  ∧ Engine.now (resumeIfSuspended e) = Engine.now e
  ∧ Engine.nyquist (resumeIfSuspended e) = Engine.nyquist e.
Proof.
  unfold resumeIfSuspended.
  destruct (Ctx.state (Engine.audioContext e)); repeat split.
Qed.

(** What allocation guarantees to [noteOn]: the slot returned is in the pool,
    its voice is free, and no voice holds the note any more. *)
Lemma findVoiceForNoteOn_post (e e1 : AudioEngine) (note : Z) (r : option nat) :
  Invariant e →
  findVoiceForNoteOn e note = (e1, r) →
  Invariant e1
  ∧ Engine.audioContext e1 = Engine.audioContext e
  ∧ Engine.currentParams e1 = Engine.currentParams e
  ∧ Engine.pitchBendMultiplier e1 = Engine.pitchBendMultiplier e
  ∧ match r with
    | Some slot =>
        ∃ v, Engine.voices e1 !! slot = Some v ∧ isFree v
             ∧ noneOf (holdsNote note) (Engine.voices e1)
    | None => e1 = e
    end.
Proof.
  intros Hinv Hfind.
  destruct (decide (Engine.voices e = [])) as [Hempty | Hpool].
  { unfold findVoiceForNoteOn in Hfind. rewrite Hempty in Hfind. simpl in Hfind.
    injection Hfind as <- <-. auto. }
  pose proof (findVoiceForNoteOn_alloc e note Hpool) as Halloc.
  rewrite Hfind in Halloc.
  assert (Hstop : ∀ slot v,
    Engine.voices e !! slot = Some v →
    (∀ j w, j ≠ slot → Engine.voices e !! j = Some w → ¬ holdsNote note w) →
    Invariant (stopVoice e slot true)
    ∧ Engine.audioContext (stopVoice e slot true) = Engine.audioContext e
    ∧ Engine.currentParams (stopVoice e slot true) = Engine.currentParams e
    ∧ Engine.pitchBendMultiplier (stopVoice e slot true) = Engine.pitchBendMultiplier e
    ∧ ∃ v', Engine.voices (stopVoice e slot true) !! slot = Some v' ∧ isFree v'
            ∧ noneOf (holdsNote note) (Engine.voices (stopVoice e slot true))).
  { intros slot v Hslot Hothers.
    destruct (stopVoice_frame e slot true) as (Hc & Hp & Hb & _).
    split; [apply stopVoice_Invariant; exact Hinv |].
    repeat (split; [assumption |]).
    eexists. split; [apply stopVoice_lookup; exact Hslot |].
    split; [apply stopVoice_voice_free |].
    intros j w Hj Hw. destruct (decide (j = slot)) as [-> | Hne].
    - rewrite (stopVoice_lookup _ _ _ _ Hslot) in Hj. injection Hj as <-.
      apply holdsNote_sounding in Hw. rewrite stopVoice_voice_silent in Hw.
      destruct Hw.
    - rewrite stopVoice_lookup_ne in Hj by exact Hne. exact (Hothers j w Hne Hj Hw). }
  inversion Halloc as
    [slot v Hslot Hholds | slot v Hnone Hslot Hfree
    | slot Hnone _ (v & Hslot & _) | slot Hnone _ _ (v & Hslot & _)
    | slot Hnone _ _ _ (v & Hslot & _)]; subst.
  - apply (Hstop slot v Hslot). intros j w Hne Hj Hw.
    apply Hne. exact (inv_one_per_note e Hinv note j slot w v Hj Hslot Hw Hholds).
  - repeat (split; [first [assumption | reflexivity] |]). exists v. auto.
  - apply (Hstop slot v Hslot). intros j w _ Hj. exact (Hnone j w Hj).
  - apply (Hstop slot v Hslot). intros j w _ Hj. exact (Hnone j w Hj).
  - apply (Hstop slot v Hslot). intros j w _ Hj. exact (Hnone j w Hj).
Qed.

Lemma noteOn_voice_holds (e : AudioEngine) note velocity v n :
  holdsNote n (noteOn_voice e note velocity v) ↔ n = note.
Proof.
  unfold holdsNote, note_is, sounding, noteOn_voice. simpl.
  rewrite andb_true_r, Is_true_true, Z.eqb_eq. split; congruence.
Qed.

(** The writes of [noteOn] on the voice that allocation returned. *)
Lemma noteOn_assign_Invariant (e1 : AudioEngine) slot v note velocity :
  Invariant e1 →
  Engine.voices e1 !! slot = Some v → isFree v →
  noneOf (holdsNote note) (Engine.voices e1) →
  let e' := clearTimeouts (Voice.scheduledStopTimeouts v) e1 in
  Invariant
    (Engine.set_voices
       (<[slot := noteOn_voice e' note velocity v]> (Engine.voices e')) e').
Proof.
  intros Hinv Hslot Hfree Hnone e'.
  pose proof (inv_free_reset e1 Hinv slot v Hslot Hfree) as (_ & _ & _ & _ & _ & Hlist).
  assert (Hlt : (slot < length (Engine.voices e1))%nat)
    by (eapply lookup_lt_Some; eauto).
  destruct Hinv as [H1 H2 H3 H4]. split; simpl.
  - intros j w Hj Hw. destruct (decide (j = slot)) as [-> | Hne].
    + rewrite list_lookup_insert_eq in Hj by exact Hlt. injection Hj as <-.
      destruct Hw.
    + rewrite list_lookup_insert_ne in Hj by congruence. eauto.
  - intros t Ht. apply list_elem_of_filter in Ht as [_ Ht].
    destruct (H2 t Ht) as (w & Hw & Hin).
    destruct (decide (Timer.voice t = slot)) as [Heq | Hne].
    + rewrite Heq, Hslot in Hw. injection Hw as <-. rewrite Hlist in Hin.
      inversion Hin.
    + exists w. rewrite list_lookup_insert_ne by congruence. auto.
  - intros n i j vi vj Hi Hj Hvi Hvj.
    destruct (decide (i = slot)) as [-> | Hi'], (decide (j = slot)) as [-> | Hj'];
      [reflexivity | | |].
    + rewrite list_lookup_insert_eq in Hi by exact Hlt. injection Hi as <-.
      apply noteOn_voice_holds in Hvi. subst n.
      rewrite list_lookup_insert_ne in Hj by congruence.
      destruct (Hnone j vj Hj Hvj).
    + rewrite list_lookup_insert_eq in Hj by exact Hlt. injection Hj as <-.
      apply noteOn_voice_holds in Hvj. subst n.
      rewrite list_lookup_insert_ne in Hi by congruence.
      destruct (Hnone i vi Hi Hvi).
    + rewrite list_lookup_insert_ne in Hi by congruence.
      rewrite list_lookup_insert_ne in Hj by congruence. eauto.
  - intros t Ht. simpl in Ht. apply list_elem_of_filter in Ht as [_ Ht]. auto.
Qed.

Lemma noteOn_Invariant (e : AudioEngine) note velocity :
  Invariant e → Invariant (noteOn e note velocity).
Proof.
  intros Hinv. unfold noteOn.
  destruct (resumeIfSuspended_frame e) as (Hv & Ht & Hn & _).
  assert (Hinv0 : Invariant (resumeIfSuspended e))
    by (eapply Invariant_frame; eauto).
  destruct (findVoiceForNoteOn (resumeIfSuspended e) note) as [e1 [slot |]] eqn:Hfind.
  - destruct (findVoiceForNoteOn_post _ _ _ _ Hinv0 Hfind)
      as (Hinv1 & _ & _ & _ & v & Hslot & Hfree & Hnone).
    rewrite Hslot. apply noteOn_assign_Invariant; assumption.
  - destruct (findVoiceForNoteOn_post _ _ _ _ Hinv0 Hfind) as (Hinv1 & _). exact Hinv1.
Qed.

Lemma noteOff_voice_missing note (e : AudioEngine) slot :
  Engine.voices e !! slot = None → noteOff_voice note e slot = e.
Proof. intros H. unfold noteOff_voice. rewrite H. reflexivity. Qed.

(** One iteration of [noteOff] on a voice in use: either the guard skips it,
    or the voice keeps its note and is releasing, with one more timer. *)
Lemma noteOff_voice_cases note (e : AudioEngine) slot v :
  Engine.voices e !! slot = Some v →
  noteOff_voice note e slot = e
  ∨ ∃ v', Engine.voices (noteOff_voice note e slot) = <[slot := v']> (Engine.voices e)
      ∧ Voice.note v' = Voice.note v
      ∧ Voice.isActive v' = false ∧ Voice.isReleasing v' = true
      ∧ Voice.scheduledStopTimeouts v'
        = Voice.scheduledStopTimeouts v ++ [Engine.nextTimeoutId e]
      ∧ Engine.timeouts (noteOff_voice note e slot)
        = Engine.timeouts e
          ++ [{| Timer.id := Engine.nextTimeoutId e; Timer.voice := slot;
                 Timer.note := note;
                 Timer.delay :=
                   (Qmax (EnvP.release (Params.ampEnvelope (Engine.currentParams e)))
                         (EnvP.release (Params.filterEnvelope (Engine.currentParams e)))
                    + 0.1) * 1000 |}]
      ∧ Engine.nextTimeoutId (noteOff_voice note e slot) = S (Engine.nextTimeoutId e).
Proof.
  intros Hslot. unfold noteOff_voice. rewrite Hslot.
  destruct (negb (Voice.isActive v) && Voice.isReleasing v
            && negb (note_is note (Voice.note v))); [left; reflexivity | right].
  eexists. simpl. repeat split.
Qed.

Lemma noteOff_voice_Invariant note (e : AudioEngine) slot v :
  Invariant e →
  Engine.voices e !! slot = Some v → sounding v →
  Invariant (noteOff_voice note e slot).
Proof.
  intros Hinv Hslot Hsound.
  destruct (noteOff_voice_cases note e slot v Hslot)
    as [-> | (v' & Hvoices & Hnote & Hact & Hrel & Hlist & Htimers & Hnext)];
    [exact Hinv |].
  assert (Hlt : (slot < length (Engine.voices e))%nat)
    by (eapply lookup_lt_Some; eauto).
  assert (Hholds : ∀ n, holdsNote n v' → holdsNote n v).
  { intros n. unfold holdsNote, sounding. rewrite Hnote, Hact, Hrel.
    apply Is_true_true in Hsound. unfold sounding in Hsound. rewrite Hsound. auto. }
  destruct Hinv as [H1 H2 H3 H4]. split.
  - rewrite Hvoices. intros j w Hj Hw. destruct (decide (j = slot)) as [-> | Hne].
    + rewrite list_lookup_insert_eq in Hj by exact Hlt. injection Hj as <-.
      unfold isFree in Hw. rewrite Hrel, andb_false_r in Hw. destruct Hw.
    + rewrite list_lookup_insert_ne in Hj by congruence. eauto.
  - rewrite Hvoices, Htimers. intros t Ht.
    apply elem_of_app in Ht as [Ht | Ht].
    + destruct (H2 t Ht) as (w & Hw & Hin).
      destruct (decide (Timer.voice t = slot)) as [Heq | Hne].
      * rewrite Heq, Hslot in Hw. injection Hw as <-. exists v'.
        rewrite Heq, list_lookup_insert_eq by exact Hlt. split; [reflexivity |].
        rewrite Hlist. apply elem_of_app. auto.
      * exists w. rewrite list_lookup_insert_ne by congruence. auto.
    + apply list_elem_of_singleton in Ht. subst t. simpl. exists v'.
      rewrite list_lookup_insert_eq by exact Hlt. split; [reflexivity |].
      rewrite Hlist. apply elem_of_app. right. left.
  - rewrite Hvoices. intros n i j vi vj Hi Hj Hvi Hvj.
    assert (Hold : ∀ k w, <[slot := v']> (Engine.voices e) !! k = Some w →
              holdsNote n w → ∃ w0, Engine.voices e !! k = Some w0 ∧ holdsNote n w0).
    { intros k w Hk Hw. destruct (decide (k = slot)) as [-> | Hne].
      - rewrite list_lookup_insert_eq in Hk by exact Hlt. injection Hk as <-.
        exists v. auto.
      - rewrite list_lookup_insert_ne in Hk by congruence. eauto. }
    destruct (Hold i vi Hi Hvi) as (wi & Hwi & Hwi').
    destruct (Hold j vj Hj Hvj) as (wj & Hwj & Hwj'). eauto.
  - unfold handlesFresh. rewrite Htimers, Hnext. intros t Ht.
    apply elem_of_app in Ht as [Ht | Ht].
    + specialize (H4 t Ht). lia.
    + apply list_elem_of_singleton in Ht. subst t. simpl. lia.
Qed.

Lemma noteOff_voice_sounding note (e : AudioEngine) slot j w :
  Engine.voices e !! j = Some w → sounding w →
  ∃ w', Engine.voices (noteOff_voice note e slot) !! j = Some w' ∧ sounding w'.
Proof.
  intros Hj Hw. destruct (Engine.voices e !! slot) as [v |] eqn:Hslot;
    [| rewrite noteOff_voice_missing; eauto].
  destruct (noteOff_voice_cases note e slot v Hslot)
    as [-> | (v' & Hvoices & _ & _ & Hrel & _)]; [eauto |].
  rewrite Hvoices. destruct (decide (j = slot)) as [-> | Hne].
  - exists v'. rewrite list_lookup_insert_eq by (eapply lookup_lt_Some; eauto).
    split; [reflexivity |]. unfold sounding. rewrite Hrel, orb_true_r. exact I.
  - exists w. rewrite list_lookup_insert_ne by congruence. auto.
Qed.

Lemma noteOff_fold_Invariant note (slots : list nat) (e : AudioEngine) :
  Invariant e →
  (∀ slot, slot ∈ slots → ∃ v, Engine.voices e !! slot = Some v ∧ sounding v) →
  Invariant (foldl (noteOff_voice note) e slots).
Proof.
  revert e. induction slots as [|slot slots IH]; intros e Hinv Hall; [exact Hinv |].
  simpl. destruct (Hall slot) as (v & Hslot & Hsound); [left |].
  apply IH.
  - eapply noteOff_voice_Invariant; eauto.
  - intros j Hj. destruct (Hall j) as (w & Hw & Hws); [right; exact Hj |].
    eapply noteOff_voice_sounding; eauto.
Qed.

Lemma noteOff_Invariant (e : AudioEngine) note :
  Invariant e → Invariant (noteOff e note).
Proof.
  intros Hinv. unfold noteOff. apply noteOff_fold_Invariant; [exact Hinv |].
  intros slot Hslot. apply list_elem_of_fmap in Hslot as ([i v] & -> & Hin).
  apply elem_of_filter_indexed in Hin as [Hi Hholds]. simpl.
  exists v. split; [exact Hi | exact (holdsNote_sounding _ _ Hholds)].
Qed.

Lemma withoutTimeout_Invariant (e : AudioEngine) handle :
  Invariant e → Invariant (withoutTimeout handle e).
Proof.
  intros [H1 H2 H3 H4]. split; simpl; try assumption.
  - intros t Ht. apply list_elem_of_filter in Ht as [_ Ht]. auto.
  - intros t Ht. simpl in Ht. apply list_elem_of_filter in Ht as [_ Ht].
    exact (H4 t Ht).
Qed.

(** The cleanup callback: the timer leaves the pending ones, and the voice is
    soft-stopped when it is still releasing the note of the timer. *)
Lemma fireTimeout_cases (e : AudioEngine) handle :
  match list_find (λ t, Timer.id t = handle) (Engine.timeouts e) with
  | None => fireTimeout e handle = e
  | Some (_, timer) =>
      match Engine.voices e !! Timer.voice timer with
      | Some voice =>
          if Voice.isReleasing voice && note_is (Timer.note timer) (Voice.note voice)
          then fireTimeout e handle
               = stopVoice (withoutTimeout handle e) (Timer.voice timer) false
          else fireTimeout e handle = withoutTimeout handle e
      | None => fireTimeout e handle = withoutTimeout handle e
      end
  end.
Proof.
  unfold fireTimeout.
  destruct (list_find _ (Engine.timeouts e)) as [[i timer] |]; [| reflexivity].
  simpl. destruct (Engine.voices e !! Timer.voice timer) as [voice |]; [| reflexivity].
  destruct (Voice.isReleasing voice && note_is (Timer.note timer) (Voice.note voice));
    reflexivity.
Qed.

Lemma fireTimeout_Invariant (e : AudioEngine) handle :
  Invariant e → Invariant (fireTimeout e handle).
Proof.
  intros Hinv. pose proof (fireTimeout_cases e handle) as Hcases.
  destruct (list_find _ (Engine.timeouts e)) as [[i timer] |];
    [| rewrite Hcases; exact Hinv].
  destruct (Engine.voices e !! Timer.voice timer) as [voice |].
  - destruct (Voice.isReleasing voice && note_is (Timer.note timer) (Voice.note voice));
      rewrite Hcases.
    + apply stopVoice_Invariant, withoutTimeout_Invariant, Hinv.
    + apply withoutTimeout_Invariant, Hinv.
  - rewrite Hcases. apply withoutTimeout_Invariant, Hinv.
Qed.

(** A change of the voices that keeps, voice by voice, the note, the two
    flags, the timer handles and the absence of components. *)
Lemma Invariant_map (f : PolyVoice → PolyVoice) (e e' : AudioEngine) :
  (∀ v, Voice.note (f v) = Voice.note v
        ∧ Voice.isActive (f v) = Voice.isActive v
        ∧ Voice.isReleasing (f v) = Voice.isReleasing v
        ∧ Voice.scheduledStopTimeouts (f v) = Voice.scheduledStopTimeouts v
        ∧ (Voice.oscillators v = [] → Voice.oscillators (f v) = [])
        ∧ (Voice.noiseNode v = None → Voice.noiseNode (f v) = None)
        ∧ (Voice.noiseGainNode v = None → Voice.noiseGainNode (f v) = None)) →
  Engine.voices e' = f <$> Engine.voices e →
  Engine.timeouts e' = Engine.timeouts e →
  Engine.nextTimeoutId e' = Engine.nextTimeoutId e →
  Invariant e → Invariant e'.
Proof.
  intros Hf Hv Ht Hn [H1 H2 H3 H4].
  assert (Hlook : ∀ j w, Engine.voices e' !! j = Some w →
            ∃ w0, Engine.voices e !! j = Some w0 ∧ w = f w0).
  { intros j w. rewrite Hv, list_lookup_fmap.
    destruct (Engine.voices e !! j) as [w0 |]; simpl; [| discriminate].
    intros [= <-]. eauto. }
  assert (Hholds : ∀ n w, holdsNote n (f w) = holdsNote n w).
  { intros n w. destruct (Hf w) as (Hnote & Hact & Hrel & _).
    unfold holdsNote, sounding. rewrite Hnote, Hact, Hrel. reflexivity. }
  split.
  - intros j w Hj Hw. destruct (Hlook j w Hj) as (w0 & Hw0 & ->).
    destruct (Hf w0) as (Hnote & Hact & Hrel & Hlist & Hosc & Hnoise & Hgain).
    assert (Hfree0 : isFree w0) by (unfold isFree in *; rewrite <- Hact, <- Hrel; exact Hw).
    destruct (H1 j w0 Hw0 Hfree0) as (A & B & C & D & E & F).
    unfold isReset. rewrite Hact, Hrel, Hlist. auto 10.
  - rewrite Ht. intros t Hin. destruct (H2 t Hin) as (w0 & Hw0 & Hid).
    exists (f w0). rewrite Hv, list_lookup_fmap, Hw0. split; [reflexivity |].
    destruct (Hf w0) as (_ & _ & _ & -> & _). exact Hid.
  - intros n i j vi vj Hi Hj Hvi Hvj.
    destruct (Hlook i vi Hi) as (wi & Hwi & ->).
    destruct (Hlook j vj Hj) as (wj & Hwj & ->).
    rewrite Hholds in Hvi, Hvj. eauto.
  - unfold handlesFresh. rewrite Ht, Hn. exact H4.
Qed.

Lemma setupLFO_frame (e : AudioEngine) lfoParams :
  Engine.voices (setupLFO e lfoParams) = Engine.voices e
  ∧ Engine.timeouts (setupLFO e lfoParams) = Engine.timeouts e
  ∧ Engine.nextTimeoutId (setupLFO e lfoParams) = Engine.nextTimeoutId e.
Proof. unfold setupLFO. destruct (negb (LfoP.enabled lfoParams)); auto. Qed.

Lemma applyParamsToEngineGlobally_frame (e : AudioEngine) params :
  Engine.voices (applyParamsToEngineGlobally e params) = Engine.voices e
  ∧ Engine.timeouts (applyParamsToEngineGlobally e params) = Engine.timeouts e
  ∧ Engine.nextTimeoutId (applyParamsToEngineGlobally e params)
    = Engine.nextTimeoutId e.
Proof.
  unfold applyParamsToEngineGlobally.
  set (e1 := Engine.set_masterGain _ e).
  destruct (LfoP.enabled (Params.lfo params)).
  - destruct (lfoOutdated _ _); simpl; [| auto].
    destruct (setupLFO_frame e1 (Params.lfo params)) as (-> & -> & ->). auto.
  - destruct (Engine.lfoOscNode e1); auto.
Qed.

Lemma setPitchBend_Invariant (e : AudioEngine) bendValue :
  Invariant e → Invariant (setPitchBend e bendValue).
Proof.
  apply (Invariant_map (bendVoice e (Math_pow 2 (bendValue * 2 / 12))));
    try reflexivity.
  intros v. unfold bendVoice.
  destruct (Voice.note v) eqn:Hnote; [| rewrite Hnote; auto 10].
  destruct (sounding v); [| rewrite Hnote; auto 10].
  simpl. repeat split; auto. intros ->. reflexivity.
Qed.

Lemma updateParams_Invariant (e : AudioEngine) newParams :
  Invariant e → Invariant (updateParams e newParams).
Proof.
  intros Hinv. unfold updateParams.
  set (e1 := applyParamsToEngineGlobally _ _).
  assert (Hinv1 : Invariant e1).
  { destruct (applyParamsToEngineGlobally_frame
                (Engine.set_currentParams newParams e)
                (Engine.currentParams (Engine.set_currentParams newParams e)))
      as (Hv & Ht & Hn).
    eapply Invariant_frame; [exact Hv | exact Ht | exact Hn |].
    eapply Invariant_frame; [| | | exact Hinv]; reflexivity. }
  set (e2 := if _ || _ then _ else e1).
  assert (Hinv2 : Invariant e2).
  { subst e2. match goal with |- Invariant (if ?c then _ else _) => destruct c end;
      [| exact Hinv1].
    eapply (Invariant_map (retuneFilter e1 (Params.filter newParams)));
      [| reflexivity | reflexivity | reflexivity | exact Hinv1].
    intros v. unfold retuneFilter. destruct (onlyActive v); simpl; auto 10. }
  destruct (lfoConfigChanged _ _); [| exact Hinv2].
  destruct (LfoP.enabled (Params.lfo newParams)).
  - destruct (setupLFO_frame e2 (Params.lfo newParams)) as (Hv & Ht & Hn).
    eapply Invariant_frame; eauto.
  - eapply Invariant_frame; [| | | exact Hinv2]; reflexivity.
Qed.

Lemma stopAll_Invariant (slots : list nat) (e : AudioEngine) :
  Invariant e → Invariant (foldl (λ e slot, stopVoice e slot true) e slots).
Proof.
  revert e. induction slots as [|slot slots IH]; intros e Hinv; [exact Hinv |].
  simpl. apply IH, stopVoice_Invariant, Hinv.
Qed.

Lemma dispose_Invariant (e : AudioEngine) :
  Invariant e → Invariant (dispose e).
Proof.
  intros Hinv. unfold dispose.
  eapply Invariant_frame; [| | | apply stopAll_Invariant; exact Hinv]; reflexivity.
Qed.

Lemma construct_Invariant polyphony audioContext nextTimeoutId initialParams :
  Invariant (construct polyphony audioContext nextTimeoutId initialParams).
Proof.
  unfold construct.
  match goal with |- Invariant (applyParamsToEngineGlobally ?e0 ?p) =>
    destruct (applyParamsToEngineGlobally_frame e0 p) as (Hv & Ht & Hn);
    apply (Invariant_frame e0 _ Hv Ht Hn)
  end.
  split; simpl.
  - intros slot v Hv' _. rewrite list_lookup_fmap in Hv'.
    destruct (seq 0 polyphony !! slot); [| discriminate].
    injection Hv' as <-. unfold isReset. simpl. auto 10.
  - intros t Ht'. inversion Ht'.
  - intros note i j vi vj Hi _ Hvi _. rewrite list_lookup_fmap in Hi.
    destruct (seq 0 polyphony !! i); [| discriminate].
    injection Hi as <-. destruct Hvi.
  - intros t Ht'. inversion Ht'.
Qed.

Lemma step_Invariant (e : AudioEngine) (ev : Event) :
  Invariant e → Invariant (step e ev).
Proof.
  intros Hinv. destruct ev; simpl.
  - apply noteOn_Invariant, Hinv.
  - apply noteOff_Invariant, Hinv.
  - apply setPitchBend_Invariant, Hinv.
  - apply updateParams_Invariant, Hinv.
  - apply dispose_Invariant, Hinv.
  - apply fireTimeout_Invariant, Hinv.
  - eapply Invariant_frame; [| | | exact Hinv]; reflexivity.
  - eapply Invariant_frame; [| | | exact Hinv]; reflexivity.
Qed.

Lemma run_Invariant (events : list Event) (e : AudioEngine) :
  Invariant e → Invariant (run e events).
Proof.
  revert e. induction events as [|ev events IH]; intros e Hinv; [exact Hinv |].
  simpl. apply IH, step_Invariant, Hinv.
Qed.

(** ** One voice per sounding note *)

Lemma filter_at_most_one {A : Type} (test : A → bool) (l : list A) :
  (∀ i j x y, l !! i = Some x → l !! j = Some y → test x → test y → i = j) →
  (length (filter (λ x, test x) l) ≤ 1)%nat.
Proof.
  induction l as [|a l IH]; intros Huniq; [simpl; lia |].
  rewrite filter_cons. destruct (decide (test a)) as [Ha | Ha].
  - assert (Hnone : filter (λ x, test x) l = []).
    { destruct (filter (λ x, test x) l) as [|b rest] eqn:Hf; [reflexivity | exfalso].
      assert (Hb : b ∈ filter (λ x, test x) l) by (rewrite Hf; left).
      apply list_elem_of_filter in Hb as [Hb Hin].
      apply list_elem_of_lookup in Hin as [j Hj].
      specialize (Huniq 0%nat (S j) a b eq_refl Hj Ha Hb). discriminate. }
    rewrite Hnone. simpl. lia.
  - apply IH. intros i j x y Hi Hj Hx Hy.
    specialize (Huniq (S i) (S j) x y Hi Hj Hx Hy). lia.
Qed.

Lemma filter_at_least_one {A : Type} (test : A → bool) (l : list A) i x :
  l !! i = Some x → test x → (1 ≤ length (filter (λ x, test x) l))%nat.
Proof.
  intros Hi Hx.
  assert (Hin : x ∈ filter (λ x, test x) l).
  { apply list_elem_of_filter. split; [exact Hx |]. apply list_elem_of_lookup. eauto. }
  destruct (filter (λ x, test x) l); [inversion Hin | simpl; lia].
Qed.

Lemma Invariant_soundingCount (e : AudioEngine) note :
  Invariant e → (soundingCount note (Engine.voices e) ≤ 1)%nat.
Proof.
  intros Hinv. apply filter_at_most_one. intros i j x y. apply inv_one_per_note, Hinv.
Qed.

(** When a voice holds the note, allocation hard-stops and returns its slot. *)
Lemma findVoiceForNoteOn_retrigger (e : AudioEngine) note slot v :
  Invariant e →
  Engine.voices e !! slot = Some v → holdsNote note v →
  findVoiceForNoteOn e note = (stopVoice e slot true, Some slot).
Proof.
  intros Hinv Hslot Hholds. unfold findVoiceForNoteOn.
  destruct (decide (length (Engine.voices e) = 0%nat)) as [Hlen | _].
  { apply lookup_lt_Some in Hslot. lia. }
  destruct (list_find (λ v, holdsNote note v) (Engine.voices e))
    as [[i w] |] eqn:Hfind.
  - apply list_find_Some in Hfind as (Hi & Hw & _).
    rewrite (inv_one_per_note e Hinv note i slot w v Hi Hslot Hw Hholds).
    reflexivity.
  - apply list_find_noneOf in Hfind. destruct (Hfind slot v Hslot Hholds).
Qed.

(** The slot allocation returns on a pool that is not empty. *)
Lemma findVoiceForNoteOn_slot (e : AudioEngine) note :
  Engine.voices e ≠ [] →
  ∃ e1 slot v,
    findVoiceForNoteOn e note = (e1, Some slot)
    ∧ Engine.voices e1 !! slot = Some v
    ∧ Engine.audioContext e1 = Engine.audioContext e
    ∧ Engine.currentParams e1 = Engine.currentParams e
    ∧ Engine.pitchBendMultiplier e1 = Engine.pitchBendMultiplier e.
Proof.
  intros Hpool. pose proof (findVoiceForNoteOn_alloc e note Hpool) as Halloc.
  assert (Hstop : ∀ slot v, Engine.voices e !! slot = Some v →
    ∃ e1 slot' v',
      (stopVoice e slot true, Some slot) = (e1, Some slot')
      ∧ Engine.voices e1 !! slot' = Some v'
      ∧ Engine.audioContext e1 = Engine.audioContext e
      ∧ Engine.currentParams e1 = Engine.currentParams e
      ∧ Engine.pitchBendMultiplier e1 = Engine.pitchBendMultiplier e).
  { intros slot v Hslot. destruct (stopVoice_frame e slot true) as (Hc & Hp & Hb & _).
    eexists _, _, _. split; [reflexivity |].
    split; [apply stopVoice_lookup; exact Hslot | auto]. }
  inversion Halloc as
    [slot v Hslot _ | slot v _ Hslot _
    | slot _ _ (v & Hslot & _) | slot _ _ _ (v & Hslot & _)
    | slot _ _ _ _ (v & Hslot & _)]; try exact (Hstop slot v Hslot).
  exists e, slot, v. auto.
Qed.

(** [noteOn] once allocation returned the voice of [slot]. *)
Lemma noteOn_allocated (e e1 : AudioEngine) note velocity slot v :
  findVoiceForNoteOn (resumeIfSuspended e) note = (e1, Some slot) →
  Engine.voices e1 !! slot = Some v →
  let e' := clearTimeouts (Voice.scheduledStopTimeouts v) e1 in
  noteOn e note velocity
  = Engine.set_voices
      (<[slot := noteOn_voice e' note velocity v]> (Engine.voices e')) e'.
Proof. intros Hfind Hslot. unfold noteOn. rewrite Hfind, Hslot. reflexivity. Qed.

Lemma noteOn_retrigger (e : AudioEngine) note velocity slot v :
  Invariant e →
  Engine.voices e !! slot = Some v → holdsNote note v →
  (findVoiceForNoteOn (resumeIfSuspended e) note).2 = Some slot
  ∧ (∃ v', Engine.voices (noteOn e note velocity) !! slot = Some v'
           ∧ holdsNote note v' ∧ Voice.isActive v' = true)
  ∧ soundingCount note (Engine.voices (noteOn e note velocity)) = 1%nat.
Proof.
  intros Hinv Hslot Hholds.
  destruct (resumeIfSuspended_frame e) as (Hv & Ht & Hn & _).
  assert (Hinv0 : Invariant (resumeIfSuspended e))
    by (eapply Invariant_frame; eauto).
  assert (Hslot0 : Engine.voices (resumeIfSuspended e) !! slot = Some v)
    by (rewrite Hv; exact Hslot).
  pose proof (findVoiceForNoteOn_retrigger _ note slot v Hinv0 Hslot0 Hholds) as Hfind.
  assert (Hlook : ∃ v', Engine.voices (noteOn e note velocity) !! slot = Some v'
                        ∧ holdsNote note v' ∧ Voice.isActive v' = true).
  { erewrite noteOn_allocated;
      [| exact Hfind | apply stopVoice_lookup; exact Hslot0].
    eexists. split.
    - simpl. apply list_lookup_insert_eq.
      destruct (stopVoice_frame (resumeIfSuspended e) slot true) as (_ & _ & _ & _ & ->).
      eapply lookup_lt_Some; eauto.
    - split; [apply noteOn_voice_holds; reflexivity | reflexivity]. }
  split; [rewrite Hfind; reflexivity |]. split; [exact Hlook |].
  destruct Hlook as (v' & Hv' & Hholds' & _).
  pose proof (Invariant_soundingCount _ note (noteOn_Invariant e note velocity Hinv)).
  pose proof (filter_at_least_one (holdsNote note) _ _ _ Hv' Hholds').
  unfold soundingCount in *. lia.
Qed.

(** C3: in every engine reached from the constructor by note-ons and
    note-offs (and by the other events of a run), at most one voice holds a
    given note while active or releasing; and a note-on for a note that some
    slot holds is given that slot, after which the slot holds the note, is
    active, and exactly one voice holds the note. *)
Theorem one_voice_per_note polyphony audioContext nextTimeoutId initialParams
    (events : list Event) (note : Z) :
  let e := run (construct polyphony audioContext nextTimeoutId initialParams) events in
  (soundingCount note (Engine.voices e) ≤ 1)%nat
  ∧ ∀ slot v velocity,
      Engine.voices e !! slot = Some v → holdsNote note v →
      (findVoiceForNoteOn (resumeIfSuspended e) note).2 = Some slot
      ∧ (∃ v', Engine.voices (noteOn e note velocity) !! slot = Some v'
               ∧ holdsNote note v' ∧ Voice.isActive v' = true)
      ∧ soundingCount note (Engine.voices (noteOn e note velocity)) = 1%nat.
Proof.
  intros e.
  assert (Hinv : Invariant e) by apply run_Invariant, construct_Invariant.
  split; [apply Invariant_soundingCount, Hinv |].
  intros slot v velocity. apply noteOn_retrigger, Hinv.
Qed.

(** C10: in every engine a run reaches from the constructor, and in that
    engine after the resume of [noteOn], the voice that [findVoiceForNoteOn]
    returns is, in the engine the call leaves, neither active nor releasing,
    without oscillator components, without noise source and noise gain,
    without timer handles, and no pending timer targets it. *)
Theorem allocated_voice_is_reset polyphony audioContext nextTimeoutId initialParams
    (events : list Event) (note : Z) (e0 e1 : AudioEngine) (slot : nat) :
  let e := run (construct polyphony audioContext nextTimeoutId initialParams) events in
  e0 = e ∨ e0 = resumeIfSuspended e →
  findVoiceForNoteOn e0 note = (e1, Some slot) →
  ∃ v, Engine.voices e1 !! slot = Some v
       ∧ Voice.isActive v = false ∧ Voice.isReleasing v = false
       ∧ Voice.oscillators v = [] ∧ Voice.noiseNode v = None
       ∧ Voice.noiseGainNode v = None ∧ Voice.scheduledStopTimeouts v = []
       ∧ noTimeoutFor slot e1.
Proof.
  intros e He0 Hfind.
  assert (Hinv : Invariant e) by apply run_Invariant, construct_Invariant.
  assert (Hinv0 : Invariant e0).
  { destruct He0 as [-> | ->]; [exact Hinv |].
    destruct (resumeIfSuspended_frame e) as (Hv & Ht & Hn & _).
    eapply Invariant_frame; eauto. }
  destruct (findVoiceForNoteOn_post _ _ _ _ Hinv0 Hfind)
    as (Hinv1 & _ & _ & _ & v & Hslot & Hfree & _).
  destruct (inv_free_reset e1 Hinv1 slot v Hslot Hfree) as (A & B & C & D & E & F).
  exists v. repeat (split; [assumption |]).
  intros t Ht Htarget. destruct (inv_timeout_owner e1 Hinv1 t Ht) as (w & Hw & Hin).
  rewrite Htarget, Hslot in Hw. injection Hw as <-. rewrite F in Hin. inversion Hin.
Qed.

(** ** Filter targets of a note-on *)

(** The voice [noteOn] writes, in terms of the engine before the call. *)
Lemma noteOn_written (e : AudioEngine) note velocity :
  Engine.voices e ≠ [] →
  ∃ e' slot v,
    (findVoiceForNoteOn (resumeIfSuspended e) note).2 = Some slot
    ∧ Engine.voices (noteOn e note velocity) !! slot
      = Some (noteOn_voice e' note velocity v)
    ∧ Engine.now e' = Engine.now e
    ∧ Engine.nyquist e' = Engine.nyquist e
    ∧ Engine.currentParams e' = Engine.currentParams e
    ∧ Engine.pitchBendMultiplier e' = Engine.pitchBendMultiplier e.
Proof.
  intros Hpool.
  destruct (resumeIfSuspended_frame e) as (Hv & _ & _ & Hp & Hb & Hnow & Hny).
  destruct (findVoiceForNoteOn_slot (resumeIfSuspended e) note)
    as (e1 & slot & v & Hfind & Hslot & Hc1 & Hp1 & Hb1);
    [rewrite Hv; exact Hpool |].
  exists (clearTimeouts (Voice.scheduledStopTimeouts v) e1), slot, v.
  split; [rewrite Hfind; reflexivity |].
  split.
  { rewrite (noteOn_allocated _ _ _ _ _ _ Hfind Hslot). simpl.
    apply list_lookup_insert_eq. eapply lookup_lt_Some; eauto. }
  unfold Engine.now, Engine.nyquist in *. simpl.
  rewrite Hc1, Hp1, Hb1, Hnow, Hny, Hp, Hb. auto.
Qed.

(** C7, as the code has it: [noteOn] schedules on the filter frequency of the
    allocated voice, after whatever was on it, a cancel at [now], the base
    cutoff at [now], a ramp to the attack peak and a ramp to the sustain
    target, each ramp lasting at least a millisecond.  The base cutoff is the
    configured cutoff; only when keyboard tracking is positive is it shifted
    by [(note - 60) * keyboardTracking * 20] and then clamped to [20,
    sampleRate / 2].  Peak and sustain target are the base plus
    [envelopeAmount * 5000], respectively [sustain * envelopeAmount * 5000],
    both always clamped. *)
Theorem noteOn_filter_targets (e : AudioEngine) (note : Z) (velocity : Q) :
  Engine.voices e ≠ [] →
  let filter := Params.filter (Engine.currentParams e) in
  let filterEnv := Params.filterEnvelope (Engine.currentParams e) in
  let now := Ctx.currentTime (Engine.audioContext e) in
  let clamp x := Qmax 20 (Qmin (Ctx.sampleRate (Engine.audioContext e) / 2) x) in
  let base :=
    if Qlt_le_dec 0 (FilterP.keyboardTracking filter)
    then clamp (FilterP.cutoff filter
                + (inject_Z note - 60) * (FilterP.keyboardTracking filter * 20))
    else FilterP.cutoff filter in
  let peak := clamp (base + FilterP.envelopeAmount filter * 5000) in
  let sustainTarget :=
    clamp (base + EnvP.sustain filterEnv * (FilterP.envelopeAmount filter * 5000)) in
  ∃ slot voice before,
    (findVoiceForNoteOn (resumeIfSuspended e) note).2 = Some slot
    ∧ Engine.voices (noteOn e note velocity) !! slot = Some voice
    ∧ Biquad.frequency (Voice.filterNode voice)
      = before ++ [ CancelScheduledValues now;
                    SetValueAtTime base now;
                    LinearRampToValueAtTime peak
                      (now + Qmax 0.001 (EnvP.attack filterEnv));
                    LinearRampToValueAtTime sustainTarget
                      (now + Qmax 0.001 (EnvP.attack filterEnv)
                           + Qmax 0.001 (EnvP.decay filterEnv)) ].
Proof.
  intros Hpool filter filterEnv now clamp base peak sustainTarget.
  destruct (noteOn_written e note velocity Hpool)
    as (e' & slot & v & Hfind & Hlook & Hnow & Hny & Hp & _).
  exists slot, (noteOn_voice e' note velocity v),
    (Biquad.frequency (Voice.filterNode v)).
  split; [exact Hfind |]. split; [exact Hlook |].
  unfold noteOn_voice, call. simpl. rewrite <- !app_assoc. simpl.
  unfold trackedCutoff, clampCutoff. rewrite Hnow, Hny, Hp. reflexivity.
Qed.

(** ** Release and cleanup *)

Lemma NoDup_indexed {A : Type} (l : list A) : NoDup (indexed l).
Proof.
  apply NoDup_alt. intros i j [k x] Hi Hj. unfold indexed in *.
  rewrite list_lookup_imap in Hi, Hj.
  destruct (l !! i); [| discriminate]. destruct (l !! j); [| discriminate].
  simpl in *. congruence.
Qed.

Lemma filter_indexed_unique {A : Type} (test : A → bool) (l : list A) i x :
  l !! i = Some x → test x →
  (∀ j y, l !! j = Some y → test y → j = i) →
  filter (λ ix : nat * A, test ix.2) (indexed l) = [(i, x)].
Proof.
  intros Hi Hx Huniq.
  pose proof (NoDup_filter (λ ix : nat * A, test ix.2) _ (NoDup_indexed l)) as Hnodup.
  assert (Hin : (i, x) ∈ filter (λ ix : nat * A, test ix.2) (indexed l))
    by (apply elem_of_filter_indexed; auto).
  assert (Hall : ∀ p, p ∈ filter (λ ix : nat * A, test ix.2) (indexed l) → p = (i, x)).
  { intros [j y] Hp. apply elem_of_filter_indexed in Hp as [Hj Hy].
    pose proof (Huniq j y Hj Hy). subst j. congruence. }
  destruct (filter (λ ix : nat * A, test ix.2) (indexed l)) as [|a [|b rest]].
  - inversion Hin.
  - rewrite (Hall a); [reflexivity | left].
  - exfalso. rewrite (Hall a) in Hnodup by left.
    rewrite (Hall b) in Hnodup by (right; left).
    apply NoDup_cons in Hnodup as [Hnot _]. apply Hnot. left.
Qed.

(** In a reachable engine [noteOff] runs its loop body once, on the one voice
    that holds the note. *)
Lemma noteOff_single (e : AudioEngine) note slot v :
  Invariant e →
  Engine.voices e !! slot = Some v → holdsNote note v →
  noteOff e note = noteOff_voice note e slot.
Proof.
  intros Hinv Hslot Hholds. unfold noteOff.
  rewrite (filter_indexed_unique (holdsNote note) _ slot v Hslot Hholds);
    [reflexivity |].
  intros j w Hj Hw. exact (inv_one_per_note e Hinv note j slot w v Hj Hslot Hw Hholds).
Qed.

Lemma list_find_fresh (timers : list Timeout) (timer : Timeout) :
  (∀ t, t ∈ timers → Timer.id t ≠ Timer.id timer) →
  list_find (λ t, Timer.id t = Timer.id timer) (timers ++ [timer])
  = Some (length timers, timer).
Proof.
  intros Hfresh. apply list_find_Some. split; [| split].
  - rewrite lookup_app_r by lia. rewrite Nat.sub_diag. reflexivity.
  - reflexivity.
  - intros j t Hj Hlt. rewrite lookup_app_l in Hj by exact Hlt.
    apply Hfresh. apply list_elem_of_lookup. eauto.
Qed.

Lemma noteOff_cleanup (e : AudioEngine) note slot v :
  Invariant e →
  Engine.voices e !! slot = Some v → holdsNote note v →
  let params := Engine.currentParams e in
  let maxRelease :=
    Qmax (EnvP.release (Params.ampEnvelope params))
         (EnvP.release (Params.filterEnvelope params)) in
  let stopTime := Ctx.currentTime (Engine.audioContext e) + maxRelease + 0.05 in
  let timer :=
    {| Timer.id := Engine.nextTimeoutId e; Timer.voice := slot;
       Timer.note := note; Timer.delay := (maxRelease + 0.1) * 1000 |} in
  ∃ v',
    Engine.voices (noteOff e note) !! slot = Some v'
    ∧ Voice.note v' = Some note
    ∧ Voice.isActive v' = false ∧ Voice.isReleasing v' = true
    ∧ length (Voice.oscillators v') = length (Voice.oscillators v)
    ∧ (∀ osc, osc ∈ Voice.oscillators v' →
         last (OscNode.stopCalls (Comp.oscNode osc)) = Some stopTime)
    ∧ (∀ noise, Voice.noiseNode v' = Some noise →
         last (BufSrc.stopCalls noise) = Some stopTime)
    ∧ Voice.scheduledStopTimeouts v'
      = Voice.scheduledStopTimeouts v ++ [Timer.id timer]
    ∧ Engine.timeouts (noteOff e note) = Engine.timeouts e ++ [timer]
    ∧ list_find (λ t, Timer.id t = Timer.id timer) (Engine.timeouts (noteOff e note))
      = Some (length (Engine.timeouts e), timer).
Proof.
  intros Hinv Hslot Hholds params maxRelease stopTime timer.
  rewrite (noteOff_single e note slot v Hinv Hslot Hholds).
  assert (Hnote : Voice.note v = Some note).
  { unfold holdsNote, note_is in Hholds. apply andb_prop_elim in Hholds as [Hn _].
    destruct (Voice.note v) as [n |]; [| destruct Hn].
    apply Is_true_true, Z.eqb_eq in Hn. congruence. }
  assert (Hlt : (slot < length (Engine.voices e))%nat)
    by (eapply lookup_lt_Some; eauto).
  unfold noteOff_voice. rewrite Hslot, Hnote. simpl. rewrite Z.eqb_refl. simpl.
  rewrite andb_false_r. simpl. eexists.
  split; [apply list_lookup_insert_eq; exact Hlt |]. simpl.
  split; [reflexivity |]. split; [reflexivity |]. split; [reflexivity |].
  split; [apply length_fmap |].
  split.
  { intros osc Hosc. apply list_elem_of_fmap in Hosc as (osc0 & -> & _). simpl.
    apply last_snoc. }
  split.
  { intros noise Hnoise. destruct (Voice.noiseNode v) as [n0 |]; [| discriminate].
    injection Hnoise as <-. simpl. apply last_snoc. }
  split; [reflexivity |]. split; [reflexivity |].
  apply (list_find_fresh (Engine.timeouts e) timer).
  intros t Ht. pose proof (inv_fresh e Hinv t Ht). simpl. lia.
Qed.

(** C6: in an engine reached from the constructor, [noteOff note] on the
    voice that holds [note] leaves it releasing, schedules the stop of every
    generator of the voice at [now + max(ampRelease, filterRelease) + 0.05],
    and registers one cleanup timer with delay [(max(ampRelease,
    filterRelease) + 0.1) * 1000] milliseconds for that slot and note.
    Whenever that timer fires in an engine where it is still pending, it
    leaves the pending timers, and the voice of the slot is soft-stopped if
    it is releasing and holds [note] and is left as it is otherwise.
    Soft-stopped: the voice has no note, velocity 0 and start time 0, is
    neither active nor releasing, has no oscillators, noise source or timer
    handles, its amplitude and filter nodes untouched, its timers no longer
    pending, and nothing else of the engine changed.  When the timer fires
    right after the [noteOff], the voice is soft-stopped. *)
Theorem noteOff_release_and_cleanup polyphony audioContext nextTimeoutId
    initialParams (events : list Event) (note : Z) (slot : nat) (v : PolyVoice) :
  let e := run (construct polyphony audioContext nextTimeoutId initialParams) events in
  Engine.voices e !! slot = Some v → holdsNote note v →
  let params := Engine.currentParams e in
  let maxRelease :=
    Qmax (EnvP.release (Params.ampEnvelope params))
         (EnvP.release (Params.filterEnvelope params)) in
  let stopTime := Ctx.currentTime (Engine.audioContext e) + maxRelease + 0.05 in
  let timer :=
    {| Timer.id := Engine.nextTimeoutId e; Timer.voice := slot;
       Timer.note := note; Timer.delay := (maxRelease + 0.1) * 1000 |} in
  (∃ v',
     Engine.voices (noteOff e note) !! slot = Some v'
     ∧ Voice.note v' = Some note
     ∧ Voice.isActive v' = false ∧ Voice.isReleasing v' = true
     ∧ length (Voice.oscillators v') = length (Voice.oscillators v)
     ∧ (∀ osc, osc ∈ Voice.oscillators v' →
          last (OscNode.stopCalls (Comp.oscNode osc)) = Some stopTime)
     ∧ (∀ noise, Voice.noiseNode v' = Some noise →
          last (BufSrc.stopCalls noise) = Some stopTime)
     ∧ Voice.scheduledStopTimeouts v'
       = Voice.scheduledStopTimeouts v ++ [Timer.id timer]
     ∧ Engine.timeouts (noteOff e note) = Engine.timeouts e ++ [timer]
     ∧ list_find (λ t, Timer.id t = Timer.id timer) (Engine.timeouts (noteOff e note))
       = Some (length (Engine.timeouts e), timer))
  ∧ (∀ (later : AudioEngine) (position : nat),
      list_find (λ t, Timer.id t = Timer.id timer) (Engine.timeouts later)
      = Some (position, timer) →
      ∃ fired,
        TimerGone (Timer.id timer) later fired
        ∧ match Engine.voices later !! slot with
          | Some voice =>
              if Voice.isReleasing voice && note_is note (Voice.note voice)
              then SoftStopped fired slot (fireTimeout later (Timer.id timer))
              else fireTimeout later (Timer.id timer) = fired
          | None => fireTimeout later (Timer.id timer) = fired
          end)
  ∧ ∃ fired,
      TimerGone (Timer.id timer) (noteOff e note) fired
      ∧ SoftStopped fired slot (fireTimeout (noteOff e note) (Timer.id timer)).
Proof.
  intros e Hslot Hholds params maxRelease stopTime timer.
  assert (Hinv : Invariant e) by apply run_Invariant, construct_Invariant.
  pose proof (noteOff_cleanup e note slot v Hinv Hslot Hholds) as Hrelease.
  assert (Hfires : ∀ (later : AudioEngine) (position : nat),
             list_find (λ t, Timer.id t = Timer.id timer) (Engine.timeouts later)
             = Some (position, timer) →
             ∃ fired,
               TimerGone (Timer.id timer) later fired
               ∧ match Engine.voices later !! slot with
                 | Some voice =>
                     if Voice.isReleasing voice && note_is note (Voice.note voice)
                     then SoftStopped fired slot (fireTimeout later (Timer.id timer))
                     else fireTimeout later (Timer.id timer) = fired
                 | None => fireTimeout later (Timer.id timer) = fired
                 end).
  { intros later position Hpending.
    exists (withoutTimeout (Timer.id timer) later).
    split; [unfold TimerGone, sameEngineBut; simpl; repeat split |].
    pose proof (fireTimeout_cases later (Timer.id timer)) as Hcases.
    rewrite Hpending in Hcases. simpl in Hcases.
    destruct (Engine.voices later !! slot) as [voice |] eqn:Hvoice; [| exact Hcases].
    destruct (Voice.isReleasing voice && note_is note (Voice.note voice));
      [| exact Hcases].
    change (Timer.id timer) with (Engine.nextTimeoutId e).
    rewrite Hcases. apply (stopVoice_SoftStopped _ slot voice). exact Hvoice. }
  split; [exact Hrelease |]. split; [exact Hfires |].
  destruct Hrelease as (v' & Hv' & Hnote & _ & Hreleasing & _ & _ & _ & _ & _ & Hfind).
  destruct (Hfires (noteOff e note) _ Hfind) as (fired & Hgone & Hcase).
  exists fired. split; [exact Hgone |].
  rewrite Hv', Hreleasing, Hnote in Hcase. simpl in Hcase.
  rewrite Z.eqb_refl in Hcase. exact Hcase.
Qed.

(** ** Full stops *)

(** A soft stop clears the note, the velocity and the start time. *)
Lemma stopVoice_soft_clears (e : AudioEngine) slot v :
  Engine.voices e !! slot = Some v →
  ∃ v', Engine.voices (stopVoice e slot false) !! slot = Some v'
        ∧ Voice.note v' = None ∧ Voice.velocity v' = 0 ∧ Voice.startTime v' = 0
        ∧ Voice.isActive v' = false ∧ Voice.isReleasing v' = false.
Proof.
  intros Hslot. eexists. split; [apply stopVoice_lookup; exact Hslot |].
  simpl. repeat split.
Qed.

(** A hard stop keeps the note, the velocity and the start time of a voice
    that has a note. *)
Lemma stopVoice_hard_keeps (e : AudioEngine) slot v note :
  Engine.voices e !! slot = Some v → Voice.note v = Some note →
  ∃ v', Engine.voices (stopVoice e slot true) !! slot = Some v'
        ∧ Voice.note v' = Some note ∧ Voice.velocity v' = Voice.velocity v
        ∧ Voice.startTime v' = Voice.startTime v
        ∧ Voice.isActive v' = false ∧ Voice.isReleasing v' = false.
Proof.
  intros Hslot Hnote. eexists. split; [apply stopVoice_lookup; exact Hslot |].
  simpl. rewrite Hnote. simpl. repeat split.
Qed.

(** C4, on the code: after [noteOn(60, 100)] on the new engine and then
    [dispose()], the voice of slot 0 is neither active nor releasing but
    still has note 60 and velocity 100; [dispose] hard-stops, and a hard stop
    clears these fields only when the note is already [null]. *)
Theorem dispose_keeps_note :
  ∃ v, Engine.voices (dispose (noteOn sample_engine 60 100)) !! 0%nat = Some v
       ∧ Voice.note v = Some 60%Z ∧ Voice.velocity v = 100
       ∧ Voice.isActive v = false ∧ Voice.isReleasing v = false.
Proof. eexists. split; [vm_compute; reflexivity |]. repeat split. Qed.

(** ** Pitch bend *)

(** C2, on the code: with the first oscillator descriptor disabled and the
    second enabled, a note-on for note 69 under a bend of 1 builds one
    oscillator, from the second descriptor, at its bent frequency.
    [setPitchBend(0)] then resolves that oscillator, at index 0, to the first
    descriptor, finds it disabled and schedules nothing: the frequency trace
    is still the single call of the note-on and holds the bent frequency. *)
Theorem setPitchBend_wrong_descriptor :
  let built :=
    {| OscP.id := "osc2"; OscP.waveform := SQUARE; OscP.octave := 1;
       OscP.tune := 0; OscP.level := 0.6; OscP.enabled := true |} in
  let e :=
    run (newAudioEngine sample_context 1 firstOscillatorOff)
        [PitchBend 1; NoteOn 69 100; PitchBend 0] in
  Engine.pitchBendMultiplier e = Math_pow 2 (0 * 2 / 12)
  ∧ ∃ v osc,
      Engine.voices e !! 0%nat = Some v
      ∧ Voice.isActive v = true
      ∧ Voice.oscillators v = [osc]
      ∧ OscNode.type (Comp.oscNode osc) = OscP.waveform built
      ∧ OscNode.frequency (Comp.oscNode osc)
        = [SetValueAtTime (tunedFrequency 69 built * Math_pow 2 (1 * 2 / 12)) 0].
Proof.
  intros built e. split; [reflexivity |].
  eexists _, _. split; [vm_compute; reflexivity |]. simpl.
  split; [reflexivity |]. split; [reflexivity |]. split; [reflexivity |].
  vm_compute. reflexivity.
Qed.

(** ** Further properties: envelopes and the voice of a note-on *)

(** X1: [releaseEnvelope] appends exactly three calls: a cancel at the clock
    time [now], a value pinned at [now], and a ramp to the target that ends
    at [now + max(0.001, releaseTime)], strictly after [now]. *)
Theorem releaseEnvelope_schedule (e : AudioEngine) (param : AudioParam)
    (releaseTime targetValue : Q) :
  let now := Ctx.currentTime (Engine.audioContext e) in
  (∃ pinned,
     releaseEnvelope e param releaseTime targetValue
     = param ++ [ CancelScheduledValues now;
                  SetValueAtTime pinned now;
                  LinearRampToValueAtTime targetValue (now + Qmax 0.001 releaseTime) ])
  ∧ now < now + Qmax 0.001 releaseTime.
Proof.
  intros now. split; [| apply later_by_floor].
  eexists. unfold releaseEnvelope, call. rewrite <- !app_assoc. reflexivity.
Qed.

(** X2: on a pool that is not empty [noteOn] never drops the note: the voice
    of the slot allocation returns holds the note with the given velocity,
    is active and not releasing, starts at the clock time and has no timer
    handle; the pool keeps its size. *)
Theorem noteOn_sounds (e : AudioEngine) (note : Z) (velocity : Q) :
  Engine.voices e ≠ [] →
  ∃ slot voice,
    (findVoiceForNoteOn (resumeIfSuspended e) note).2 = Some slot
    ∧ Engine.voices (noteOn e note velocity) !! slot = Some voice
    ∧ Voice.note voice = Some note
    ∧ Voice.velocity voice = velocity
    ∧ Voice.isActive voice = true ∧ Voice.isReleasing voice = false
    ∧ Voice.startTime voice = Ctx.currentTime (Engine.audioContext e)
    ∧ Voice.scheduledStopTimeouts voice = [].
Proof.
  intros Hpool.
  destruct (noteOn_written e note velocity Hpool)
    as (e' & slot & v & Hfind & Hlook & Hnow & _).
  exists slot, (noteOn_voice e' note velocity v).
  split; [exact Hfind |]. split; [exact Hlook |].
  simpl. repeat split. exact Hnow.
Qed.

(** X3: [noteOn] schedules the amplitude envelope on the gain of the voice:
    after whatever was on it, a cancel at [now], the value 0 at [now], a ramp
    to [1.0 * (velocity / 127)] and a ramp to [sustain] times that peak, with
    the attack and decay times of the amplitude envelope, each at least a
    millisecond. *)
Theorem noteOn_amplitude_envelope (e : AudioEngine) (note : Z) (velocity : Q) :
  Engine.voices e ≠ [] →
  let env := Params.ampEnvelope (Engine.currentParams e) in
  let now := Ctx.currentTime (Engine.audioContext e) in
  let peak := 1.0 * (velocity / 127) in
  ∃ slot voice before,
    (findVoiceForNoteOn (resumeIfSuspended e) note).2 = Some slot
    ∧ Engine.voices (noteOn e note velocity) !! slot = Some voice
    ∧ Gain.gain (Voice.vcaNode voice)
      = before ++ [ CancelScheduledValues now;
                    SetValueAtTime 0 now;
                    LinearRampToValueAtTime peak (now + Qmax 0.001 (EnvP.attack env));
                    LinearRampToValueAtTime (EnvP.sustain env * peak)
                      (now + Qmax 0.001 (EnvP.attack env)
                           + Qmax 0.001 (EnvP.decay env)) ].
Proof.
  intros Hpool env now peak.
  destruct (noteOn_written e note velocity Hpool)
    as (e' & slot & v & Hfind & Hlook & Hnow & _ & Hp & _).
  exists slot, (noteOn_voice e' note velocity v), (Gain.gain (Voice.vcaNode v)).
  split; [exact Hfind |]. split; [exact Hlook |].
  unfold noteOn_voice, applyEnvelope, call. simpl. rewrite <- !app_assoc. simpl.
  rewrite Hnow, Hp. reflexivity.
Qed.

Lemma buildOscillator_oscillatorOf (e e' : AudioEngine) note p :
  Engine.now e' = Engine.now e →
  Engine.pitchBendMultiplier e' = Engine.pitchBendMultiplier e →
  buildOscillator e' note p = oscillatorOf e note p.
Proof.
  intros Hnow Hb. unfold buildOscillator, oscillatorOf, midiNoteToFrequency.
  rewrite Hnow, Hb. reflexivity.
Qed.

(** X4: the oscillator components of the voice [noteOn] writes are built, in
    descriptor order, from exactly the descriptors that are enabled with a
    level other than 0: each has the waveform of its descriptor, starts at
    [now], has its gain set to the level, and its frequency set to [440 *
    2^((note + octave * 12 - 69) / 12) * 2^(tune / 1200)] times the current
    pitch-bend multiplier. *)
Theorem noteOn_oscillators (e : AudioEngine) (note : Z) (velocity : Q) :
  Engine.voices e ≠ [] →
  ∃ slot voice,
    (findVoiceForNoteOn (resumeIfSuspended e) note).2 = Some slot
    ∧ Engine.voices (noteOn e note velocity) !! slot = Some voice
    ∧ Voice.oscillators voice
      = oscillatorOf e note
          <$> filter (λ p, OscP.enabled p && negb (Qeq_bool (OscP.level p) 0))
                (Params.oscillators (Engine.currentParams e)).
Proof.
  intros Hpool.
  destruct (noteOn_written e note velocity Hpool)
    as (e' & slot & v & Hfind & Hlook & Hnow & _ & Hp & Hb).
  exists slot, (noteOn_voice e' note velocity v).
  split; [exact Hfind |]. split; [exact Hlook |].
  simpl. rewrite Hp. apply list_fmap_ext. intros i p _.
  apply buildOscillator_oscillatorOf; assumption.
Qed.

(** X5: the voice [noteOn] writes has a noise source exactly when noise is
    enabled with a positive level: then a looping source of the configured
    buffer, started at [now], with its gain set to the level; otherwise no
    noise source at all. *)
Theorem noteOn_noise (e : AudioEngine) (note : Z) (velocity : Q) :
  Engine.voices e ≠ [] →
  let noise := Params.noise (Engine.currentParams e) in
  let now := Ctx.currentTime (Engine.audioContext e) in
  ∃ slot voice,
    (findVoiceForNoteOn (resumeIfSuspended e) note).2 = Some slot
    ∧ Engine.voices (noteOn e note velocity) !! slot = Some voice
    ∧ if NoiseP.enabled noise
         && (if Qlt_le_dec 0 (NoiseP.level noise) then true else false)
      then
        Voice.noiseNode voice
        = Some {| BufSrc.buffer := NoiseP.type noise; BufSrc.loop := true;
                  BufSrc.startCalls := [now]; BufSrc.stopCalls := [] |}
        ∧ Voice.noiseGainNode voice
          = Some {| Gain.gain := [SetValueAtTime (NoiseP.level noise) now] |}
      else Voice.noiseNode voice = None.
Proof.
  intros Hpool noise now.
  destruct (noteOn_written e note velocity Hpool)
    as (e' & slot & v & Hfind & Hlook & Hnow & _ & Hp & _).
  exists slot, (noteOn_voice e' note velocity v).
  split; [exact Hfind |]. split; [exact Hlook |].
  simpl. rewrite Hp, Hnow. fold noise.
  destruct (NoiseP.enabled noise
            && (if Qlt_le_dec 0 (NoiseP.level noise) then true else false));
    [split |]; reflexivity.
Qed.

(** ** Further properties: what a call leaves alone *)

(** Allocation either leaves the engine as it is or hard-stops the slot it
    returns. *)
Lemma findVoiceForNoteOn_either (e : AudioEngine) note :
  (∃ r, findVoiceForNoteOn e note = (e, r))
  ∨ (∃ slot, findVoiceForNoteOn e note = (stopVoice e slot true, Some slot)).
Proof.
  unfold findVoiceForNoteOn.
  destruct (decide _); [left; eauto |].
  destruct (list_find _ _) as [[i w] |]; [right; eauto |].
  destruct (list_find _ _) as [[i w] |]; [left; eauto |].
  destruct (oldest onlyReleasing _); [right; eauto |].
  destruct (oldest onlyActive _); [right; eauto |].
  destruct (decide _); [| left; eauto].
  destruct (oldest sounding _); [right; eauto | left; eauto].
Qed.

Lemma stopVoice_subset (e : AudioEngine) slot hardStop t :
  t ∈ Engine.timeouts (stopVoice e slot hardStop) → t ∈ Engine.timeouts e.
Proof.
  destruct (Engine.voices e !! slot) as [v |] eqn:Hslot.
  - rewrite (stopVoice_timeouts _ _ _ _ Hslot). intros Ht.
    apply list_elem_of_filter in Ht. tauto.
  - rewrite stopVoice_missing; auto.
Qed.

Lemma stopVoice_lfo (e : AudioEngine) slot hardStop :
  Engine.lfoOscNode (stopVoice e slot hardStop) = Engine.lfoOscNode e
  ∧ Engine.lfoGainPitchNode (stopVoice e slot hardStop) = Engine.lfoGainPitchNode e
  ∧ Engine.lfoGainFilterNode (stopVoice e slot hardStop) = Engine.lfoGainFilterNode e
  ∧ Engine.masterGain (stopVoice e slot hardStop) = Engine.masterGain e
  ∧ Engine.masterConnected (stopVoice e slot hardStop) = Engine.masterConnected e.
Proof. unfold stopVoice. destruct (Engine.voices e !! slot); simpl; auto. Qed.

(** X6: [noteOn] writes one slot only: every other voice of the pool is
    exactly as before, no timer is added, and the parameters, the pitch bend,
    the timer counter and the LFO nodes are unchanged. *)
Theorem noteOn_touches_one_slot (e : AudioEngine) (note : Z) (velocity : Q) :
  Engine.voices e ≠ [] →
  ∃ slot,
    (findVoiceForNoteOn (resumeIfSuspended e) note).2 = Some slot
    ∧ (∀ j, j ≠ slot →
         Engine.voices (noteOn e note velocity) !! j = Engine.voices e !! j)
    ∧ length (Engine.voices (noteOn e note velocity)) = length (Engine.voices e)
    ∧ (∀ t, t ∈ Engine.timeouts (noteOn e note velocity) → t ∈ Engine.timeouts e)
    ∧ Engine.nextTimeoutId (noteOn e note velocity) = Engine.nextTimeoutId e
    ∧ Engine.currentParams (noteOn e note velocity) = Engine.currentParams e
    ∧ Engine.pitchBendMultiplier (noteOn e note velocity) = Engine.pitchBendMultiplier e
    ∧ Engine.lfoOscNode (noteOn e note velocity) = Engine.lfoOscNode e
    ∧ Engine.lfoGainPitchNode (noteOn e note velocity) = Engine.lfoGainPitchNode e
    ∧ Engine.lfoGainFilterNode (noteOn e note velocity) = Engine.lfoGainFilterNode e.
Proof.
  intros Hpool.
  destruct (resumeIfSuspended_frame e) as (Hv & Ht & Hn & Hp & Hb & _).
  assert (Hlfo : Engine.lfoOscNode (resumeIfSuspended e) = Engine.lfoOscNode e
                 ∧ Engine.lfoGainPitchNode (resumeIfSuspended e) = Engine.lfoGainPitchNode e
                 ∧ Engine.lfoGainFilterNode (resumeIfSuspended e) = Engine.lfoGainFilterNode e).
  { unfold resumeIfSuspended. destruct (Ctx.state _); auto. }
  destruct Hlfo as (Hl1 & Hl2 & Hl3).
  destruct (findVoiceForNoteOn_slot (resumeIfSuspended e) note)
    as (e1 & slot & v & Hfind & Hslot & _); [rewrite Hv; exact Hpool |].
  exists slot. split; [rewrite Hfind; reflexivity |].
  rewrite (noteOn_allocated _ _ _ _ _ _ Hfind Hslot). simpl.
  assert (He1 : e1 = resumeIfSuspended e ∨ e1 = stopVoice (resumeIfSuspended e) slot true).
  { destruct (findVoiceForNoteOn_either (resumeIfSuspended e) note)
      as [[r Hr] | [slot' Hr]]; rewrite Hfind in Hr.
    - left. congruence.
    - right. injection Hr as -> ->. reflexivity. }
  assert (Hframe :
    (∀ j, j ≠ slot → Engine.voices e1 !! j = Engine.voices e !! j)
    ∧ length (Engine.voices e1) = length (Engine.voices e)
    ∧ (∀ t, t ∈ Engine.timeouts e1 → t ∈ Engine.timeouts e)
    ∧ Engine.nextTimeoutId e1 = Engine.nextTimeoutId e
    ∧ Engine.currentParams e1 = Engine.currentParams e
    ∧ Engine.pitchBendMultiplier e1 = Engine.pitchBendMultiplier e
    ∧ Engine.lfoOscNode e1 = Engine.lfoOscNode e
    ∧ Engine.lfoGainPitchNode e1 = Engine.lfoGainPitchNode e
    ∧ Engine.lfoGainFilterNode e1 = Engine.lfoGainFilterNode e).
  { destruct He1 as [-> | ->].
    - rewrite Hv, Ht, Hn, Hp, Hb, Hl1, Hl2, Hl3. auto 10.
    - destruct (stopVoice_frame (resumeIfSuspended e) slot true)
        as (_ & -> & -> & -> & ->).
      destruct (stopVoice_lfo (resumeIfSuspended e) slot true)
        as (-> & -> & -> & _).
      rewrite Hv, Hn, Hp, Hb, Hl1, Hl2, Hl3.
      split; [intros j Hj; rewrite stopVoice_lookup_ne by exact Hj; rewrite Hv; reflexivity |].
      repeat (split; [reflexivity |]).
      split; [| auto 10].
      intros t Hin. apply stopVoice_subset in Hin. rewrite <- Ht. exact Hin. }
  destruct Hframe as (F1 & F2 & F3 & F4 & F5 & F6 & F7 & F8 & F9).
  split; [intros j Hj; rewrite list_lookup_insert_ne by congruence; auto |].
  split; [rewrite length_insert; exact F2 |].
  split; [intros t Hin; apply list_elem_of_filter in Hin as [_ Hin]; auto |].
  auto 10.
Qed.

Lemma noteOff_voice_lookup_ne note (e : AudioEngine) slot j :
  j ≠ slot →
  Engine.voices (noteOff_voice note e slot) !! j = Engine.voices e !! j.
Proof.
  intros Hne. destruct (Engine.voices e !! slot) as [v |] eqn:Hslot;
    [| rewrite noteOff_voice_missing; auto].
  destruct (noteOff_voice_cases note e slot v Hslot) as [-> | (v' & -> & _)];
    [reflexivity |].
  apply list_lookup_insert_ne. congruence.
Qed.

Lemma noteOff_voice_keeps note (e : AudioEngine) slot :
  (∀ t, t ∈ Engine.timeouts e → t ∈ Engine.timeouts (noteOff_voice note e slot))
  ∧ Engine.currentParams (noteOff_voice note e slot) = Engine.currentParams e
  ∧ Engine.pitchBendMultiplier (noteOff_voice note e slot) = Engine.pitchBendMultiplier e
  ∧ Engine.audioContext (noteOff_voice note e slot) = Engine.audioContext e
  ∧ length (Engine.voices (noteOff_voice note e slot)) = length (Engine.voices e).
Proof.
  unfold noteOff_voice. destruct (Engine.voices e !! slot) as [v |]; [| auto].
  destruct (negb (Voice.isActive v) && Voice.isReleasing v
            && negb (note_is note (Voice.note v))); [auto |].
  simpl. split; [intros t Ht; apply elem_of_app; auto |].
  repeat (split; [reflexivity |]). apply length_insert.
Qed.

Lemma noteOff_fold_keeps note (slots : list nat) (e : AudioEngine) :
  (∀ j, j ∉ slots →
     Engine.voices (foldl (noteOff_voice note) e slots) !! j = Engine.voices e !! j)
  ∧ (∀ t, t ∈ Engine.timeouts e →
       t ∈ Engine.timeouts (foldl (noteOff_voice note) e slots))
  ∧ Engine.currentParams (foldl (noteOff_voice note) e slots) = Engine.currentParams e
  ∧ Engine.pitchBendMultiplier (foldl (noteOff_voice note) e slots)
    = Engine.pitchBendMultiplier e
  ∧ Engine.audioContext (foldl (noteOff_voice note) e slots) = Engine.audioContext e
  ∧ length (Engine.voices (foldl (noteOff_voice note) e slots))
    = length (Engine.voices e).
Proof.
  revert e. induction slots as [|slot slots IH]; intros e; [simpl; auto 10 |].
  simpl. destruct (IH (noteOff_voice note e slot)) as (I1 & I2 & I3 & I4 & I5 & I6).
  destruct (noteOff_voice_keeps note e slot) as (K1 & K2 & K3 & K4 & K5).
  split.
  { intros j Hj. apply not_elem_of_cons in Hj as [Hne Hj].
    rewrite I1 by exact Hj. apply noteOff_voice_lookup_ne. exact Hne. }
  split; [auto |]. rewrite I3, I4, I5, I6. auto.
Qed.

(** X7: [noteOff] changes only the voices that hold the note while active or
    releasing: every other voice is exactly as before, no pending timer is
    removed, and the parameters, the pitch bend and the context are
    unchanged. *)
Theorem noteOff_touches_only_holders (e : AudioEngine) (note : Z) :
  (∀ j v, Engine.voices e !! j = Some v → ¬ holdsNote note v →
          Engine.voices (noteOff e note) !! j = Some v)
  ∧ length (Engine.voices (noteOff e note)) = length (Engine.voices e)
  ∧ (∀ t, t ∈ Engine.timeouts e → t ∈ Engine.timeouts (noteOff e note))
  ∧ Engine.currentParams (noteOff e note) = Engine.currentParams e
  ∧ Engine.pitchBendMultiplier (noteOff e note) = Engine.pitchBendMultiplier e
  ∧ Engine.audioContext (noteOff e note) = Engine.audioContext e.
Proof.
  unfold noteOff.
  set (slots := (filter (λ iv : nat * PolyVoice, holdsNote note iv.2)
                   (indexed (Engine.voices e))).*1).
  destruct (noteOff_fold_keeps note slots e) as (K1 & K2 & K3 & K4 & K5 & K6).
  split; [| auto 10].
  intros j v Hj Hnot. rewrite K1; [exact Hj |].
  intros Hin. apply list_elem_of_fmap in Hin as ([i w] & -> & Hin).
  apply elem_of_filter_indexed in Hin as [Hi Hw]. simpl in Hj.
  rewrite Hi in Hj. injection Hj as ->. exact (Hnot Hw).
Qed.

(** ** Further properties: the pool *)

Lemma poolOf_insert n (e e' : AudioEngine) slot v' :
  poolOf n e →
  Engine.voices e' = <[slot := v']> (Engine.voices e) →
  (∀ v, Engine.voices e !! slot = Some v → Voice.id v' = Voice.id v) →
  poolOf n e'.
Proof.
  intros [Hlen Hid] Hv Hsame. split.
  - rewrite Hv, length_insert. exact Hlen.
  - rewrite Hv. intros j w Hj. destruct (decide (j = slot)) as [-> | Hne].
    + assert (Hlt : (slot < length (Engine.voices e))%nat).
      { apply lookup_lt_Some in Hj. rewrite length_insert in Hj. exact Hj. }
      rewrite list_lookup_insert_eq in Hj by exact Hlt. injection Hj as <-.
      destruct (lookup_lt_is_Some_2 _ _ Hlt) as [v Hslot].
      rewrite (Hsame v Hslot). eauto.
    + rewrite list_lookup_insert_ne in Hj by congruence. eauto.
Qed.

Lemma poolOf_map n (f : PolyVoice → PolyVoice) (e e' : AudioEngine) :
  poolOf n e →
  Engine.voices e' = f <$> Engine.voices e →
  (∀ v, Voice.id (f v) = Voice.id v) →
  poolOf n e'.
Proof.
  intros [Hlen Hid] Hv Hsame. split.
  - rewrite Hv, length_fmap. exact Hlen.
  - rewrite Hv. intros j w Hj. rewrite list_lookup_fmap in Hj.
    destruct (Engine.voices e !! j) as [w0 |] eqn:Hw0; [| discriminate].
    injection Hj as <-. rewrite Hsame. eauto.
Qed.

Lemma poolOf_same n (e e' : AudioEngine) :
  poolOf n e → Engine.voices e' = Engine.voices e → poolOf n e'.
Proof. unfold poolOf. intros H ->. exact H. Qed.

Lemma stopVoice_poolOf n (e : AudioEngine) slot hardStop :
  poolOf n e → poolOf n (stopVoice e slot hardStop).
Proof.
  intros Hpool. destruct (Engine.voices e !! slot) as [v |] eqn:Hslot;
    [| rewrite stopVoice_missing; auto].
  eapply poolOf_insert; [exact Hpool | apply stopVoice_voices; exact Hslot |].
  intros v0 Hv0. rewrite Hslot in Hv0. injection Hv0 as <-. reflexivity.
Qed.

Lemma noteOn_poolOf n (e : AudioEngine) note velocity :
  poolOf n e → poolOf n (noteOn e note velocity).
Proof.
  intros Hpool. unfold noteOn.
  destruct (resumeIfSuspended_frame e) as (Hv & _).
  assert (Hpool0 : poolOf n (resumeIfSuspended e)) by (eapply poolOf_same; eauto).
  assert (Hpool1 : poolOf n (findVoiceForNoteOn (resumeIfSuspended e) note).1).
  { destruct (findVoiceForNoteOn_either (resumeIfSuspended e) note)
      as [[r ->] | [slot ->]]; [exact Hpool0 | apply stopVoice_poolOf, Hpool0]. }
  destruct (findVoiceForNoteOn (resumeIfSuspended e) note) as [e1 [slot |]];
    simpl in Hpool1; [| exact Hpool1].
  destruct (Engine.voices e1 !! slot) as [v |] eqn:Hslot; [| exact Hpool1].
  eapply poolOf_insert; [exact Hpool1 | reflexivity |].
  intros v0 Hv0. rewrite Hslot in Hv0. injection Hv0 as <-. reflexivity.
Qed.

Lemma noteOff_voice_poolOf n note (e : AudioEngine) slot :
  poolOf n e → poolOf n (noteOff_voice note e slot).
Proof.
  intros Hpool. unfold noteOff_voice.
  destruct (Engine.voices e !! slot) as [v |] eqn:Hslot; [| exact Hpool].
  destruct (negb (Voice.isActive v) && Voice.isReleasing v
            && negb (note_is note (Voice.note v))); [exact Hpool |].
  eapply poolOf_insert; [exact Hpool | reflexivity |].
  intros v0 Hv0. simpl in Hv0. rewrite Hslot in Hv0. injection Hv0 as <-. reflexivity.
Qed.

Lemma noteOff_poolOf n (e : AudioEngine) note :
  poolOf n e → poolOf n (noteOff e note).
Proof.
  unfold noteOff. generalize (filter (λ iv : nat * PolyVoice, holdsNote note iv.2)
                                (indexed (Engine.voices e))).*1.
  intros slots. revert e. induction slots as [|slot slots IH]; intros e Hpool;
    [exact Hpool |].
  simpl. apply IH, noteOff_voice_poolOf, Hpool.
Qed.

Lemma fireTimeout_poolOf n (e : AudioEngine) handle :
  poolOf n e → poolOf n (fireTimeout e handle).
Proof.
  intros Hpool. pose proof (fireTimeout_cases e handle) as Hcases.
  destruct (list_find _ (Engine.timeouts e)) as [[i timer] |];
    [| rewrite Hcases; exact Hpool].
  assert (Hw : poolOf n (withoutTimeout handle e)) by (eapply poolOf_same; eauto).
  destruct (Engine.voices e !! Timer.voice timer) as [voice |].
  - destruct (Voice.isReleasing voice && note_is (Timer.note timer) (Voice.note voice));
      rewrite Hcases; [apply stopVoice_poolOf |]; exact Hw.
  - rewrite Hcases. exact Hw.
Qed.

Lemma updateParams_voices (e : AudioEngine) newParams :
  ∃ e1,
    Engine.voices e1 = Engine.voices e
    ∧ Engine.audioContext e1 = Engine.audioContext e
    ∧ Engine.voices (updateParams e newParams)
      = if negb (BiquadFilterType_beq
                   (FilterP.type (Params.filter (Engine.currentParams e)))
                   (FilterP.type (Params.filter newParams)))
           || negb (Qeq_bool
                      (FilterP.resonance (Params.filter (Engine.currentParams e)))
                      (FilterP.resonance (Params.filter newParams)))
        then retuneFilter e1 (Params.filter newParams) <$> Engine.voices e
        else Engine.voices e.
Proof.
  unfold updateParams.
  set (e1 := applyParamsToEngineGlobally _ _).
  exists e1.
  assert (Hv1 : Engine.voices e1 = Engine.voices e).
  { destruct (applyParamsToEngineGlobally_frame
                (Engine.set_currentParams newParams e)
                (Engine.currentParams (Engine.set_currentParams newParams e)))
      as (Hv & _). exact Hv. }
  assert (Hc1 : Engine.audioContext e1 = Engine.audioContext e).
  { subst e1. unfold applyParamsToEngineGlobally.
    destruct (LfoP.enabled _).
    - destruct (lfoOutdated _ _); [| reflexivity].
      unfold setupLFO. destruct (negb _); reflexivity.
    - simpl. destruct (Engine.lfoOscNode e); reflexivity. }
  split; [exact Hv1 |]. split; [exact Hc1 |].
  set (e2 := if _ || _ then _ else e1).
  assert (Hgoal : Engine.voices
                    (if lfoConfigChanged (Params.lfo (Engine.currentParams e))
                          (Params.lfo newParams)
                     then if LfoP.enabled (Params.lfo newParams)
                          then setupLFO e2 (Params.lfo newParams)
                          else teardownLFO e2
                     else e2) = Engine.voices e2).
  { destruct (lfoConfigChanged _ _); [| reflexivity].
    destruct (LfoP.enabled (Params.lfo newParams)); [| reflexivity].
    apply setupLFO_frame. }
  rewrite Hgoal. subst e2.
  match goal with |- Engine.voices (if ?c then _ else _) = _ => destruct c end.
  - simpl. rewrite Hv1. reflexivity.
  - exact Hv1.
Qed.

Lemma updateParams_poolOf n (e : AudioEngine) newParams :
  poolOf n e → poolOf n (updateParams e newParams).
Proof.
  intros Hpool. destruct (updateParams_voices e newParams) as (e1 & _ & _ & Hv).
  match type of Hv with _ = if ?c then _ else _ => destruct c end.
  - eapply poolOf_map; [exact Hpool | exact Hv |].
    intros v. unfold retuneFilter. destruct (onlyActive v); reflexivity.
  - eapply poolOf_same; eauto.
Qed.

Lemma stopAll_poolOf n (slots : list nat) (e : AudioEngine) :
  poolOf n e → poolOf n (foldl (λ e slot, stopVoice e slot true) e slots).
Proof.
  revert e. induction slots as [|slot slots IH]; intros e Hpool; [exact Hpool |].
  simpl. apply IH, stopVoice_poolOf, Hpool.
Qed.

Lemma step_poolOf n (e : AudioEngine) (ev : Event) :
  poolOf n e → poolOf n (step e ev).
Proof.
  intros Hpool. destruct ev; simpl.
  - apply noteOn_poolOf, Hpool.
  - apply noteOff_poolOf, Hpool.
  - eapply (poolOf_map n (bendVoice e (Math_pow 2 (bendValue * 2 / 12))));
      [exact Hpool | reflexivity |].
    intros v. unfold bendVoice. destruct (Voice.note v); [| reflexivity].
    destruct (sounding v); reflexivity.
  - apply updateParams_poolOf, Hpool.
  - eapply poolOf_same; [apply stopAll_poolOf; exact Hpool | reflexivity].
  - apply fireTimeout_poolOf, Hpool.
  - eapply poolOf_same; eauto.
  - eapply poolOf_same; eauto.
Qed.

Lemma construct_poolOf polyphony audioContext nextTimeoutId initialParams :
  poolOf polyphony (construct polyphony audioContext nextTimeoutId initialParams).
Proof.
  unfold construct.
  match goal with |- poolOf _ (applyParamsToEngineGlobally ?e0 ?p) =>
    destruct (applyParamsToEngineGlobally_frame e0 p) as (Hv & _);
    apply (poolOf_same _ e0 _); [| exact Hv]
  end.
  split; simpl.
  - rewrite length_fmap, length_seq. reflexivity.
  - intros slot v Hv'. rewrite list_lookup_fmap in Hv'.
    destruct (seq 0 polyphony !! slot) as [k |] eqn:Hk; [| discriminate].
    injection Hv' as <-. simpl. apply lookup_seq in Hk. lia.
Qed.

Lemma run_poolOf n (events : list Event) (e : AudioEngine) :
  poolOf n e → poolOf n (run e events).
Proof.
  revert e. induction events as [|ev events IH]; intros e Hpool; [exact Hpool |].
  simpl. apply IH, step_poolOf, Hpool.
Qed.

(** X8: the pool never changes shape: whatever the events, an engine built
    with [polyphony] voices has exactly [polyphony] voices, and the voice in
    each slot has that slot as its [id]. *)
Theorem pool_is_fixed polyphony audioContext nextTimeoutId initialParams
    (events : list Event) :
  let e := run (construct polyphony audioContext nextTimeoutId initialParams) events in
  length (Engine.voices e) = polyphony
  ∧ ∀ slot v, Engine.voices e !! slot = Some v → Voice.id v = slot.
Proof. apply run_poolOf, construct_poolOf. Qed.

(** ** Further properties: release, cleanup and dispose *)

Lemma holdsNote_note note v : holdsNote note v → Voice.note v = Some note.
Proof.
  unfold holdsNote, note_is. intros H. apply andb_prop_elim in H as [Hn _].
  destruct (Voice.note v) as [n |]; [| destruct Hn].
  apply Is_true_true, Z.eqb_eq in Hn. congruence.
Qed.

(** X9: in an engine reached from the constructor, [noteOff] on the voice
    that holds the note releases the amplitude toward 0 over [max(0.001,
    ampEnvelope.release)] and the filter frequency over [max(0.001,
    filterEnvelope.release)] toward the configured cutoff, shifted by
    keyboard tracking and clamped when tracking is positive and the note is
    not 0; for note 0 the test [voice.note] fails and the target is the
    configured cutoff, without the shift that [noteOn] applied. *)
Theorem noteOff_release_targets polyphony audioContext nextTimeoutId initialParams
    (events : list Event) (note : Z) (slot : nat) (v : PolyVoice) :
  let e := run (construct polyphony audioContext nextTimeoutId initialParams) events in
  Engine.voices e !! slot = Some v → holdsNote note v →
  let params := Engine.currentParams e in
  let filter := Params.filter params in
  let now := Ctx.currentTime (Engine.audioContext e) in
  let target :=
    if (note =? 0)%Z then FilterP.cutoff filter
    else if Qlt_le_dec 0 (FilterP.keyboardTracking filter)
         then Qmax 20 (Qmin (Ctx.sampleRate (Engine.audioContext e) / 2)
                (FilterP.cutoff filter
                 + (inject_Z note - 60) * (FilterP.keyboardTracking filter * 20)))
         else FilterP.cutoff filter in
  ∃ v' pinnedGain pinnedCutoff,
    Engine.voices (noteOff e note) !! slot = Some v'
    ∧ Gain.gain (Voice.vcaNode v')
      = Gain.gain (Voice.vcaNode v)
        ++ [ CancelScheduledValues now;
             SetValueAtTime pinnedGain now;
             LinearRampToValueAtTime 0
               (now + Qmax 0.001 (EnvP.release (Params.ampEnvelope params))) ]
    ∧ Biquad.frequency (Voice.filterNode v')
      = Biquad.frequency (Voice.filterNode v)
        ++ [ CancelScheduledValues now;
             SetValueAtTime pinnedCutoff now;
             LinearRampToValueAtTime target
               (now + Qmax 0.001 (EnvP.release (Params.filterEnvelope params))) ]
    ∧ Biquad.type (Voice.filterNode v') = Biquad.type (Voice.filterNode v)
    ∧ Biquad.Q (Voice.filterNode v') = Biquad.Q (Voice.filterNode v).
Proof.
  intros e Hslot Hholds params filter now target.
  assert (Hinv : Invariant e) by apply run_Invariant, construct_Invariant.
  rewrite (noteOff_single e note slot v Hinv Hslot Hholds).
  pose proof (holdsNote_note _ _ Hholds) as Hnote.
  assert (Hlt : (slot < length (Engine.voices e))%nat)
    by (eapply lookup_lt_Some; eauto).
  unfold noteOff_voice. rewrite Hslot, Hnote. simpl. rewrite Z.eqb_refl. simpl.
  rewrite andb_false_r. simpl. eexists _, _, _.
  split; [apply list_lookup_insert_eq; exact Hlt |]. simpl.
  unfold releaseEnvelope, call. rewrite <- !app_assoc. simpl.
  split; [reflexivity |]. split; [| split; reflexivity].
  do 4 f_equal. subst target. unfold trackedCutoff, clampCutoff.
  destruct (note =? 0)%Z; reflexivity.
Qed.

(** X10: release then cleanup frees the voice: in an engine reached from the
    constructor, after [noteOff] on the voice that holds the note and the
    firing of the timer it registered, that voice has no note, velocity 0,
    start time 0, is neither active nor releasing, has no component and no
    timer handle, no pending timer targets its slot, and every other voice
    is as [noteOff] left it. *)
Theorem release_then_cleanup_frees polyphony audioContext nextTimeoutId initialParams
    (events : list Event) (note : Z) (slot : nat) (v : PolyVoice) :
  let e := run (construct polyphony audioContext nextTimeoutId initialParams) events in
  Engine.voices e !! slot = Some v → holdsNote note v →
  let released := noteOff e note in
  let cleaned := fireTimeout released (Engine.nextTimeoutId e) in
  (∃ v', Engine.voices cleaned !! slot = Some v'
         ∧ Voice.note v' = None ∧ Voice.velocity v' = 0 ∧ Voice.startTime v' = 0
         ∧ isReset v')
  ∧ noTimeoutFor slot cleaned
  ∧ ∀ j, j ≠ slot → Engine.voices cleaned !! j = Engine.voices released !! j.
Proof.
  intros e Hslot Hholds released cleaned.
  assert (Hinv : Invariant e) by apply run_Invariant, construct_Invariant.
  destruct (noteOff_cleanup e note slot v Hinv Hslot Hholds)
    as (v' & Hv' & Hnote' & _ & Hrel' & _ & _ & _ & _ & _ & Hfind).
  simpl in Hfind.
  assert (Hfire : cleaned
                  = stopVoice (withoutTimeout (Engine.nextTimeoutId e) released)
                      slot false).
  { subst cleaned. pose proof (fireTimeout_cases released (Engine.nextTimeoutId e)) as Hc.
    fold released in Hfind, Hv'. rewrite Hfind in Hc. simpl in Hc.
    rewrite Hv', Hrel', Hnote' in Hc. simpl in Hc. rewrite Z.eqb_refl in Hc.
    exact Hc. }
  assert (Hinv' : Invariant cleaned).
  { subst cleaned. apply fireTimeout_Invariant, noteOff_Invariant, Hinv. }
  assert (Hlook : Engine.voices (withoutTimeout (Engine.nextTimeoutId e) released) !! slot
                  = Some v') by exact Hv'.
  split; [| split].
  - rewrite Hfire. eexists. split; [apply stopVoice_lookup; exact Hlook |].
    simpl. repeat split.
  - intros t Ht Htarget.
    destruct (inv_timeout_owner cleaned Hinv' t Ht) as (w & Hw & Hin).
    rewrite Htarget, Hfire, (stopVoice_lookup _ _ _ _ Hlook) in Hw.
    injection Hw as <-. simpl in Hin. inversion Hin.
  - intros j Hj. rewrite Hfire, stopVoice_lookup_ne by exact Hj. reflexivity.
Qed.

(** X11: a note just played is never cut by a cleanup timer: in an engine
    reached from the constructor with at least one voice, after [noteOn] no
    pending timer targets the slot of the new note, and whichever timer
    fires next, the voice of that slot is exactly as [noteOn] wrote it. *)
Theorem fresh_note_survives_timers polyphony audioContext nextTimeoutId initialParams
    (events : list Event) (note : Z) (velocity : Q) :
  polyphony ≠ 0%nat →
  let e := run (construct polyphony audioContext nextTimeoutId initialParams) events in
  ∃ slot voice,
    (findVoiceForNoteOn (resumeIfSuspended e) note).2 = Some slot
    ∧ Engine.voices (noteOn e note velocity) !! slot = Some voice
    ∧ Voice.note voice = Some note ∧ Voice.isActive voice = true
    ∧ noTimeoutFor slot (noteOn e note velocity)
    ∧ ∀ handle,
        Engine.voices (fireTimeout (noteOn e note velocity) handle) !! slot
        = Some voice.
Proof.
  intros Hpoly e.
  assert (Hinv : Invariant e) by apply run_Invariant, construct_Invariant.
  assert (Hpool : Engine.voices e ≠ []).
  { destruct (run_poolOf polyphony events _
                (construct_poolOf polyphony audioContext nextTimeoutId initialParams))
      as [Hlen _]. fold e in Hlen.
    destruct (Engine.voices e); [simpl in Hlen; congruence | discriminate]. }
  destruct (noteOn_written e note velocity Hpool)
    as (e' & slot & v0 & Hfind & Hlook & _).
  set (voice := noteOn_voice e' note velocity v0) in *.
  assert (Hnote : Voice.note voice = Some note) by reflexivity.
  assert (Hact : Voice.isActive voice = true) by reflexivity.
  assert (Hlist : Voice.scheduledStopTimeouts voice = []) by reflexivity.
  pose proof (noteOn_Invariant e note velocity Hinv) as Hinv'.
  assert (Hnone : noTimeoutFor slot (noteOn e note velocity)).
  { intros t Ht Htarget.
    destruct (inv_timeout_owner _ Hinv' t Ht) as (w & Hw & Hin).
    rewrite Htarget, Hlook in Hw. injection Hw as <-.
    rewrite Hlist in Hin. inversion Hin. }
  exists slot, voice. repeat (split; [assumption |]).
  intros handle. pose proof (fireTimeout_cases (noteOn e note velocity) handle) as Hc.
  destruct (list_find _ (Engine.timeouts (noteOn e note velocity)))
    as [[i timer] |] eqn:Hfindt; [| rewrite Hc; exact Hlook].
  apply list_find_Some in Hfindt as (Hi & _ & _).
  assert (Hne : slot ≠ Timer.voice timer).
  { intros Heq. apply (Hnone timer); [| congruence].
    apply list_elem_of_lookup. eauto. }
  destruct (Engine.voices (noteOn e note velocity) !! Timer.voice timer) as [w |];
    [destruct (Voice.isReleasing w && note_is (Timer.note timer) (Voice.note w)) |];
    rewrite Hc; try exact Hlook.
  rewrite stopVoice_lookup_ne by exact Hne. exact Hlook.
Qed.

Lemma stopVoice_keeps_free (e : AudioEngine) slot hardStop j w :
  Engine.voices e !! j = Some w → isFree w →
  ∃ w', Engine.voices (stopVoice e slot hardStop) !! j = Some w' ∧ isFree w'.
Proof.
  intros Hj Hw. destruct (decide (j = slot)) as [-> | Hne].
  - eexists. split; [apply stopVoice_lookup; exact Hj | apply stopVoice_voice_free].
  - exists w. rewrite stopVoice_lookup_ne by exact Hne. auto.
Qed.

Lemma stopAll_keeps_free (slots : list nat) (e : AudioEngine) j w :
  Engine.voices e !! j = Some w → isFree w →
  ∃ w', Engine.voices (foldl (λ e slot, stopVoice e slot true) e slots) !! j = Some w'
        ∧ isFree w'.
Proof.
  revert e w. induction slots as [|slot slots IH]; intros e w Hj Hw; [eauto |].
  simpl. destruct (stopVoice_keeps_free e slot true j w Hj Hw) as (w1 & Hj1 & Hw1).
  eapply IH; eauto.
Qed.

Lemma stopAll_frees (slots : list nat) (e : AudioEngine) j w :
  j ∈ slots → Engine.voices e !! j = Some w →
  ∃ w', Engine.voices (foldl (λ e slot, stopVoice e slot true) e slots) !! j = Some w'
        ∧ isFree w'.
Proof.
  revert e w. induction slots as [|slot slots IH]; intros e w Hin Hj;
    [inversion Hin |].
  simpl. destruct (decide (j = slot)) as [-> | Hne].
  - eapply stopAll_keeps_free;
      [apply stopVoice_lookup; exact Hj | apply stopVoice_voice_free].
  - apply elem_of_cons in Hin as [Heq | Hin]; [contradiction |].
    eapply IH; [exact Hin |]. rewrite stopVoice_lookup_ne by exact Hne. exact Hj.
Qed.

(** X12: [dispose] leaves nothing behind in an engine reached from the
    constructor: every voice is neither active nor releasing and has no
    component and no timer handle, no timer is pending, the three LFO nodes
    are gone, the master gain is disconnected, and [close] was called unless
    the context was already closed. *)
Theorem dispose_quiesces polyphony audioContext nextTimeoutId initialParams
    (events : list Event) :
  let e := run (construct polyphony audioContext nextTimeoutId initialParams) events in
  (∀ slot v, Engine.voices (dispose e) !! slot = Some v → isReset v)
  ∧ Engine.timeouts (dispose e) = []
  ∧ Engine.lfoOscNode (dispose e) = None
  ∧ Engine.lfoGainPitchNode (dispose e) = None
  ∧ Engine.lfoGainFilterNode (dispose e) = None
  ∧ Engine.masterConnected (dispose e) = false
  ∧ (Ctx.state (Engine.audioContext e) ≠ closed →
     Ctx.closeCalled (Engine.audioContext (dispose e)) = true)
  ∧ length (Engine.voices (dispose e)) = length (Engine.voices e).
Proof.
  intros e.
  assert (Hinv : Invariant e) by apply run_Invariant, construct_Invariant.
  pose proof (dispose_Invariant e Hinv) as Hinv'.
  set (stopped := foldl (λ e slot, stopVoice e slot true) e
                    (seq 0 (length (Engine.voices e)))).
  assert (Hvoices : Engine.voices (dispose e) = Engine.voices stopped) by reflexivity.
  assert (Hlen : ∀ slots e0,
            length (Engine.voices (foldl (λ e slot, stopVoice e slot true) e0 slots))
            = length (Engine.voices e0)).
  { induction slots as [|s slots IH]; intros e0; [reflexivity |].
    simpl. rewrite IH. apply stopVoice_frame. }
  assert (Hctx : ∀ slots e0,
            Engine.audioContext (foldl (λ e slot, stopVoice e slot true) e0 slots)
            = Engine.audioContext e0).
  { induction slots as [|s slots IH]; intros e0; [reflexivity |].
    simpl. rewrite IH. apply stopVoice_frame. }
  assert (Hfree : ∀ slot v, Engine.voices (dispose e) !! slot = Some v → isFree v).
  { intros slot v Hv. rewrite Hvoices in Hv.
    assert (Hlt : (slot < length (Engine.voices e))%nat).
    { apply lookup_lt_Some in Hv. subst stopped. rewrite Hlen in Hv. exact Hv. }
    destruct (lookup_lt_is_Some_2 _ _ Hlt) as [w Hw].
    destruct (stopAll_frees (seq 0 (length (Engine.voices e))) e slot w)
      as (w' & Hw' & Hfree'); [apply elem_of_seq; lia | exact Hw |].
    fold stopped in Hw'. rewrite Hv in Hw'. injection Hw' as <-. exact Hfree'. }
  assert (Hreset : ∀ slot v, Engine.voices (dispose e) !! slot = Some v → isReset v).
  { intros slot v Hv. eapply (inv_free_reset _ Hinv'); eauto. }
  split; [exact Hreset |]. split.
  { destruct (Engine.timeouts (dispose e)) as [|t rest] eqn:Ht; [reflexivity |].
    exfalso. destruct (inv_timeout_owner _ Hinv' t) as (w & Hw & Hin);
      [rewrite Ht; left |].
    destruct (Hreset _ _ Hw) as (_ & _ & _ & _ & _ & Hlist).
    rewrite Hlist in Hin. inversion Hin. }
  repeat (split; [reflexivity |]). split.
  - intros Hstate. unfold dispose. simpl. fold stopped.
    rewrite (Hctx _ e : Engine.audioContext stopped = Engine.audioContext e).
    destruct (Ctx.state (Engine.audioContext e)); [reflexivity | reflexivity | congruence].
  - rewrite Hvoices. apply Hlen.
Qed.

(** ** Further properties: parameter updates and the LFO *)

Lemma setupLFO_nodes (e : AudioEngine) lfoParams :
  Engine.currentParams (setupLFO e lfoParams) = Engine.currentParams e
  ∧ if LfoP.enabled lfoParams then
      ∃ osc pitch filter,
        Engine.lfoOscNode (setupLFO e lfoParams) = Some osc
        ∧ Engine.lfoGainPitchNode (setupLFO e lfoParams) = Some pitch
        ∧ Engine.lfoGainFilterNode (setupLFO e lfoParams) = Some filter
        ∧ OscNode.type osc = LfoP.waveform lfoParams
    else
      Engine.lfoOscNode (setupLFO e lfoParams) = None
      ∧ Engine.lfoGainPitchNode (setupLFO e lfoParams) = None
      ∧ Engine.lfoGainFilterNode (setupLFO e lfoParams) = None.
Proof.
  unfold setupLFO. destruct (LfoP.enabled lfoParams); simpl; split; auto.
  eexists _, _, _. repeat split.
Qed.

(** The LFO nodes exist together or not at all. *)
Lemma lfoAsConfigured_whole (e : AudioEngine) :
  lfoAsConfigured e →
  match Engine.lfoOscNode e with
  | Some _ => is_Some (Engine.lfoGainPitchNode e) ∧ is_Some (Engine.lfoGainFilterNode e)
  | None => Engine.lfoGainPitchNode e = None ∧ Engine.lfoGainFilterNode e = None
  end.
Proof.
  unfold lfoAsConfigured. destruct (LfoP.enabled _).
  - intros (osc & pitch & filter & -> & -> & -> & _). split; eauto.
  - intros (-> & -> & ->). auto.
Qed.

Lemma updateParams_lfoAsConfigured (e : AudioEngine) newParams :
  lfoAsConfigured e → lfoAsConfigured (updateParams e newParams).
Proof.
  intros Hold. apply lfoAsConfigured_whole in Hold.
  unfold updateParams.
  set (e0 := Engine.set_currentParams newParams e).
  set (e1 := applyParamsToEngineGlobally e0 (Engine.currentParams e0)).
  assert (H1 : Engine.currentParams e1 = newParams ∧ lfoAsConfigured e1).
  { subst e1. unfold applyParamsToEngineGlobally, lfoAsConfigured.
    change (Engine.currentParams e0) with newParams.
    destruct (LfoP.enabled (Params.lfo newParams)) eqn:Hen.
    - destruct (lfoOutdated _ _) eqn:Hout.
      + match goal with |- context [setupLFO ?x ?l] =>
          destruct (setupLFO_nodes x l) as (Hp & Hnodes);
          set (s := setupLFO x l) in *
        end.
        rewrite Hen in Hnodes.
        destruct Hnodes as (osc & pitch & filter & Ho & Hpi & Hf & Hty).
        simpl in Hp. simpl. rewrite Hp, Hen, Ho, Hpi, Hf. simpl.
        split; [reflexivity |]. eexists _, _, _. repeat split. exact Hty.
      + simpl. rewrite Hen. unfold lfoOutdated in Hout. simpl in Hout.
        destruct (Engine.lfoOscNode e) as [osc |] eqn:Ho; [| discriminate].
        destruct Hold as [[pitch ->] [filter ->]]. simpl.
        split; [reflexivity |]. eexists _, _, _. repeat split.
        apply orb_false_elim in Hout as [Hty _].
        apply negb_false_iff in Hty. apply internal_Waveform_dec_bl. exact Hty.
    - simpl. destruct (Engine.lfoOscNode e) as [osc |] eqn:Ho; simpl; rewrite Hen.
      + auto.
      + destruct Hold as [-> ->]. auto. }
  destruct H1 as [Hp1 Hl1].
  set (e2 := if _ || _ then _ else e1).
  assert (H2 : Engine.currentParams e2 = newParams ∧ lfoAsConfigured e2).
  { subst e2. match goal with |- context [if ?c then _ else _] => destruct c end;
      [| auto]. split; [exact Hp1 | exact Hl1]. }
  destruct H2 as [Hp2 Hl2].
  destruct (lfoConfigChanged _ _); [| exact Hl2].
  destruct (LfoP.enabled (Params.lfo newParams)) eqn:Hen.
  - destruct (setupLFO_nodes e2 (Params.lfo newParams)) as (Hp & Hnodes).
    unfold lfoAsConfigured. rewrite Hp, Hp2, Hen. rewrite Hen in Hnodes. exact Hnodes.
  - unfold lfoAsConfigured. simpl. rewrite Hp2, Hen. auto.
Qed.

Lemma lfoAsConfigured_frame (e e' : AudioEngine) :
  Engine.currentParams e' = Engine.currentParams e →
  Engine.lfoOscNode e' = Engine.lfoOscNode e →
  Engine.lfoGainPitchNode e' = Engine.lfoGainPitchNode e →
  Engine.lfoGainFilterNode e' = Engine.lfoGainFilterNode e →
  lfoAsConfigured e → lfoAsConfigured e'.
Proof. unfold lfoAsConfigured. intros -> -> -> ->. auto. Qed.

Lemma noteOn_keeps (e : AudioEngine) note velocity :
  Engine.currentParams (noteOn e note velocity) = Engine.currentParams e
  ∧ Engine.pitchBendMultiplier (noteOn e note velocity) = Engine.pitchBendMultiplier e
  ∧ Engine.now (noteOn e note velocity) = Engine.now e
  ∧ Engine.lfoOscNode (noteOn e note velocity) = Engine.lfoOscNode e
  ∧ Engine.lfoGainPitchNode (noteOn e note velocity) = Engine.lfoGainPitchNode e
  ∧ Engine.lfoGainFilterNode (noteOn e note velocity) = Engine.lfoGainFilterNode e.
Proof.
  assert (H0 : Engine.currentParams (resumeIfSuspended e) = Engine.currentParams e
               ∧ Engine.pitchBendMultiplier (resumeIfSuspended e)
                 = Engine.pitchBendMultiplier e
               ∧ Engine.now (resumeIfSuspended e) = Engine.now e
               ∧ Engine.lfoOscNode (resumeIfSuspended e) = Engine.lfoOscNode e
               ∧ Engine.lfoGainPitchNode (resumeIfSuspended e) = Engine.lfoGainPitchNode e
               ∧ Engine.lfoGainFilterNode (resumeIfSuspended e)
                 = Engine.lfoGainFilterNode e).
  { unfold resumeIfSuspended. destruct (Ctx.state _); auto 10. }
  assert (Hs : ∀ e0 slot,
            Engine.currentParams (stopVoice e0 slot true) = Engine.currentParams e0
            ∧ Engine.pitchBendMultiplier (stopVoice e0 slot true)
              = Engine.pitchBendMultiplier e0
            ∧ Engine.now (stopVoice e0 slot true) = Engine.now e0
            ∧ Engine.lfoOscNode (stopVoice e0 slot true) = Engine.lfoOscNode e0
            ∧ Engine.lfoGainPitchNode (stopVoice e0 slot true) = Engine.lfoGainPitchNode e0
            ∧ Engine.lfoGainFilterNode (stopVoice e0 slot true)
              = Engine.lfoGainFilterNode e0).
  { intros e0 slot. unfold stopVoice. destruct (Engine.voices e0 !! slot); auto 10. }
  unfold noteOn.
  destruct (findVoiceForNoteOn_either (resumeIfSuspended e) note)
    as [[r ->] | [slot ->]].
  - destruct r as [slot |]; [| exact H0].
    destruct (Engine.voices (resumeIfSuspended e) !! slot); exact H0.
  - destruct (Hs (resumeIfSuspended e) slot) as (A & B & C & D & E & F).
    destruct H0 as (A0 & B0 & C0 & D0 & E0 & F0).
    destruct (Engine.voices (stopVoice (resumeIfSuspended e) slot true) !! slot);
      simpl; unfold Engine.now in *; simpl;
      rewrite ?A, ?B, ?C, ?D, ?E, ?F; auto 10.
Qed.

Lemma noteOff_lfo (e : AudioEngine) note :
  Engine.lfoOscNode (noteOff e note) = Engine.lfoOscNode e
  ∧ Engine.lfoGainPitchNode (noteOff e note) = Engine.lfoGainPitchNode e
  ∧ Engine.lfoGainFilterNode (noteOff e note) = Engine.lfoGainFilterNode e.
Proof.
  unfold noteOff. generalize (filter (λ iv : nat * PolyVoice, holdsNote note iv.2)
                                (indexed (Engine.voices e))).*1.
  intros slots. revert e. induction slots as [|slot slots IH]; intros e; [auto |].
  simpl. destruct (IH (noteOff_voice note e slot)) as (-> & -> & ->).
  unfold noteOff_voice. destruct (Engine.voices e !! slot) as [v |]; [| auto].
  destruct (negb (Voice.isActive v) && Voice.isReleasing v
            && negb (note_is note (Voice.note v))); auto.
Qed.

Lemma stopVoice_lfoAsConfigured (e : AudioEngine) slot hardStop :
  lfoAsConfigured e → lfoAsConfigured (stopVoice e slot hardStop).
Proof.
  destruct (stopVoice_lfo e slot hardStop) as (A & B & C & _).
  destruct (stopVoice_frame e slot hardStop) as (_ & D & _).
  apply lfoAsConfigured_frame; assumption.
Qed.

Lemma step_lfoAsConfigured (e : AudioEngine) (ev : Event) :
  ev ≠ Dispose → lfoAsConfigured e → lfoAsConfigured (step e ev).
Proof.
  intros Hev Hl. destruct ev; simpl; try congruence.
  - destruct (noteOn_keeps e note velocity) as (A & _ & _ & B & C & D).
    eapply lfoAsConfigured_frame; eauto.
  - assert (A : Engine.currentParams (noteOff e note) = Engine.currentParams e)
      by (unfold noteOff; apply noteOff_fold_keeps).
    destruct (noteOff_lfo e note) as (B & C & D).
    eapply lfoAsConfigured_frame; eauto.
  - eapply lfoAsConfigured_frame; [| | | | exact Hl]; reflexivity.
  - apply updateParams_lfoAsConfigured, Hl.
  - pose proof (fireTimeout_cases e handle) as Hc.
    assert (Hw : lfoAsConfigured (withoutTimeout handle e))
      by (eapply lfoAsConfigured_frame; [| | | | exact Hl]; reflexivity).
    destruct (list_find _ (Engine.timeouts e)) as [[i timer] |];
      [| rewrite Hc; exact Hl].
    destruct (Engine.voices e !! Timer.voice timer) as [voice |];
      [destruct (Voice.isReleasing voice && note_is (Timer.note timer) (Voice.note voice)) |];
      rewrite Hc; try assumption.
    apply stopVoice_lfoAsConfigured, Hw.
  - eapply lfoAsConfigured_frame; [| | | | exact Hl]; reflexivity.
  - eapply lfoAsConfigured_frame; [| | | | exact Hl]; reflexivity.
Qed.


Lemma construct_lfoAsConfigured polyphony audioContext nextTimeoutId initialParams :
  lfoAsConfigured (construct polyphony audioContext nextTimeoutId initialParams).
Proof.
  unfold construct, applyParamsToEngineGlobally, lfoAsConfigured. simpl.
  destruct (LfoP.enabled (Params.lfo initialParams)) eqn:Hen; simpl.
  - unfold setupLFO. simpl. rewrite Hen. simpl. rewrite Hen.
    eexists _, _, _. repeat split.
  - rewrite Hen. auto.
Qed.

Lemma run_lfoAsConfigured (events : list Event) (e : AudioEngine) :
  Dispose ∉ events → lfoAsConfigured e → lfoAsConfigured (run e events).
Proof.
  revert e. induction events as [|ev events IH]; intros e Hno Hl; [exact Hl |].
  apply not_elem_of_cons in Hno as [Hev Hno].
  simpl. apply IH; [exact Hno |]. apply step_lfoAsConfigured; [congruence | exact Hl].
Qed.

(** X13: as long as the engine is not disposed, the LFO nodes follow the
    current parameters: when the LFO is enabled the oscillator and both gain
    taps exist and the oscillator has the configured waveform; when it is
    disabled none of the three exists. *)
Theorem lfo_follows_params polyphony audioContext nextTimeoutId initialParams
    (events : list Event) :
  Dispose ∉ events →
  let e := run (construct polyphony audioContext nextTimeoutId initialParams) events in
  let lfo := Params.lfo (Engine.currentParams e) in
  if LfoP.enabled lfo then
    ∃ osc pitch filter,
      Engine.lfoOscNode e = Some osc
      ∧ Engine.lfoGainPitchNode e = Some pitch
      ∧ Engine.lfoGainFilterNode e = Some filter
      ∧ OscNode.type osc = LfoP.waveform lfo
  else
    Engine.lfoOscNode e = None
    ∧ Engine.lfoGainPitchNode e = None
    ∧ Engine.lfoGainFilterNode e = None.
Proof.
  intros Hno. apply (run_lfoAsConfigured events _ Hno), construct_lfoAsConfigured.
Qed.

Lemma updateParams_currentParams (e : AudioEngine) newParams :
  Engine.currentParams (updateParams e newParams) = newParams.
Proof.
  unfold updateParams.
  set (e0 := Engine.set_currentParams newParams e).
  assert (Hs : ∀ x l, Engine.currentParams (setupLFO x l) = Engine.currentParams x)
    by (intros x l; apply setupLFO_nodes).
  assert (H1 : Engine.currentParams
                 (applyParamsToEngineGlobally e0 (Engine.currentParams e0)) = newParams).
  { unfold applyParamsToEngineGlobally.
    destruct (LfoP.enabled _).
    - destruct (lfoOutdated _ _); simpl; [rewrite Hs |]; reflexivity.
    - simpl. destruct (Engine.lfoOscNode e); reflexivity. }
  set (e1 := applyParamsToEngineGlobally _ _) in *.
  set (e2 := if _ || _ then _ else e1).
  assert (H2 : Engine.currentParams e2 = newParams).
  { subst e2. match goal with |- context [if ?c then _ else _] => destruct c end;
      exact H1. }
  destruct (lfoConfigChanged _ _); [| exact H2].
  destruct (LfoP.enabled (Params.lfo newParams)); [rewrite Hs |]; exact H2.
Qed.

(** X14: [updateParams] stores the new parameters and never changes a note,
    a flag, a component, an amplitude trace or a filter-frequency trace of a
    voice.  A voice that is releasing or free keeps its filter exactly; so
    does every voice when neither the filter type nor the resonance changed.
    When one of them changed, every voice that is active and not releasing
    gets the new filter type. *)
Theorem updateParams_filter_push (e : AudioEngine) (newParams : SynthParams)
    (slot : nat) (v : PolyVoice) :
  Engine.voices e !! slot = Some v →
  let changed :=
    negb (BiquadFilterType_beq
            (FilterP.type (Params.filter (Engine.currentParams e)))
            (FilterP.type (Params.filter newParams)))
    || negb (Qeq_bool
               (FilterP.resonance (Params.filter (Engine.currentParams e)))
               (FilterP.resonance (Params.filter newParams))) in
  Engine.currentParams (updateParams e newParams) = newParams
  ∧ ∃ v',
      Engine.voices (updateParams e newParams) !! slot = Some v'
      ∧ Voice.note v' = Voice.note v ∧ Voice.velocity v' = Voice.velocity v
      ∧ Voice.isActive v' = Voice.isActive v
      ∧ Voice.isReleasing v' = Voice.isReleasing v
      ∧ Voice.startTime v' = Voice.startTime v
      ∧ Voice.oscillators v' = Voice.oscillators v
      ∧ Voice.noiseNode v' = Voice.noiseNode v
      ∧ Voice.noiseGainNode v' = Voice.noiseGainNode v
      ∧ Voice.vcaNode v' = Voice.vcaNode v
      ∧ Biquad.frequency (Voice.filterNode v') = Biquad.frequency (Voice.filterNode v)
      ∧ Voice.scheduledStopTimeouts v' = Voice.scheduledStopTimeouts v
      ∧ (changed = false → v' = v)
      ∧ (onlyActive v = false → v' = v)
      ∧ (changed = true → onlyActive v = true →
         Biquad.type (Voice.filterNode v') = FilterP.type (Params.filter newParams)).
Proof.
  intros Hslot changed. split; [apply updateParams_currentParams |].
  destruct (updateParams_voices e newParams) as (e1 & _ & _ & Hv).
  fold changed in Hv. rewrite Hv. destruct changed.
  - exists (retuneFilter e1 (Params.filter newParams) v).
    split; [rewrite list_lookup_fmap, Hslot; reflexivity |].
    unfold retuneFilter. destruct (onlyActive v) eqn:Hact.
    + simpl. repeat (split; [reflexivity |]).
      split; [discriminate |]. split; [discriminate |]. intros _ _.
      destruct (BiquadFilterType_beq _ _) eqn:Hty; [| reflexivity].
      apply internal_BiquadFilterType_dec_bl. exact Hty.
    + repeat split; try reflexivity; intros; discriminate.
  - exists v. split; [exact Hslot |].
    repeat split; try reflexivity; intros; discriminate.
Qed.

(** ** Further properties: pitch bend on aligned descriptors *)

Lemma filter_all {A : Type} (test : A → bool) (l : list A) :
  (∀ x, x ∈ l → test x = true) → filter (λ x, test x) l = l.
Proof.
  induction l as [|a l IH]; intros Hall; [reflexivity |].
  rewrite filter_cons_True by (apply Is_true_true, Hall; left).
  rewrite IH; [reflexivity |]. intros x Hx. apply Hall. right. exact Hx.
Qed.

(** X15: when every oscillator descriptor is enabled with a level other than
    0, and no descriptor id has the form waveform + note + index, the
    oscillators of a voice line up with the descriptors and [setPitchBend]
    retunes a note just played as intended: the multiplier becomes
    [2^(bendValue * 2 / 12)] and the oscillator built from descriptor [i] is
    ramped, 10 ms after [now], to the unbent tuned frequency of that
    descriptor times the new multiplier. *)
Theorem setPitchBend_retunes_aligned (e : AudioEngine) (note : Z)
    (velocity bendValue : Q) :
  Engine.voices e ≠ [] →
  (∀ p, p ∈ Params.oscillators (Engine.currentParams e) →
        OscP.enabled p && negb (Qeq_bool (OscP.level p) 0) = true) →
  plainIds (Engine.currentParams e) →
  let now := Ctx.currentTime (Engine.audioContext e) in
  let bent := setPitchBend (noteOn e note velocity) bendValue in
  Engine.pitchBendMultiplier bent = Math_pow 2 (bendValue * 2 / 12)
  ∧ ∃ slot voice,
      (findVoiceForNoteOn (resumeIfSuspended e) note).2 = Some slot
      ∧ Engine.voices bent !! slot = Some voice
      ∧ length (Voice.oscillators voice)
        = length (Params.oscillators (Engine.currentParams e))
      ∧ ∀ i p,
          Params.oscillators (Engine.currentParams e) !! i = Some p →
          ∃ osc,
            Voice.oscillators voice !! i = Some osc
            ∧ OscNode.type (Comp.oscNode osc) = OscP.waveform p
            ∧ OscNode.frequency (Comp.oscNode osc)
              = [ SetValueAtTime
                    (tunedFrequency note p * Engine.pitchBendMultiplier e) now;
                  LinearRampToValueAtTime
                    (tunedFrequency note p * Math_pow 2 (bendValue * 2 / 12))
                    (now + 0.01) ].
Proof.
  intros Hpool Haudible Hplain now bent. split; [reflexivity |].
  destruct (noteOn_written e note velocity Hpool)
    as (e' & slot & v & Hfind & Hlook & Hnow & _ & Hp & Hb).
  destruct (noteOn_keeps e note velocity) as (Kp & _ & Know & _).
  exists slot. eexists. split; [exact Hfind |].
  split.
  { subst bent. unfold setPitchBend. simpl. rewrite list_lookup_fmap, Hlook.
    reflexivity. }
  unfold bendVoice. simpl.
  rewrite Hp, (filter_all audible _ Haudible).
  split; [rewrite length_imap, length_fmap; reflexivity |].
  intros i p Hi. rewrite list_lookup_imap, list_lookup_fmap, Hi. simpl.
  eexists. split; [reflexivity |].
  unfold bendOscillator, resolveOscParam. rewrite Kp.
  assert (Hnone : list_find
                    (λ q, OscP.id q
                          = (Waveform_value
                               (OscNode.type (Comp.oscNode (buildOscillator e' note p)))
                             +:+ Z_toString note +:+ nat_toString i)%string)
                    (Params.oscillators (Engine.currentParams e)) = None).
  { apply list_find_None, Forall_forall. intros q Hq. apply Hplain. exact Hq. }
  rewrite Hnone, Hi.
  assert (Hen : OscP.enabled p = true).
  { specialize (Haudible p). rewrite andb_true_iff in Haudible.
    apply Haudible. apply list_elem_of_lookup. eauto. }
  rewrite Hen. simpl. split; [reflexivity |].
  unfold call, tunedFrequency. simpl. rewrite Hnow, Hb, Know. reflexivity.
Qed.

(** ** Further properties: MIDI messages *)

(** X16: a pitch-bend message with 7-bit data bytes is decoded to the bend
    [(msb * 128 + lsb - 8192) / 8192], which lies in [-1, 1): it never
    reaches 1, and it is 0 exactly at the centre position, lsb 0 and msb 64.
    The channel in the low four bits of the status byte is ignored. *)
Theorem pitchBend_decoding (status lsb msb : Z) :
  Z.land status 0xF0 = 0xE0%Z →
  (0 <= lsb < 128)%Z → (0 <= msb < 128)%Z →
  ∃ bend,
    handleMidiMessage [status; lsb; msb] = Some (onPitchBendEvent (Some bend))
    ∧ bend = inject_Z (msb * 128 + lsb - 8192) / 8192
    ∧ -1 <= bend ∧ bend < 1
    ∧ (bend == 0 ↔ lsb = 0%Z ∧ msb = 64%Z).
Proof.
  intros Hstatus Hlsb Hmsb.
  exists (inject_Z (msb * 128 + lsb - 8192) / 8192).
  split.
  { unfold handleMidiMessage. simpl. rewrite Hstatus. simpl.
    rewrite Z.shiftl_mul_pow2 by lia. reflexivity. }
  split; [reflexivity |].
  set (z := (msb * 128 + lsb - 8192)%Z).
  assert (Hz : (-8192 <= z <= 8191)%Z) by (subst z; lia).
  assert (Hdiv : ∀ a : Z, inject_Z a / 8192 == a # 8192).
  { intros a. unfold Qdiv, Qmult, Qinv, inject_Z, Qeq. simpl. lia. }
  split; [| split].
  - rewrite Hdiv. unfold Qle. simpl. lia.
  - rewrite Hdiv. unfold Qlt. simpl. lia.
  - rewrite Hdiv. unfold Qeq. simpl. subst z. lia.
Qed.

(** X17: [handleMidiMessage] never reports a note-on without a note or with a
    velocity that is missing or not positive: a note message it passes on is
    either a note-on with a note and a positive velocity, or a note-off; a
    note-on status with velocity 0, or with the velocity byte missing, is
    passed on as a note-off with velocity 0. *)
Theorem note_events_wellformed (data : list Z) (message : MidiMessage) :
  handleMidiMessage data = Some (onNoteEvent message) →
  (Midi.command message = MIDI_NOTE_ON
   ∧ Z.land (ToInt32 (data !! 0%nat)) 0xF0 = MIDI_NOTE_ON
   ∧ ∃ note velocity,
       Midi.note message = Some note ∧ Midi.velocity message = Some velocity
       ∧ data !! 1%nat = Some note ∧ data !! 2%nat = Some velocity
       ∧ (0 < velocity)%Z)
  ∨ (Midi.command message = MIDI_NOTE_OFF
     ∧ Midi.note message = data !! 1%nat
     ∧ (Z.land (ToInt32 (data !! 0%nat)) 0xF0 = MIDI_NOTE_OFF
        ∧ Midi.velocity message = data !! 2%nat
        ∨ Z.land (ToInt32 (data !! 0%nat)) 0xF0 = MIDI_NOTE_ON
          ∧ Midi.velocity message = Some 0%Z)).
Proof.
  unfold handleMidiMessage.
  destruct (Z.land (ToInt32 (data !! 0%nat)) 240 =? MIDI_NOTE_ON)%Z eqn:Hon.
  - apply Z.eqb_eq in Hon.
    destruct (data !! 2%nat) as [v |] eqn:Hv.
    + destruct (0 <? v)%Z eqn:Hpos; intros [= <-]; simpl.
      * left. apply Z.ltb_lt in Hpos. split; [exact Hon |]. split; [exact Hon |].
        destruct (data !! 1%nat) as [n |] eqn:Hn; [eauto 10 |].
        apply lookup_ge_None in Hn. apply lookup_lt_Some in Hv. lia.
      * right. auto.
    + intros [= <-]. simpl. right. auto.
  - destruct (Z.land (ToInt32 (data !! 0%nat)) 240 =? MIDI_NOTE_OFF)%Z eqn:Hoff.
    + apply Z.eqb_eq in Hoff. intros [= <-]. simpl. right. auto.
    + destruct (_ =? MIDI_PITCH_BEND)%Z; [discriminate |].
      destruct (_ =? MIDI_CC)%Z; discriminate.
Qed.

(** X18: a note-on message with velocity 0 does to the application exactly
    what a note-off message for the same note does, whatever the channels
    and the release velocity. *)
Theorem note_on_zero_is_note_off (app : AppState) (on off note velocity : Z) :
  Z.land on 0xF0 = 0x90%Z → Z.land off 0xF0 = 0x80%Z →
  onmidimessage app [on; note; 0%Z] = onmidimessage app [off; note; velocity].
Proof.
  intros Hon Hoff. unfold onmidimessage, handleMidiMessage. simpl.
  rewrite Hon, Hoff. simpl. unfold handleNoteEvent. simpl. reflexivity.
Qed.

Lemma onmidimessage_engine (app app' : AppState) (data : list Z) n :
  (∃ e, App.audioEngine app = Some e ∧ Invariant e ∧ poolOf n e) →
  onmidimessage app data = Some app' →
  ∃ e', App.audioEngine app' = Some e' ∧ Invariant e' ∧ poolOf n e'.
Proof.
  intros (e & He & Hinv & Hpool) Hstep.
  assert (Hres : Invariant (resumeIfSuspended e) ∧ poolOf n (resumeIfSuspended e)).
  { destruct (resumeIfSuspended_frame e) as (Hv & Ht & Hn & _).
    split; [eapply Invariant_frame; eauto | eapply poolOf_same; eauto]. }
  destruct Hres as [Hinv0 Hpool0].
  unfold onmidimessage in Hstep.
  destruct (handleMidiMessage data) as [[message | bend | control value] |];
    [| | discriminate | injection Hstep as <-; eauto].
  - unfold handleNoteEvent in Hstep. rewrite He in Hstep.
    destruct (Midi.command message =? MIDI_NOTE_ON)%Z.
    + destruct (Midi.note message) as [note |]; [| discriminate].
      destruct (Midi.velocity message) as [velocity |]; [| discriminate].
      injection Hstep as <-. simpl. eexists. split; [reflexivity |].
      split; [apply noteOn_Invariant | apply noteOn_poolOf]; assumption.
    + destruct (Midi.command message =? MIDI_NOTE_OFF)%Z;
        injection Hstep as <-; simpl; [| eauto].
      destruct (Midi.note message) as [note |]; [| eauto].
      eexists. split; [reflexivity |].
      split; [apply noteOff_Invariant | apply noteOff_poolOf]; assumption.
  - unfold handlePitchBendEvent in Hstep. rewrite He in Hstep.
    destruct bend as [bend |]; [| discriminate]. injection Hstep as <-. simpl.
    eexists. split; [reflexivity |].
    split; [apply setPitchBend_Invariant, Hinv |].
    exact (step_poolOf n e (PitchBend bend) Hpool).
Qed.

(** X19: whatever MIDI messages arrive at an application that holds a newly
    built engine, as long as they stay in the model (no control change, no
    truncated pitch bend) the engine keeps its pool of [polyphony] voices
    and at most one voice holds any given note while active or releasing. *)
Theorem midi_stream_keeps_one_voice_per_note polyphony audioContext nextTimeoutId
    initialParams (label : string) (messages : list (list Z)) (app' : AppState) :
  deliver
    {| App.audioEngine :=
         Some (construct polyphony audioContext nextTimeoutId initialParams);
       App.lastPlayedNote := label |} messages = Some app' →
  ∃ e',
    App.audioEngine app' = Some e'
    ∧ length (Engine.voices e') = polyphony
    ∧ ∀ note, (soundingCount note (Engine.voices e') ≤ 1)%nat.
Proof.
  intros Hdeliver.
  assert (Hgen : ∀ messages app,
            (∃ e, App.audioEngine app = Some e ∧ Invariant e ∧ poolOf polyphony e) →
            deliver app messages = Some app' →
            ∃ e', App.audioEngine app' = Some e' ∧ Invariant e' ∧ poolOf polyphony e').
  { clear Hdeliver. intros msgs. induction msgs as [|data rest IH]; intros app Happ Hd.
    - injection Hd as <-. exact Happ.
    - simpl in Hd. destruct (onmidimessage app data) as [app1 |] eqn:Hstep;
        [| discriminate].
      apply (IH app1); [| exact Hd]. eapply onmidimessage_engine; eauto. }
  assert (Hstart : ∃ e,
            App.audioEngine
              {| App.audioEngine :=
                   Some (construct polyphony audioContext nextTimeoutId initialParams);
                 App.lastPlayedNote := label |} = Some e
            ∧ Invariant e ∧ poolOf polyphony e).
  { eexists. split; [reflexivity |].
    split; [apply construct_Invariant | apply construct_poolOf]. }
  destruct (Hgen messages _ Hstart Hdeliver) as (e' & He' & Hinv & Hlen & _).
  exists e'. split; [exact He' |]. split; [exact Hlen |].
  intros note. apply Invariant_soundingCount, Hinv.
Qed.

(** ** Further properties: the noise buffers *)

Lemma pinkStep_within (s : PinkState) (w : Q) :
  pinkWithin s → -1 <= w <= 1 →
  pinkWithin (pinkStep s w).1
  ∧ - pinkBound <= (pinkStep s w).2 <= pinkBound.
Proof.
  unfold pinkWithin, pinkBound, pinkStep. simpl.
  assert (F0 : 0.99886 * (0.0555179 / (1 - 0.99886)) + 0.0555179
               <= 0.0555179 / (1 - 0.99886))
    by (apply Qle_bool_imp_le; vm_compute; reflexivity).
  assert (F1 : 0.99332 * (0.0750759 / (1 - 0.99332)) + 0.0750759
               <= 0.0750759 / (1 - 0.99332))
    by (apply Qle_bool_imp_le; vm_compute; reflexivity).
  assert (F2 : 0.96900 * (0.1538520 / (1 - 0.96900)) + 0.1538520
               <= 0.1538520 / (1 - 0.96900))
    by (apply Qle_bool_imp_le; vm_compute; reflexivity).
  assert (F3 : 0.86650 * (0.3104856 / (1 - 0.86650)) + 0.3104856
               <= 0.3104856 / (1 - 0.86650))
    by (apply Qle_bool_imp_le; vm_compute; reflexivity).
  assert (F4 : 0.55000 * (0.5329522 / (1 - 0.55000)) + 0.5329522
               <= 0.5329522 / (1 - 0.55000))
    by (apply Qle_bool_imp_le; vm_compute; reflexivity).
  assert (F5 : 0.7616 * (0.0168980 / (1 - 0.7616)) + 0.0168980
               <= 0.0168980 / (1 - 0.7616))
    by (apply Qle_bool_imp_le; vm_compute; reflexivity).
  generalize dependent (0.0555179 / (1 - 0.99886)).
  generalize dependent (0.0750759 / (1 - 0.99332)).
  generalize dependent (0.1538520 / (1 - 0.96900)).
  generalize dependent (0.3104856 / (1 - 0.86650)).
  generalize dependent (0.5329522 / (1 - 0.55000)).
  generalize dependent (0.0168980 / (1 - 0.7616)).
  intros B5 F5 B4 F4 B3 F3 B2 F2 B1 F1 B0 F0.
  intros (H0 & H1 & H2 & H3 & H4 & H5 & H6) Hw.
  repeat split; lra.
Qed.

Lemma pinkLoop_within (whites : list Q) (s : PinkState) :
  pinkWithin s →
  (∀ w, w ∈ whites → -1 <= w <= 1) →
  length (pinkLoop s whites) = length whites
  ∧ ∀ x, x ∈ pinkLoop s whites → - pinkBound <= x <= pinkBound.
Proof.
  revert s. induction whites as [|w whites IH]; intros s Hs Hall.
  - split; [reflexivity |]. intros x Hx. inversion Hx.
  - cbn [pinkLoop].
    destruct (pinkStep_within s w Hs) as [Hs' Hsample]; [apply Hall; left |].
    destruct (pinkStep s w) as [s' sample]. cbn [fst snd length] in *.
    destruct (IH s' Hs') as [Hlen Hrest]; [intros w' Hw'; apply Hall; right; exact Hw' |].
    split; [f_equal; exact Hlen |].
    intros x Hx. apply elem_of_cons in Hx as [-> | Hx]; [exact Hsample | auto].
Qed.

(** X20: when every call of [Math.random()] returns a number in [0, 1), both
    noise buffers have [bufferSize] samples, every white sample lies in
    [-1, 1), and every pink sample lies within [pinkBound], the sum of the
    gains of the six filter poles and the two direct terms scaled by 0.11, a
    little below 7.61. *)
Theorem noise_buffers_bounded (bufferSize : nat) (Math_random : nat → Q) :
  (∀ k, 0 <= Math_random k < 1) →
  let whiteOutput := (preloadNoiseBuffers bufferSize Math_random).1 in
  let pinkOutput := (preloadNoiseBuffers bufferSize Math_random).2 in
  length whiteOutput = bufferSize
  ∧ length pinkOutput = bufferSize
  ∧ (∀ x, x ∈ whiteOutput → -1 <= x < 1)
  ∧ (∀ x, x ∈ pinkOutput → - pinkBound <= x <= pinkBound)
  ∧ pinkBound < 7.61.
Proof.
  intros Hrandom. unfold preloadNoiseBuffers. simpl.
  split; [rewrite length_fmap, length_seq; reflexivity |].
  assert (Hpink := pinkLoop_within
            ((λ i : nat, Math_random (bufferSize + i)%nat * 2 - 1) <$> seq 0 bufferSize)
            {| Pink.b0 := 0; Pink.b1 := 0; Pink.b2 := 0; Pink.b3 := 0;
               Pink.b4 := 0; Pink.b5 := 0; Pink.b6 := 0 |}).
  destruct Hpink as [Hlen Hbound].
  { unfold pinkWithin. simpl.
    repeat split; apply Qle_bool_imp_le; vm_compute; reflexivity. }
  { intros w Hw. apply list_elem_of_fmap in Hw as (i & -> & _).
    specialize (Hrandom (bufferSize + i)%nat). lra. }
  split; [rewrite Hlen, length_fmap, length_seq; reflexivity |].
  split.
  { intros x Hx. apply list_elem_of_fmap in Hx as (i & -> & _).
    specialize (Hrandom i). lra. }
  split; [exact Hbound |]. reflexivity.
Qed.

Lemma pinkLoop_take (whites : list Q) (s : PinkState) (n : nat) :
  take n (pinkLoop s whites) = pinkLoop s (take n whites).
Proof.
  revert s n. induction whites as [|w whites IH]; intros s [|n]; try reflexivity.
  cbn [take pinkLoop]. destruct (pinkStep s w) as [s' sample].
  cbn [take]. f_equal. apply IH.
Qed.

(** X21: the scaling by 0.11 does not keep the pink buffer within [-1, 1]:
    for every buffer of at least 22 samples, when [Math.random()] returns
    0.9999 every time, the 22nd pink sample is above 1. *)
Theorem pink_noise_exceeds_one (bufferSize : nat) :
  (22 ≤ bufferSize)%nat →
  ∃ Math_random : nat → Q,
    (∀ k, 0 <= Math_random k < 1)
    ∧ ∃ x, (preloadNoiseBuffers bufferSize Math_random).2 !! 21%nat = Some x
           ∧ 1 < x.
Proof.
  intros Hsize. exists (λ _, 0.9999).
  split; [intros _; split; reflexivity || discriminate |].
  unfold preloadNoiseBuffers. cbn [snd].
  set (whites := (λ _ : nat, 0.9999 * 2 - 1) <$> seq 0 bufferSize).
  set (s := {| Pink.b0 := 0; Pink.b1 := 0; Pink.b2 := 0; Pink.b3 := 0;
               Pink.b4 := 0; Pink.b5 := 0; Pink.b6 := 0 |}).
  rewrite <- (lookup_take_lt (pinkLoop s whites) 22 21) by lia.
  rewrite pinkLoop_take. unfold whites.
  rewrite <- fmap_take, take_seq, Nat.min_l by exact Hsize.
  eexists. split; [vm_compute; reflexivity | reflexivity].
Qed.

End Synth.

(** ** The theorems at sample inputs *)

(** C1 on a full pool: eight notes are held and a ninth is played. *)
Lemma findVoiceForNoteOn_priority_witness :
  Allocates
    (run sample_pow sample_value (sample_engine sample_value)
       [NoteOn 60 100; ClockAdvances 1; NoteOn 61 100; ClockAdvances 1;
        NoteOn 62 100; ClockAdvances 1; NoteOn 63 100; ClockAdvances 1;
        NoteOn 64 100; ClockAdvances 1; NoteOn 65 100; ClockAdvances 1;
        NoteOn 66 100; ClockAdvances 1; NoteOn 67 100; ClockAdvances 1])
    72
    (findVoiceForNoteOn
       (run sample_pow sample_value (sample_engine sample_value)
          [NoteOn 60 100; ClockAdvances 1; NoteOn 61 100; ClockAdvances 1;
           NoteOn 62 100; ClockAdvances 1; NoteOn 63 100; ClockAdvances 1;
           NoteOn 64 100; ClockAdvances 1; NoteOn 65 100; ClockAdvances 1;
           NoteOn 66 100; ClockAdvances 1; NoteOn 67 100; ClockAdvances 1])
       72).
Proof. apply findVoiceForNoteOn_priority. vm_compute. discriminate. Defined.

(** C3 on a retrigger: note 60 is played twice. *)
Lemma one_voice_per_note_witness :
  (findVoiceForNoteOn
     (resumeIfSuspended
        (run sample_pow sample_value
           (construct sample_value MAX_POLYPHONY sample_context 1 INITIAL_SYNTH_PARAMS)
           [NoteOn 60 100; ClockAdvances 1]))
     60).2 = Some 0%nat
  ∧ soundingCount 60
      (Engine.voices
         (noteOn sample_pow
            (run sample_pow sample_value
               (construct sample_value MAX_POLYPHONY sample_context 1 INITIAL_SYNTH_PARAMS)
               [NoteOn 60 100; ClockAdvances 1])
            60 90)) = 1%nat.
Proof.
  destruct (one_voice_per_note sample_pow sample_value MAX_POLYPHONY sample_context 1
              INITIAL_SYNTH_PARAMS [NoteOn 60 100; ClockAdvances 1] 60)
    as [_ Hretrigger].
  destruct (Hretrigger 0%nat
              (noteOn_voice sample_pow (sample_engine sample_value) 60 100 (newVoice 0)) 90)
    as (Hslot & _ & Hcount).
  - vm_compute. reflexivity.
  - vm_compute. exact I.
  - split; [exact Hslot | exact Hcount].
Defined.

(** C6 on a note held for two seconds and released, and its cleanup timer
    firing. *)
Lemma noteOff_release_and_cleanup_witness :
  (∃ v', Engine.voices
           (noteOff sample_value
              (run sample_pow sample_value
                 (construct sample_value MAX_POLYPHONY sample_context 1 INITIAL_SYNTH_PARAMS)
                 [NoteOn 60 100; ClockAdvances 2])
              60) !! 0%nat = Some v'
         ∧ Voice.isReleasing v' = true
         ∧ (∀ osc, osc ∈ Voice.oscillators v' →
              last (OscNode.stopCalls (Comp.oscNode osc))
              = Some (0 + Qmax 0 2 + Qmax 0.5 0.4 + 0.05)))
  ∧ ∃ cleaned,
      Engine.voices
        (fireTimeout
           (noteOff sample_value
              (run sample_pow sample_value
                 (construct sample_value MAX_POLYPHONY sample_context 1 INITIAL_SYNTH_PARAMS)
                 [NoteOn 60 100; ClockAdvances 2])
              60)
           1) !! 0%nat = Some cleaned
      ∧ Voice.note cleaned = None ∧ isReset cleaned.
Proof.
  destruct (noteOff_release_and_cleanup sample_pow sample_value MAX_POLYPHONY
              sample_context 1 INITIAL_SYNTH_PARAMS [NoteOn 60 100; ClockAdvances 2]
              60 0%nat
              (noteOn_voice sample_pow (sample_engine sample_value) 60 100 (newVoice 0)))
    as [(v' & Hslot & _ & _ & Hrel & _ & Hstops & _)
        [_ (fired & _ & (w & cleaned & _ & Hcleaned & Hreset & _ & Hnote & _))]].
  - vm_compute. reflexivity.
  - vm_compute. exact I.
  - split.
    + exists v'. split; [exact Hslot |]. split; [exact Hrel | exact Hstops].
    + exists cleaned. split; [exact Hcleaned |]. split; [exact Hnote | exact Hreset].
Defined.

(** C7, the amended statement, on the first note of the new engine. *)
Lemma noteOn_filter_targets_witness :
  Engine.voices (sample_engine sample_value) ≠ []
  ∧ ∃ slot voice before,
      Engine.voices (noteOn sample_pow (sample_engine sample_value) 72 100) !! slot = Some voice
      ∧ Biquad.frequency (Voice.filterNode voice)
        = before
          ++ [ CancelScheduledValues 0;
               SetValueAtTime
                 (Qmax 20 (Qmin (44100 / 2) (5000 + (inject_Z 72 - 60) * (0.5 * 20)))) 0;
               LinearRampToValueAtTime
                 (Qmax 20 (Qmin (44100 / 2)
                    (Qmax 20 (Qmin (44100 / 2) (5000 + (inject_Z 72 - 60) * (0.5 * 20)))
                     + 0.5 * 5000)))
                 (0 + Qmax 0.001 0.05);
               LinearRampToValueAtTime
                 (Qmax 20 (Qmin (44100 / 2)
                    (Qmax 20 (Qmin (44100 / 2) (5000 + (inject_Z 72 - 60) * (0.5 * 20)))
                     + 0.5 * (0.5 * 5000))))
                 (0 + Qmax 0.001 0.05 + Qmax 0.001 0.2) ].
Proof.
  split; [vm_compute; discriminate |].
  destruct (noteOn_filter_targets sample_pow (sample_engine sample_value) 72 100)
    as (slot & voice & before & _ & Hlook & Hfreq); [vm_compute; discriminate |].
  exists slot, voice, before. split; [exact Hlook | exact Hfreq].
Defined.

(** C8 on an engine built with no voice. *)
Lemma noteOn_empty_pool_witness :
  Engine.voices (construct sample_value 0 sample_context 1 INITIAL_SYNTH_PARAMS) = []
  ∧ findVoiceForNoteOn (construct sample_value 0 sample_context 1 INITIAL_SYNTH_PARAMS) 60
    = (construct sample_value 0 sample_context 1 INITIAL_SYNTH_PARAMS, None)
  ∧ noteOn sample_pow (construct sample_value 0 sample_context 1 INITIAL_SYNTH_PARAMS) 60 100
    = resumeIfSuspended (construct sample_value 0 sample_context 1 INITIAL_SYNTH_PARAMS).
Proof.
  split; [reflexivity |].
  destruct (noteOn_empty_pool sample_pow
              (construct sample_value 0 sample_context 1 INITIAL_SYNTH_PARAMS) 60 100)
    as (Hfind & Hon & _); [reflexivity |].
  split; [exact Hfind | exact Hon].
Defined.

(** C9: note 60 sounds and note 61 is released. *)
Lemma noteOff_silent_note_witness :
  noteOff sample_value (noteOn sample_pow (sample_engine sample_value) 60 100) 61
  = noteOn sample_pow (sample_engine sample_value) 60 100.
Proof.
  apply noteOff_silent_note. intros slot v Hv.
  repeat (destruct slot as [|slot];
          [vm_compute in Hv; injection Hv as <-; vm_compute; tauto |]).
  vm_compute in Hv. discriminate.
Defined.

(** C10 on a retrigger: the voice that sounds note 60 is returned reset. *)
Lemma allocated_voice_is_reset_witness :
  ∃ v, Engine.voices
         (findVoiceForNoteOn
            (run sample_pow sample_value
               (construct sample_value MAX_POLYPHONY sample_context 1 INITIAL_SYNTH_PARAMS)
               [NoteOn 60 100; ClockAdvances 1; NoteOff 60])
            60).1 !! 0%nat = Some v
       ∧ Voice.isActive v = false ∧ Voice.isReleasing v = false
       ∧ Voice.oscillators v = [] ∧ Voice.scheduledStopTimeouts v = [].
Proof.
  destruct (allocated_voice_is_reset sample_pow sample_value MAX_POLYPHONY
              sample_context 1 INITIAL_SYNTH_PARAMS
              [NoteOn 60 100; ClockAdvances 1; NoteOff 60] 60
              (run sample_pow sample_value
                 (construct sample_value MAX_POLYPHONY sample_context 1 INITIAL_SYNTH_PARAMS)
                 [NoteOn 60 100; ClockAdvances 1; NoteOff 60])
              (findVoiceForNoteOn
                 (run sample_pow sample_value
                    (construct sample_value MAX_POLYPHONY sample_context 1 INITIAL_SYNTH_PARAMS)
                    [NoteOn 60 100; ClockAdvances 1; NoteOff 60])
                 60).1
              0%nat)
    as (v & Hslot & Hact & Hrel & Hosc & _ & _ & Hlist & _).
  - left. reflexivity.
  - vm_compute. reflexivity.
  - exists v. auto.
Defined.

(** C7 as stated fails: with cutoff 10 and no keyboard tracking, [noteOn]
    schedules the base cutoff 10 on the filter frequency, below the 20 that a
    clamp to [20, sampleRate / 2] yields. *)
Lemma noteOn_base_cutoff_unclamped :
  (∀ (Math_pow : Q → Q → Q) (param_value : AudioParam → Q → Q),
     ∃ voice,
       Engine.voices
         (noteOn Math_pow (newAudioEngine param_value sample_context 1 lowCutoff) 60 100)
         !! 0%nat = Some voice
       ∧ Biquad.frequency (Voice.filterNode voice)
         = [ CancelScheduledValues 0;
             SetValueAtTime 10 0;
             LinearRampToValueAtTime
               (Qmax 20 (Qmin (44100 / 2) (10 + 0.5 * 5000))) (0 + Qmax 0.001 0.05);
             LinearRampToValueAtTime
               (Qmax 20 (Qmin (44100 / 2) (10 + 0.5 * (0.5 * 5000))))
               (0 + Qmax 0.001 0.05 + Qmax 0.001 0.2) ])
  ∧ baseCutoff_clamped (newAudioEngine sample_value sample_context 1 lowCutoff) 60 == 20
  ∧ ¬ 20 <= 10.
Proof.
  split; [| split].
  - intros Math_pow param_value. eexists. split; vm_compute; reflexivity.
  - vm_compute. reflexivity.
  - vm_compute. congruence.
Qed.


(** ** The further properties at sample inputs *)

(** X2 on the first note of the new engine. *)
Lemma noteOn_sounds_witness :
  ∃ slot voice,
    Engine.voices (noteOn sample_pow (sample_engine sample_value) 60 100) !! slot
    = Some voice
    ∧ Voice.note voice = Some 60%Z ∧ Voice.velocity voice = 100
    ∧ Voice.isActive voice = true.
Proof.
  destruct (noteOn_sounds sample_pow (sample_engine sample_value) 60 100)
    as (slot & voice & _ & Hlook & Hnote & Hvel & Hact & _);
    [vm_compute; discriminate |].
  exists slot, voice. auto.
Defined.

(** X3 on the first note of the new engine. *)
Lemma noteOn_amplitude_envelope_witness :
  ∃ slot voice before,
    Engine.voices (noteOn sample_pow (sample_engine sample_value) 60 100) !! slot
    = Some voice
    ∧ Gain.gain (Voice.vcaNode voice)
      = before ++ [ CancelScheduledValues 0;
                    SetValueAtTime 0 0;
                    LinearRampToValueAtTime (1.0 * (100 / 127)) (0 + Qmax 0.001 0.01);
                    LinearRampToValueAtTime (0.8 * (1.0 * (100 / 127)))
                      (0 + Qmax 0.001 0.01 + Qmax 0.001 0.3) ].
Proof.
  destruct (noteOn_amplitude_envelope sample_pow (sample_engine sample_value) 60 100)
    as (slot & voice & before & _ & Hlook & Hgain); [vm_compute; discriminate |].
  exists slot, voice, before. split; [exact Hlook | exact Hgain].
Defined.

(** X4 on the initial patch: two of the three oscillators sound. *)
Lemma noteOn_oscillators_witness :
  ∃ slot voice,
    Engine.voices (noteOn sample_pow (sample_engine sample_value) 60 100) !! slot
    = Some voice
    ∧ OscNode.type ∘ Comp.oscNode <$> Voice.oscillators voice = [SAWTOOTH; SQUARE].
Proof.
  destruct (noteOn_oscillators sample_pow (sample_engine sample_value) 60 100)
    as (slot & voice & _ & Hlook & Hosc); [vm_compute; discriminate |].
  exists slot, voice. split; [exact Hlook |]. rewrite Hosc. reflexivity.
Defined.

(** X5 on the initial patch, where noise is off. *)
Lemma noteOn_noise_witness :
  ∃ slot voice,
    Engine.voices (noteOn sample_pow (sample_engine sample_value) 60 100) !! slot
    = Some voice
    ∧ Voice.noiseNode voice = None.
Proof.
  destruct (noteOn_noise sample_pow (sample_engine sample_value) 60 100)
    as (slot & voice & _ & Hlook & Hnoise); [vm_compute; discriminate |].
  exists slot, voice. split; [exact Hlook | exact Hnoise].
Defined.

(** X6: a second note leaves the voice of the first one alone. *)
Lemma noteOn_touches_one_slot_witness :
  Engine.voices
    (noteOn sample_pow (noteOn sample_pow (sample_engine sample_value) 60 100) 64 100)
    !! 0%nat
  = Engine.voices (noteOn sample_pow (sample_engine sample_value) 60 100) !! 0%nat.
Proof.
  destruct (noteOn_touches_one_slot sample_pow
              (noteOn sample_pow (sample_engine sample_value) 60 100) 64 100)
    as (slot & Hslot & Hother & _); [vm_compute; discriminate |].
  vm_compute in Hslot. injection Hslot as <-. apply Hother. discriminate.
Defined.

(** X9 on a note held for two seconds and released. *)
Lemma noteOff_release_targets_witness :
  ∃ v' pinnedCutoff,
    Engine.voices
      (noteOff sample_value
         (run sample_pow sample_value
            (construct sample_value MAX_POLYPHONY sample_context 1 INITIAL_SYNTH_PARAMS)
            [NoteOn 60 100; ClockAdvances 2])
         60) !! 0%nat = Some v'
    ∧ Biquad.frequency (Voice.filterNode v')
      = Biquad.frequency
          (Voice.filterNode
             (noteOn_voice sample_pow (sample_engine sample_value) 60 100 (newVoice 0)))
        ++ [ CancelScheduledValues (0 + 2);
             SetValueAtTime pinnedCutoff (0 + 2);
             LinearRampToValueAtTime
               (Qmax 20 (Qmin (44100 / 2) (5000 + (inject_Z 60 - 60) * (0.5 * 20))))
               (0 + 2 + Qmax 0.001 0.4) ].
Proof.
  destruct (noteOff_release_targets sample_pow sample_value MAX_POLYPHONY
              sample_context 1 INITIAL_SYNTH_PARAMS [NoteOn 60 100; ClockAdvances 2]
              60 0%nat
              (noteOn_voice sample_pow (sample_engine sample_value) 60 100 (newVoice 0)))
    as (v' & pinnedGain & pinnedCutoff & Hlook & _ & Hfreq & _).
  - vm_compute. reflexivity.
  - vm_compute. exact I.
  - exists v', pinnedCutoff. split; [exact Hlook | exact Hfreq].
Defined.

(** X10 on a note held for two seconds, released and cleaned up. *)
Lemma release_then_cleanup_frees_witness :
  ∃ v',
    Engine.voices
      (fireTimeout
         (noteOff sample_value
            (run sample_pow sample_value
               (construct sample_value MAX_POLYPHONY sample_context 1 INITIAL_SYNTH_PARAMS)
               [NoteOn 60 100; ClockAdvances 2])
            60)
         1) !! 0%nat = Some v'
    ∧ Voice.note v' = None ∧ isReset v'.
Proof.
  destruct (release_then_cleanup_frees sample_pow sample_value MAX_POLYPHONY
              sample_context 1 INITIAL_SYNTH_PARAMS [NoteOn 60 100; ClockAdvances 2]
              60 0%nat
              (noteOn_voice sample_pow (sample_engine sample_value) 60 100 (newVoice 0)))
    as [(v' & Hlook & Hnote & _ & _ & Hreset) _].
  - vm_compute. reflexivity.
  - vm_compute. exact I.
  - exists v'. split; [exact Hlook |]. split; [exact Hnote | exact Hreset].
Defined.

(** X11: note 60 is released and played again while its cleanup timer is
    pending; the timer fires and the new note goes on. *)
Lemma fresh_note_survives_timers_witness :
  ∃ slot voice,
    Engine.voices
      (fireTimeout
         (noteOn sample_pow
            (run sample_pow sample_value
               (construct sample_value MAX_POLYPHONY sample_context 1 INITIAL_SYNTH_PARAMS)
               [NoteOn 60 100; ClockAdvances 1; NoteOff 60])
            60 90)
         1) !! slot = Some voice
    ∧ Voice.note voice = Some 60%Z ∧ Voice.isActive voice = true.
Proof.
  destruct (fresh_note_survives_timers sample_pow sample_value MAX_POLYPHONY
              sample_context 1 INITIAL_SYNTH_PARAMS
              [NoteOn 60 100; ClockAdvances 1; NoteOff 60] 60 90)
    as (slot & voice & _ & _ & Hnote & Hact & _ & Hfire); [discriminate |].
  exists slot, voice. split; [apply Hfire |]. split; [exact Hnote | exact Hact].
Defined.

(** X13: the LFO is switched on and a note is played. *)
Lemma lfo_follows_params_witness :
  ∃ osc pitch filter,
    Engine.lfoOscNode
      (run sample_pow sample_value
         (construct sample_value MAX_POLYPHONY sample_context 1 INITIAL_SYNTH_PARAMS)
         [UpdateParams lfoOn; NoteOn 60 100]) = Some osc
    ∧ Engine.lfoGainPitchNode
        (run sample_pow sample_value
           (construct sample_value MAX_POLYPHONY sample_context 1 INITIAL_SYNTH_PARAMS)
           [UpdateParams lfoOn; NoteOn 60 100]) = Some pitch
    ∧ Engine.lfoGainFilterNode
        (run sample_pow sample_value
           (construct sample_value MAX_POLYPHONY sample_context 1 INITIAL_SYNTH_PARAMS)
           [UpdateParams lfoOn; NoteOn 60 100]) = Some filter
    ∧ OscNode.type osc = SINE.
Proof.
  assert (Hkept : Dispose ∉ [UpdateParams lfoOn; NoteOn 60 100]).
  { intros Hin. apply elem_of_cons in Hin as [Hin | Hin]; [discriminate |].
    apply elem_of_cons in Hin as [Hin | Hin]; [discriminate |].
    inversion Hin. }
  generalize (lfo_follows_params sample_pow sample_value MAX_POLYPHONY sample_context 1
                INITIAL_SYNTH_PARAMS [UpdateParams lfoOn; NoteOn 60 100] Hkept).
  vm_compute. intros Hlfo. exact Hlfo.
Defined.

(** X14: the filter is switched to high-pass while note 60 sounds. *)
Lemma updateParams_filter_push_witness :
  ∃ v',
    Engine.voices
      (updateParams sample_value
         (noteOn sample_pow (sample_engine sample_value) 60 100) highpassFilter)
      !! 0%nat = Some v'
    ∧ Voice.note v' = Some 60%Z
    ∧ Biquad.type (Voice.filterNode v') = highpass.
Proof.
  assert (Hv : ∃ v, Engine.voices (noteOn sample_pow (sample_engine sample_value) 60 100)
                    !! 0%nat = Some v
                    ∧ Voice.note v = Some 60%Z ∧ onlyActive v = true)
    by (eexists; split; [vm_compute; reflexivity | split; vm_compute; reflexivity]).
  destruct Hv as (v & Hv & Hnote & Hactive).
  destruct (updateParams_filter_push sample_value
              (noteOn sample_pow (sample_engine sample_value) 60 100)
              highpassFilter 0%nat v Hv)
    as (_ & v' & Hlook & Hnote' & _ & _ & _ & _ & _ & _ & _ & _ & _ & _ & _ & _ & Htype).
  exists v'. split; [exact Hlook |]. split; [congruence |].
  apply Htype; [vm_compute; reflexivity | exact Hactive].
Defined.

(** X15: note 69 on the two sounding oscillators, then the wheel pushed to
    its upper end. *)
Lemma setPitchBend_retunes_aligned_witness :
  Engine.pitchBendMultiplier
    (setPitchBend sample_pow
       (noteOn sample_pow (newAudioEngine sample_value sample_context 1 twoOscillators)
          69 100) 1)
  = sample_pow 2 (1 * 2 / 12)
  ∧ ∃ slot voice,
      Engine.voices
        (setPitchBend sample_pow
           (noteOn sample_pow (newAudioEngine sample_value sample_context 1 twoOscillators)
              69 100) 1) !! slot = Some voice
      ∧ length (Voice.oscillators voice) = 2%nat.
Proof.
  destruct (setPitchBend_retunes_aligned sample_pow
              (newAudioEngine sample_value sample_context 1 twoOscillators) 69 100 1)
    as (Hmult & slot & voice & _ & Hlook & Hlen & _).
  - vm_compute. discriminate.
  - intros p Hp. apply elem_of_cons in Hp as [-> | Hp]; [reflexivity |].
    apply elem_of_cons in Hp as [-> | Hp]; [reflexivity |]. inversion Hp.
  - intros p w note index Hp.
    apply elem_of_cons in Hp as [-> | Hp]; [destruct w; discriminate |].
    apply elem_of_cons in Hp as [-> | Hp]; [destruct w; discriminate |]. inversion Hp.
  - split; [exact Hmult |]. exists slot, voice. split; [exact Hlook | exact Hlen].
Defined.

(** X16 at the centre position of the wheel, on channel 4. *)
Lemma pitchBend_decoding_witness :
  ∃ bend,
    handleMidiMessage [0xE3; 0; 64]%Z = Some (onPitchBendEvent (Some bend))
    ∧ bend == 0.
Proof.
  destruct (pitchBend_decoding 0xE3 0 64) as (bend & Hbend & _ & _ & _ & Hzero);
    [reflexivity | lia | lia |].
  exists bend. split; [exact Hbend |]. apply Hzero. split; reflexivity.
Defined.

(** X17 on a note-on with velocity 0 on channel 2. *)
Lemma note_events_wellformed_witness :
  handleMidiMessage [0x91; 60; 0]%Z
  = Some (onNoteEvent {| Midi.command := MIDI_NOTE_OFF; Midi.note := Some 60%Z;
                         Midi.velocity := Some 0%Z |})
  ∧ Z.land (ToInt32 ([0x91; 60; 0]%Z !! 0%nat)) 0xF0 = MIDI_NOTE_ON.
Proof.
  split; [reflexivity |].
  destruct (note_events_wellformed [0x91; 60; 0]%Z
              {| Midi.command := MIDI_NOTE_OFF; Midi.note := Some 60%Z;
                 Midi.velocity := Some 0%Z |} eq_refl)
    as [(Hcommand & _) | (_ & _ & [(Hstatus & _) | (Hstatus & _)])].
  - discriminate Hcommand.
  - discriminate Hstatus.
  - exact Hstatus.
Defined.

(** X18 while note 60 sounds: a note-on with velocity 0 on channel 1 and a
    note-off with release velocity 64 on channel 4. *)
Lemma note_on_zero_is_note_off_witness :
  onmidimessage sample_pow sample_value
    {| App.audioEngine := Some (noteOn sample_pow (sample_engine sample_value) 60 100);
       App.lastPlayedNote := "C4 (Vel: 100)" |}
    [0x90; 60; 0]%Z
  = onmidimessage sample_pow sample_value
      {| App.audioEngine := Some (noteOn sample_pow (sample_engine sample_value) 60 100);
         App.lastPlayedNote := "C4 (Vel: 100)" |}
      [0x83; 60; 64]%Z.
Proof. apply note_on_zero_is_note_off; reflexivity. Defined.

(** X19 on two notes, a release and the wheel back at its centre. *)
Lemma midi_stream_keeps_one_voice_per_note_witness :
  ∃ app' e',
    deliver sample_pow sample_value
      {| App.audioEngine :=
           Some (construct sample_value MAX_POLYPHONY sample_context 1
                   INITIAL_SYNTH_PARAMS);
         App.lastPlayedNote := "--" |}
      [[0x90; 60; 100]; [0x90; 64; 100]; [0x80; 60; 0]; [0xE0; 0; 64]]%Z
    = Some app'
    ∧ App.audioEngine app' = Some e'
    ∧ length (Engine.voices e') = MAX_POLYPHONY
    ∧ ∀ note, (soundingCount note (Engine.voices e') ≤ 1)%nat.
Proof.
  assert (Hrun : ∃ app',
             deliver sample_pow sample_value
               {| App.audioEngine :=
                    Some (construct sample_value MAX_POLYPHONY sample_context 1
                            INITIAL_SYNTH_PARAMS);
                  App.lastPlayedNote := "--" |}
               [[0x90; 60; 100]; [0x90; 64; 100]; [0x80; 60; 0]; [0xE0; 0; 64]]%Z
             = Some app')
    by (eexists; vm_compute; reflexivity).
  destruct Hrun as (app' & Hrun).
  destruct (midi_stream_keeps_one_voice_per_note sample_pow sample_value MAX_POLYPHONY
              sample_context 1 INITIAL_SYNTH_PARAMS "--" _ app' Hrun)
    as (e' & Hengine & Hlen & Hcount).
  exists app', e'. auto.
Defined.

(** X20 on four samples with [Math.random()] at a quarter. *)
Lemma noise_buffers_bounded_witness :
  length (preloadNoiseBuffers 4 (λ _, 0.25)).2 = 4%nat
  ∧ ∀ x, x ∈ (preloadNoiseBuffers 4 (λ _, 0.25)).2 → - pinkBound <= x <= pinkBound.
Proof.
  destruct (noise_buffers_bounded 4 (λ _, 0.25)) as (_ & Hlen & _ & Hpink & _).
  - intros _. split; [discriminate | reflexivity].
  - split; [exact Hlen | exact Hpink].
Defined.

(** X21 on a buffer of a hundred samples. *)
Lemma pink_noise_exceeds_one_witness :
  ∃ Math_random : nat → Q,
    (∀ k, 0 <= Math_random k < 1)
    ∧ ∃ x, (preloadNoiseBuffers 100 Math_random).2 !! 21%nat = Some x ∧ 1 < x.
Proof. apply pink_noise_exceeds_one. lia. Defined.
